(** * The voice question-answer pipeline of the overlay's main process

    A shallow embedding of the voice handlers of the Electron main module
    (the [SAVE_AND_TRANSCRIBE] handler, the module-level voice state, the
    small voice IPC handlers and [resetAll]) together with the renderer's
    [abortProcessing] callback, followed by the window functions of the
    same module and the listeners of the voice panel.

    Conventions.
    - A JavaScript string is a [string]; one character stands for one
      UTF-16 code unit, so [String.length] is the [.length] property.
    - [Date.now()], [Math.random()], the file system, and the two HTTP
      boundaries are inputs: every value the handler awaits is supplied
      by an explicit reply.
    - [logger.*], [logPhase] and [logDuration] only write the log; they
      are left out, and so are the locals that feed nothing but the log
      ([lastErr], [chunkIndex], [llmStart], [sttStart]).
    - [state.mainWindow?.webContents.send] is recorded in an effect trace
      in program order, next to the file write and the HTTP requests.
    - The handler is asynchronous: it is split at its [await]s into
      [invoke] and [resume], which run without interruption on the
      shared module state; [run] drives one request alone, [sys_step]
      lets several requests take turns. *)

From Stdlib Require Import ZArith Lia Ascii String DecimalString.
From Stdlib.Strings Require Import Byte.
From Stdlib Require DecimalZ DecimalPos.
From Stdlib Require QArith Qround Qminmax Lqa.
From stdpp Require Import base tactics option list strings.

Local Open Scope Z_scope.
Local Open Scope string_scope.
Local Open Scope list_scope.

(** ** Strings *)

Module Str.

(** The line feed, written ['\n'] in the source. *)
Definition nl : string := String "010"%char EmptyString.

(** Truthiness of a string: only the empty string is falsy. *)
Definition truthy (s : string) : bool :=
  match s with
  | EmptyString => false
  | String _ _ => true
  end.

(** White space removed by [String.prototype.trim], among the code
    units below 256: TAB, LF, VT, FF, CR, SP and NBSP. *)
Definition is_space (c : ascii) : bool :=
  let n := nat_of_ascii c in
  ((9 <=? n) && (n <=? 13) || (n =? 32) || (n =? 160))%nat.

Fixpoint trim_start (s : string) : string :=
  match s with
  | EmptyString => EmptyString
  | String c rest => if is_space c then trim_start rest else s
  end.

(** [trim_end] keeps a character when it is not a space or when
    something is left after it. *)
Fixpoint trim_end (s : string) : string :=
  match s with
  | EmptyString => EmptyString
  | String c rest =>
      match trim_end rest with
      | EmptyString => if is_space c then EmptyString else String c EmptyString
      | kept => String c kept
      end
  end.

Definition trim (s : string) : string := trim_end (trim_start s).

(** [s.split('\n')]: the pieces between line feeds; a string without a
    line feed is its own single piece. *)
Fixpoint split_nl (s : string) : list string :=
  match s with
  | EmptyString => [EmptyString]
  | String c rest =>
      if Ascii.eqb c "010"%char then EmptyString :: split_nl rest
      else match split_nl rest with
           | [] => [String c EmptyString]
           | piece :: pieces => String c piece :: pieces
           end
  end.

(** [parts.join(sep)]. *)
Fixpoint join (sep : string) (parts : list string) : string :=
  match parts with
  | [] => EmptyString
  | [p] => p
  | p :: rest => p +:+ sep +:+ join sep rest
  end.

(** [s.slice(0, n)]. *)
Fixpoint slice0 (n : nat) (s : string) : string :=
  match n, s with
  | S k, String c rest => String c (slice0 k rest)
  | _, _ => EmptyString
  end.

(** Decimal rendering of an integer, as a template literal prints it. *)
Definition of_Z (z : Z) : string := NilZero.string_of_int (Z.to_int z).

End Str.

(** ** Module-level voice state *)

Record VoiceTurn := mkTurn { q : string; a : string; ts : Z }.

Definition VOICE_HISTORY_MAX_TURNS : nat := 15.
Definition VOICE_HISTORY_CHAR_LIMIT : nat := 2500.

(** What the main process sends to the renderer on the voice channels,
    and the three notifications of [resetAll]. *)
Inductive VoiceEvent :=
| STATUS (phase message : string) (question requestId : option string)
| PARTIAL (requestId delta answer model : string)
| RESULT (question answer model requestId : string)
| ERROR (msg : string)
| RESET_VIEW
| PROCESSING_RESET
| VOICE_RESET.

(** Effects in program order. *)
Inductive Effect :=
| WriteFile (startTs : Z) (bytes : list Byte.byte)
| PostTranscribe (startTs : Z) (language : string)
| PostGenerate (model prompt : string)
| Send (e : VoiceEvent).

Record Main := mkMain {
  voiceContext : string;
  voiceStreamingActive : bool;
  voicePreferredModel : option string;
  voiceHistory : list VoiceTurn;
  voiceHistoryEnabled : bool;
  trace : list Effect
}.

(** The state the module starts in. *)
Definition initial : Main :=
  {| voiceContext := EmptyString;
     voiceStreamingActive := false;
     voicePreferredModel := None;
     voiceHistory := [];
     voiceHistoryEnabled := true;
     trace := [] |}.

Definition set_streaming (b : bool) (s : Main) : Main :=
  {| voiceContext := voiceContext s;
     voiceStreamingActive := b;
     voicePreferredModel := voicePreferredModel s;
     voiceHistory := voiceHistory s;
     voiceHistoryEnabled := voiceHistoryEnabled s;
     trace := trace s |}.

Definition set_history (h : list VoiceTurn) (s : Main) : Main :=
  {| voiceContext := voiceContext s;
     voiceStreamingActive := voiceStreamingActive s;
     voicePreferredModel := voicePreferredModel s;
     voiceHistory := h;
     voiceHistoryEnabled := voiceHistoryEnabled s;
     trace := trace s |}.

Definition set_context (c : string) (s : Main) : Main :=
  {| voiceContext := c;
     voiceStreamingActive := voiceStreamingActive s;
     voicePreferredModel := voicePreferredModel s;
     voiceHistory := voiceHistory s;
     voiceHistoryEnabled := voiceHistoryEnabled s;
     trace := trace s |}.

Definition set_preferred (m : option string) (s : Main) : Main :=
  {| voiceContext := voiceContext s;
     voiceStreamingActive := voiceStreamingActive s;
     voicePreferredModel := m;
     voiceHistory := voiceHistory s;
     voiceHistoryEnabled := voiceHistoryEnabled s;
     trace := trace s |}.

Definition set_enabled (b : bool) (s : Main) : Main :=
  {| voiceContext := voiceContext s;
     voiceStreamingActive := voiceStreamingActive s;
     voicePreferredModel := voicePreferredModel s;
     voiceHistory := voiceHistory s;
     voiceHistoryEnabled := b;
     trace := trace s |}.

(** Effects appended to the trace, oldest first. *)
Definition emit (es : list Effect) (s : Main) : Main :=
  {| voiceContext := voiceContext s;
     voiceStreamingActive := voiceStreamingActive s;
     voicePreferredModel := voicePreferredModel s;
     voiceHistory := voiceHistory s;
     voiceHistoryEnabled := voiceHistoryEnabled s;
     trace := trace s ++ es |}.

Definition effect (e : Effect) (s : Main) : Main := emit [e] s.

Definition send (e : VoiceEvent) (s : Main) : Main := effect (Send e) s.

(** ** History store *)

(** [arr.slice(-n)] for a positive [n]: the last [n] elements. *)
Definition slice_last {A} (n : nat) (l : list A) : list A :=
  drop (length l - n) l.

(** [voiceHistory.push(t)] followed by the trim to the turn bound. *)
Definition push_turn (t : VoiceTurn) (h : list VoiceTurn) : list VoiceTurn :=
  let pushed := h ++ [t] in
  if (VOICE_HISTORY_MAX_TURNS <? length pushed)%nat
  then slice_last VOICE_HISTORY_MAX_TURNS pushed
  else pushed.

(** ** Candidate models *)

Definition defaultModels : list string :=
  ["phi3:latest"; "mistral:latest"; "llama3"; "gemma3:12b-it-qat"].

(** [arr.includes(x)]. *)
Definition includes (x : string) (l : list string) : bool :=
  existsb (String.eqb x) l.

(** One round of the [for (const dm of defaultModels)] loop. *)
Definition push_if_new (acc : list string) (dm : string) : list string :=
  if includes dm acc then acc else acc ++ [dm].

(** A string argument that is present and truthy. *)
Definition given (o : option string) : option string :=
  match o with
  | Some m => if Str.truthy m then Some m else None
  | None => None
  end.

Definition candidateModels (override preferred : option string) : list string :=
  let first :=
    match given override with
    | Some m => [m]
    | None =>
        match given preferred with
        | Some p => [p]
        | None => []
        end
    end in
  fold_left push_if_new defaultModels first.

(** ** Prompt assembly *)

(** The template literal that is measured against the budget. *)
Definition snippet (t : VoiceTurn) : string :=
  "Q: " +:+ q t +:+ Str.nl +:+ "A: " +:+ a t +:+ Str.nl +:+ Str.nl.

(** The template literal that is rendered. *)
Definition block (t : VoiceTurn) : string :=
  "Q: " +:+ q t +:+ Str.nl +:+ "A: " +:+ a t.

Definition history_header : string :=
  "Previous exchanges (context):" +:+ Str.nl.

(** The [for (let i = length - 1; i >= 0; i--)] loop, over the turns it
    has still to visit, newest first. *)
Fixpoint select_loop (limit : nat) (newest_first selected : list VoiceTurn)
    (totalChars : nat) : list VoiceTurn :=
  match newest_first with
  | [] => selected
  | turn :: older =>
      let nextTotal := (totalChars + String.length (snippet turn))%nat in
      if (limit <? nextTotal)%nat then selected
      else select_loop limit older (selected ++ [turn]) nextTotal
  end.

(** The turns kept for the prompt, after [selected.reverse()]. *)
Definition select_turns (limit : nat) (history : list VoiceTurn) : list VoiceTurn :=
  rev (select_loop limit (rev history) [] 0).

Definition historySection_with (limit : nat) (enabled : bool)
    (history : list VoiceTurn) : string :=
  if enabled && (0 <? length history)%nat then
    let selected := select_turns limit history in
    if (0 <? length selected)%nat then
      history_header +:+ Str.join (Str.nl +:+ Str.nl) (map block selected)
        +:+ Str.nl +:+ Str.nl
    else EmptyString
  else EmptyString.

Definition historySection : bool -> list VoiceTurn -> string :=
  historySection_with VOICE_HISTORY_CHAR_LIMIT.

Definition systemPrefix (context : string) : string :=
  if Str.truthy context then
    "Interview Context (use this perspective when answering):" +:+ Str.nl
      +:+ Str.trim context +:+ Str.nl +:+ Str.nl
  else EmptyString.

Definition promptBase (s : Main) (transcription : string) : string :=
  systemPrefix (voiceContext s)
    +:+ historySection (voiceHistoryEnabled s) (voiceHistory s)
    +:+ "Question: " +:+ transcription +:+ Str.nl +:+ Str.nl +:+ "Answer:".

(** ** The request handler *)

(** The argument object of [SAVE_AND_TRANSCRIBE]; an absent field is
    [None]. *)
Record VoiceArgs := mkArgs {
  buffer : option (list Byte.byte);
  model : option string;
  language : option string
}.

(** What the handler returns: [{ success: false, error }] or
    [{ success: true, question, answer, model, requestId }]. *)
Inductive Outcome :=
| Failure (error : string)
| Success (question answer usedModel requestId : string).

(** What happens between the buffer check and the transcription
    request: the dynamic imports and the multipart form. *)
Inductive Prep :=
| PrepOk
| AxiosImportFails (msg : string)
| NoFormData
| FormBuildFails.

(** Inputs of the synchronous prefix of the handler. *)
Record Entry := mkEntry {
  startTs : Z;
  fs_error : option string;
  prep : Prep
}.

(** The body of the transcription response; an absent field is the
    empty string. *)
Record SttData := mkStt {
  stt_text : string;
  stt_transcription : string;
  stt_result : string
}.

Inductive SttReply :=
| SttResolves (data : option SttData)
| SttRejects.

Inductive FetchReply :=
| FetchRejects (msg : string)
| Responded (ok : bool) (status : Z) (has_body : bool).

Inductive ReadReply :=
| Chunk (txt : string)
| Done (now : Z)
| ReadRejects (msg : string).

(** A value the handler awaits. [rnd] is the six characters taken from
    [Math.random()]; [now] in [Done] is the [Date.now()] of the history
    entry. *)
Inductive Reply :=
| Transcribed (r : SttReply) (rnd : string)
| Fetched (r : FetchReply)
| ReadResult (r : ReadReply).

(** The locals that survive the prompt assembly. *)
Record Gen := mkGen {
  g_question : string;
  g_prompt : string;
  g_requestId : string
}.

(** The handler suspended at one of its [await]s: the transcription
    request, the [fetch] for model [m], or a [reader.read()] of the
    stream of model [m]. [rest] are the candidates not yet tried. At a
    [fetch] the local [answer] is empty, as initialised or as reset by
    the per-model [catch], and [usedModel] is null; at a read
    [usedModel] is [m]. *)
Inductive Pending :=
| AwaitTranscribe (args : VoiceArgs) (started : Z)
| AwaitFetch (g : Gen) (m : string) (rest : list string)
| AwaitRead (g : Gen) (m : string) (rest : list string) (answer : string).

Definition Step : Type := Main * (Outcome + Pending).

(** One object of the line-delimited stream, as far as the handler
    looks at it: [response] (empty when absent or falsy) and the
    truthiness of [done]. *)
Record StreamLine := mkLine { response : string; done : bool }.

(** [error?.message || 'Voice processing failed'] *)
Definition message_of (msg : string) : string :=
  if Str.truthy msg then msg else "Voice processing failed".

(** The top-level [catch]. *)
Definition fail (msg : string) (s : Main) : Step :=
  let m := message_of msg in
  (set_streaming false (send (ERROR m) s), inl (Failure m)).

(** [args.language || 'en'] *)
Definition language_or_en (ar : VoiceArgs) : string :=
  match given (language ar) with
  | Some l => l
  | None => "en"
  end.

(** [data?.text || data?.transcription || data?.result || ''] *)
Definition pick_transcription (data : option SttData) : string :=
  match data with
  | None => EmptyString
  | Some d =>
      if Str.truthy (stt_text d) then stt_text d
      else if Str.truthy (stt_transcription d) then stt_transcription d
      else stt_result d
  end.

Definition all_failed : string := "LLM generation failed for all models".
Definition placeholder : string := "No answer generated.".
Definition busy : string := "Another voice request in progress".

(** The head of the [for (const m of candidateModels)] loop: either the
    next [fetch] is issued, or the loop is over with [usedModel] null. *)
Definition try_next (g : Gen) (ms : list string) (s : Main) : Step :=
  match ms with
  | [] => fail all_failed (set_streaming false s)
  | m :: rest => (effect (PostGenerate m (g_prompt g)) s, inr (AwaitFetch g m rest))
  end.

(** [if (!answer) answer = 'No answer generated.'] *)
Definition final_answer (answer : string) : string :=
  if Str.truthy answer then answer else placeholder.

(** The code after the loop when it was left by [break]. *)
Definition complete (g : Gen) (usedModel answer : string) (now : Z) (s : Main) : Step :=
  let s := set_streaming false s in
  if negb (Str.truthy usedModel) then fail all_failed s
  else
    let answer := final_answer answer in
    let s :=
      if voiceHistoryEnabled s
      then set_history (push_turn (mkTurn (g_question g) answer now) (voiceHistory s)) s
      else s in
    (send (RESULT (g_question g) answer usedModel (g_requestId g)) s,
     inl (Success (g_question g) answer usedModel (g_requestId g))).

(** The handler from its entry to the transcription request. *)
Definition invoke (args : option VoiceArgs) (e : Entry) (s : Main) : Step :=
  if voiceStreamingActive s then (s, inl (Failure busy))
  else
    match args with
    | None => fail "No audio buffer provided" s
    | Some ar =>
        match buffer ar with
        | None => fail "No audio buffer provided" s
        | Some bytes =>
            match fs_error e with
            | Some msg => fail msg s
            | None =>
                let s := effect (WriteFile (startTs e) bytes) s in
                let s := send (STATUS "stt" "Transcribing…" None None) s in
                match prep e with
                | AxiosImportFails msg => fail msg s
                | NoFormData =>
                    fail "FormData constructor unavailable (install form-data or upgrade Node)" s
                | FormBuildFails => fail "Failed to prepare transcription request" s
                | PrepOk =>
                    (effect (PostTranscribe (startTs e) (language_or_en ar)) s,
                     inr (AwaitTranscribe ar (startTs e)))
                end
            end
        end
    end.

(** From the transcription reply to the first [fetch]. *)
Definition after_transcribe (ar : VoiceArgs) (started : Z) (r : SttReply)
    (rnd : string) (s : Main) : Step :=
  match r with
  | SttRejects => fail "Transcription failed" s
  | SttResolves data =>
      let transcription := pick_transcription data in
      if negb (Str.truthy transcription) then fail "Empty transcription result" s
      else
        let s := send (STATUS "llm" "Generating answer…" (Some transcription) None) s in
        let candidates := candidateModels (model ar) (voicePreferredModel s) in
        let prompt := promptBase s transcription in
        let requestId := Str.of_Z started +:+ "-" +:+ rnd in
        let s := send (STATUS "llm" "Generating answer…" (Some transcription)
                         (Some requestId)) s in
        try_next (mkGen transcription prompt requestId) candidates (set_streaming true s)
  end.

Section Stream.

(** [JSON.parse(line)] followed by the two property reads; [None]
    when anything in the per-line [try] throws. *)
Variable JSON_parse : string -> option StreamLine.

(** The body of [for (const line of lines)]. *)
Definition on_line (g : Gen) (m : string) (st : string * Main) (line : string)
    : string * Main :=
  match JSON_parse line with
  | None => st
  | Some json =>
      if Str.truthy (response json) then
        let delta := response json in
        let answer := fst st +:+ delta in
        (answer, send (PARTIAL (g_requestId g) delta answer m) (snd st))
      else st
  end.

(** [txt.split('\n').filter(l => l.trim())] *)
Definition lines_of (txt : string) : list string :=
  List.filter (fun l => Str.truthy (Str.trim l)) (Str.split_nl txt).

(** One round of the [while (true)] loop on a chunk that was read. *)
Definition on_chunk (g : Gen) (m : string) (st : string * Main) (txt : string)
    : string * Main :=
  fold_left (on_line g m) (lines_of txt) st.

(** The handler resumed with the value it was waiting for. A reply of
    another kind is not delivered to it and leaves it waiting. *)
Definition resume (p : Pending) (r : Reply) (s : Main) : Step :=
  match p, r with
  | AwaitTranscribe ar started, Transcribed r rnd =>
      after_transcribe ar started r rnd s
  | AwaitFetch g m rest, Fetched (FetchRejects _) => try_next g rest s
  | AwaitFetch g m rest, Fetched (Responded ok _ has_body) =>
      if negb ok || negb has_body then try_next g rest s
      else (s, inr (AwaitRead g m rest EmptyString))
  | AwaitRead g m rest answer, ReadResult (Chunk txt) =>
      let st := on_chunk g m (answer, s) txt in
      (snd st, inr (AwaitRead g m rest (fst st)))
  | AwaitRead g m rest answer, ReadResult (Done now) => complete g m answer now s
  | AwaitRead g m rest answer, ReadResult (ReadRejects _) => try_next g rest s
  | _, _ => (s, inr p)
  end.

(** The handler driven by the replies in the order they arrive, until
    it returns. *)
Fixpoint run (replies : list Reply) (st : Step) : Step :=
  match replies, st with
  | r :: more, (s, inr p) => run more (resume p r s)
  | _, _ => st
  end.

(** A whole request served by a scripted environment. *)
Definition handle (args : option VoiceArgs) (e : Entry) (replies : list Reply)
    (s : Main) : Step :=
  run replies (invoke args e s).

End Stream.

(** ** Requests in flight together *)

(** The main process with the handlers it has started: the module state
    they share, and for every invocation, in the order of submission,
    what it returned or where it is suspended. *)
Record Sys := mkSys {
  shared : Main;
  calls : list (Outcome + Pending)
}.

(** What happens next in the main process: the renderer submits a
    recording, or the value awaited by call [i] arrives. *)
Inductive Event :=
| Submit (args : option VoiceArgs) (e : Entry)
| Deliver (i : nat) (r : Reply).

Section Interleaving.

Variable JSON_parse : string -> option StreamLine.

(** One turn of the event loop. A handler runs from the event to its
    next [await] or to its return without interruption. *)
Definition sys_step (sys : Sys) (ev : Event) : Sys :=
  match ev with
  | Submit args e =>
      let st := invoke args e (shared sys) in
      mkSys (fst st) (calls sys ++ [snd st])
  | Deliver i r =>
      match calls sys !! i with
      | Some (inr p) =>
          let st := resume JSON_parse p r (shared sys) in
          mkSys (fst st) (<[i := snd st]> (calls sys))
      | _ => sys
      end
  end.

Definition sys_run (evs : list Event) (sys : Sys) : Sys :=
  fold_left sys_step evs sys.

End Interleaving.

(** The calls that are inside the generation loop. *)
Definition streaming_calls (sys : Sys) : nat :=
  length (List.filter
            (fun x => match x with
                      | inr (AwaitFetch _ _ _) | inr (AwaitRead _ _ _ _) => true
                      | _ => false
                      end)
            (calls sys)).

(** ** The other voice handlers, the full reset, the renderer's abort *)

(** The handlers of the main module that write the voice state. The
    [GET_*] handlers only read it. *)
Inductive Command :=
| SET_CONTEXT (ctx : string)
| SET_MODEL (m : string)
| CLEAR_HISTORY
| SET_HISTORY_ENABLED (enabled : bool)
| RESET_ALL.

Definition exec (c : Command) (s : Main) : Main :=
  match c with
  | SET_CONTEXT ctx => set_context (Str.slice0 4000 ctx) s
  | SET_MODEL m =>
      if (0 <? String.length (Str.trim m))%nat
      then set_preferred (Some (Str.trim m)) s
      else s
  | CLEAR_HISTORY => set_history [] s
  | SET_HISTORY_ENABLED enabled => set_enabled enabled s
  | RESET_ALL =>
      emit [Send RESET_VIEW; Send PROCESSING_RESET; Send VOICE_RESET]
        (set_streaming false (set_history [] s))
  end.

(** The renderer's view of the request. *)
Inductive Mode := idle | listening | processing.

(** [abortProcessing] of the voice panel: outside [processing] it
    returns at once; otherwise it calls the optional
    [electronAPI.voice.abortProcessing] inside a [try] with an empty
    [catch] and goes back to [idle]. The main module registers no
    handler that such a call could reach and never calls
    [controller.abort()], so the main state is the one it was given. *)
Definition abortProcessing (mode : Mode) (s : Main) : Mode * Main :=
  match mode with
  | processing => (idle, s)
  | _ => (mode, s)
  end.

(** ** Scripted generation attempts *)

(** What the generation boundary does for one candidate. *)
Inductive Attempt :=
| Unreachable (msg : string)
| Refused (status : Z) (has_body : bool)
| NoBody (status : Z)
| Broken (chunks : list string) (msg : string)
| Completes (chunks : list string) (now : Z).

Definition chunks_of (a : Attempt) : list string :=
  match a with
  | Broken chunks _ | Completes chunks _ => chunks
  | _ => []
  end.

Definition failing (a : Attempt) : bool :=
  match a with
  | Completes _ _ => false
  | _ => true
  end.

Definition replies_of (a : Attempt) : list Reply :=
  match a with
  | Unreachable msg => [Fetched (FetchRejects msg)]
  | Refused status has_body => [Fetched (Responded false status has_body)]
  | NoBody status => [Fetched (Responded true status false)]
  | Broken chunks msg =>
      Fetched (Responded true 200 true)
        :: map (fun c => ReadResult (Chunk c)) chunks ++ [ReadResult (ReadRejects msg)]
  | Completes chunks now =>
      Fetched (Responded true 200 true)
        :: map (fun c => ReadResult (Chunk c)) chunks ++ [ReadResult (Done now)]
  end.

Section StreamFacts.

Variable JSON_parse : string -> option StreamLine.

(** The deltas a chunk contributes, in line order. *)
Definition deltas_of_line (line : string) : list string :=
  match JSON_parse line with
  | Some json => if Str.truthy (response json) then [response json] else []
  | None => []
  end.

Definition deltas_of_chunk (txt : string) : list string :=
  flat_map deltas_of_line (lines_of txt).

Definition deltas (chunks : list string) : list string :=
  flat_map deltas_of_chunk chunks.

(** The partial events of the deltas [ds] on top of the text [sofar]. *)
Fixpoint partials (g : Gen) (m sofar : string) (ds : list string) : list Effect :=
  match ds with
  | [] => []
  | d :: more =>
      Send (PARTIAL (g_requestId g) d (sofar +:+ d) m) :: partials g m (sofar +:+ d) more
  end.

(** The text accumulated from the deltas. *)
Definition text_of (ds : list string) : string :=
  fold_left String.append ds EmptyString.

(** What one attempt leaves in the trace. *)
Definition attempt_trace (g : Gen) (ma : string * Attempt) : list Effect :=
  PostGenerate (fst ma) (g_prompt g)
    :: partials g (fst ma) EmptyString (deltas (chunks_of (snd ma))).

End StreamFacts.

(** ** A sample stream *)

Module Sample.

(** The double quote. *)
Definition dq : string := String "034"%char EmptyString.

(** The line [{"response":"d"}]. *)
Definition response_line (d : string) : string :=
  "{" +:+ dq +:+ "response" +:+ dq +:+ ":" +:+ dq +:+ d +:+ dq +:+ "}".

(** The line [{"done":true}]. *)
Definition done_line : string := "{" +:+ dq +:+ "done" +:+ dq +:+ ":true}".

(** Text that stands for itself inside a JSON string: no quote, no
    backslash, no control character. *)
Fixpoint plain (d : string) : bool :=
  match d with
  | EmptyString => true
  | String c rest =>
      let n := nat_of_ascii c in
      negb ((n <? 32) || (n =? 34) || (n =? 92))%nat && plain rest
  end.

(** [JSON.parse] on the two line shapes above; every other line is
    taken as malformed. *)
Definition parse (line : string) : option StreamLine :=
  if String.eqb line done_line then Some (mkLine EmptyString true)
  else
    let body := substring 13 (String.length line - 15) line in
    if String.eqb line (response_line body) && plain body
    then Some (mkLine body false)
    else None.

(** The stream of two deltas and the end marker, one object per line. *)
Definition stream_ab : string :=
  response_line "a" +:+ Str.nl +:+ response_line "b" +:+ Str.nl
    +:+ done_line +:+ Str.nl.

End Sample.

(** * Vocabulary of the properties *)

(** The list without its repetitions, every element at the place where
    it is first seen: the wording of the specification. *)
Fixpoint first_seen (l : list string) : list string :=
  match l with
  | [] => []
  | x :: rest => x :: List.filter (fun y => negb (String.eqb x y)) (first_seen rest)
  end.

(** The model the list starts with: the override when it is given, else
    the preferred model when it is set. *)
Definition leading (override preferred : option string) : list string :=
  match given override with
  | Some m => [m]
  | None =>
      match given preferred with
      | Some p => [p]
      | None => []
      end
  end.

(** The turns pushed one after the other. *)
Definition push_all (turns h : list VoiceTurn) : list VoiceTurn :=
  fold_left (fun h t => push_turn t h) turns h.

(** The characters a list of turns counts for. *)
Definition chars (turns : list VoiceTurn) : nat :=
  list_sum (map (fun t => String.length (snippet t)) turns).

(** The text [sofar] extended by the deltas. *)
Definition text_onto (sofar : string) (ds : list string) : string :=
  fold_left String.append ds sofar.

(** The attempts of a plan run in turn; a plan pairs each candidate
    with what the generation boundary does for it. *)
Definition plan_replies (plan : list (string * Attempt)) : list Reply :=
  flat_map (fun ma => replies_of (snd ma)) plan.

Definition all_failing (plan : list (string * Attempt)) : bool :=
  forallb (fun ma => failing (snd ma)) plan.

(** The state after a request has completed with model [m]. *)
Definition completed (g : Gen) (m answer : string) (now : Z) (s : Main) : Main :=
  {| voiceContext := voiceContext s;
     voiceStreamingActive := false;
     voicePreferredModel := voicePreferredModel s;
     voiceHistory :=
       if voiceHistoryEnabled s
       then push_turn (mkTurn (g_question g) (final_answer answer) now) (voiceHistory s)
       else voiceHistory s;
     voiceHistoryEnabled := voiceHistoryEnabled s;
     trace := trace s
              ++ [Send (RESULT (g_question g) (final_answer answer) m (g_requestId g))] |}.

(** The state [s'] differs from [s] at most in the in-flight flag and
    the trace. *)
Definition same_store (s s' : Main) : Prop :=
  voiceContext s' = voiceContext s
  /\ voicePreferredModel s' = voicePreferredModel s
  /\ voiceHistoryEnabled s' = voiceHistoryEnabled s
  /\ voiceHistory s' = voiceHistory s.

(** What the handler, entered or resumed in a state with the store of
    [s], has done when it is at [st]. *)
Definition settled (s : Main) (st : Step) : Prop :=
  let s' := fst st in
  match snd st with
  | inr _ => same_store s s'
  | inl (Failure msg) =>
      same_store s s'
      /\ voiceStreamingActive s' = false
      /\ last (trace s') = Some (Send (ERROR msg))
      /\ Str.truthy msg = true
  | inl (Success question answer usedModel requestId) =>
      voiceContext s' = voiceContext s
      /\ voicePreferredModel s' = voicePreferredModel s
      /\ voiceHistoryEnabled s' = voiceHistoryEnabled s
      /\ voiceStreamingActive s' = false
      /\ Str.truthy answer = true
      /\ last (trace s') = Some (Send (RESULT question answer usedModel requestId))
      /\ exists now,
           voiceHistory s'
           = if voiceHistoryEnabled s
             then push_turn (mkTurn question answer now) (voiceHistory s)
             else voiceHistory s
  end.

(** The locals of a request once its question is known. *)
Definition gen_of (started : Z) (question rnd : string) (s : Main) : Gen :=
  mkGen question (promptBase s question) (Str.of_Z started +:+ "-" +:+ rnd).

(** [args?.buffer] *)
Definition buffer_of (args : option VoiceArgs) : option (list Byte.byte) :=
  match args with
  | Some ar => buffer ar
  | None => None
  end.

(** The HTTP requests of a trace. *)
Definition is_network (e : Effect) : bool :=
  match e with
  | PostTranscribe _ _ | PostGenerate _ _ => true
  | _ => false
  end.

Definition network (tr : list Effect) : list Effect := List.filter is_network tr.

(** The cumulative text of a partial event of request [rid]. *)
Definition partial_answer (rid : string) (e : Effect) : option string :=
  match e with
  | Send (PARTIAL r _ answer _) => if String.eqb r rid then Some answer else None
  | _ => None
  end.

Definition partial_delta (rid : string) (e : Effect) : option string :=
  match e with
  | Send (PARTIAL r delta _ _) => if String.eqb r rid then Some delta else None
  | _ => None
  end.

Definition answers (rid : string) (tr : list Effect) : list string :=
  omap (partial_answer rid) tr.

(** Every text extends the one before it. *)
Fixpoint growing (texts : list string) : bool :=
  match texts with
  | x :: ((y :: _) as rest) => String.prefix x y && growing rest
  | _ => true
  end.

(** The texts reached by adding the deltas one by one to [sofar]. *)
Fixpoint running (sofar : string) (ds : list string) : list string :=
  match ds with
  | [] => []
  | d :: more => (sofar +:+ d) :: running (sofar +:+ d) more
  end.

(** The handler is inside the generation loop. *)
Definition in_generation (p : Pending) : bool :=
  match p with
  | AwaitTranscribe _ _ => false
  | AwaitFetch _ _ _ | AwaitRead _ _ _ _ => true
  end.

(** While the handler is inside the loop, the flag is set. *)
Definition guarded (st : Step) : Prop :=
  match snd st with
  | inr p => in_generation p = true -> voiceStreamingActive (fst st) = true
  | inl _ => True
  end.

(** A request with everything its environment answers. *)
Record Request := mkRequest {
  r_args : option VoiceArgs;
  r_entry : Entry;
  r_replies : list Reply
}.

(** The question and answer of a request that succeeded. *)
Definition exchange (x : Outcome + Pending) : option (string * string) :=
  match x with
  | inl (Success question answer _ _) => Some (question, answer)
  | _ => None
  end.

Definition turn_exchange (t : VoiceTurn) : string * string := (q t, a t).

Section Drivers.

Variable JSON_parse : string -> option StreamLine.

(** What the attempts of a plan leave in the trace. *)
Definition plan_trace (g : Gen) (plan : list (string * Attempt)) : list Effect :=
  flat_map (attempt_trace JSON_parse g) plan.

(** The requests handled in sequence, each one to the end of its
    replies before the next is submitted. *)
Fixpoint serve (requests : list Request) (s : Main) : Main * list (Outcome + Pending) :=
  match requests with
  | [] => (s, [])
  | r :: more =>
      let st := handle JSON_parse (r_args r) (r_entry r) (r_replies r) s in
      let rest := serve more (fst st) in
      (fst rest, snd st :: snd rest)
  end.

End Drivers.

(** ** Sample requests *)

Module Scenario.

(** One byte of audio, no model, no language. *)
Definition args : option VoiceArgs := Some (mkArgs (Some [x00]) None None).

(** An entry at time [t] with a working file system. *)
Definition entry (t : Z) : Entry := mkEntry t None PrepOk.

(** The transcription service heard [text]. *)
Definition heard (text : string) : Reply :=
  Transcribed (SttResolves (Some (mkStt text EmptyString EmptyString))) "k3x9qa".

(** A request at time [t] answered "ab" by the first candidate. *)
Definition request (t : Z) : Request :=
  mkRequest args (entry t)
    (heard "hi" :: replies_of (Completes [Sample.stream_ab] (t + 1))).

Definition requests (n : nat) : list Request :=
  map (fun i => request (Z.of_nat i * 10)) (seq 1 n).

(** A request whose first candidate has sent the delta "a". *)
Definition streaming : Step :=
  handle Sample.parse args (entry 1000)
    [heard "hi"; Fetched (Responded true 200 true);
     ReadResult (Chunk (Sample.response_line "a" +:+ Str.nl))]
    initial.

Definition rid : string := "1000-k3x9qa".

Definition gen : Gen :=
  mkGen "hi" ("Question: hi" +:+ Str.nl +:+ Str.nl +:+ "Answer:") rid.

Definition pending : Pending :=
  AwaitRead gen "phi3:latest" ["mistral:latest"; "llama3"; "gemma3:12b-it-qat"] "a".

(** The rest of that stream. *)
Definition remainder : list Reply :=
  [ReadResult (Chunk (Sample.response_line "b" +:+ Str.nl
                        +:+ Sample.done_line +:+ Str.nl));
   ReadResult (Done 2000)].

End Scenario.

(** ** Vocabulary of the further properties *)

(** What [SET_MODEL] returns: [{ success: true, model }] or
    [{ success: false, error: 'Invalid model' }]. *)
Inductive ModelReply :=
| ModelSet (model : string)
| ModelInvalid.

Definition SET_MODEL_reply (m : string) : ModelReply :=
  if (0 <? String.length (Str.trim m))%nat then ModelSet (Str.trim m) else ModelInvalid.

(** The preferred model is absent, or it is not empty and has no white
    space around it. *)
Definition preferred_ok (s : Main) : Prop :=
  match voicePreferredModel s with
  | None => True
  | Some p => Str.truthy p = true /\ Str.trim p = p
  end.

(** A string that is empty or starts with a character that is not a
    space. *)
Definition tight_start (s : string) : Prop :=
  match s with
  | EmptyString => True
  | String c _ => Str.is_space c = false
  end.

(** No character of the string is a hyphen. *)
Fixpoint dashless (s : string) : bool :=
  match s with
  | EmptyString => true
  | String c rest => negb (Ascii.eqb c "-") && dashless rest
  end.

(** What is true of the store in every state the module reaches. *)
Definition store_ok (s : Main) : Prop :=
  (String.length (voiceContext s) <= 4000)%nat
  /\ (length (voiceHistory s) <= VOICE_HISTORY_MAX_TURNS)%nat
  /\ preferred_ok s.

(** What a step leaves in the trace does not depend on the state it is
    taken in. *)
Definition appends (f : Main -> Step) : Prop :=
  exists added x, forall s, snd (f s) = x /\ trace (fst (f s)) = trace s ++ added.

Section Reachable.

Variable JSON_parse : string -> option StreamLine.

(** The states the main module goes through: it starts in [initial], a
    command is executed, a recording is submitted, or a suspended
    handler, wherever it is, is resumed. *)
Inductive reachable : Main -> Prop :=
| reach_initial : reachable initial
| reach_exec c s : reachable s -> reachable (exec c s)
| reach_invoke args e s : reachable s -> reachable (fst (invoke args e s))
| reach_resume p r s : reachable s -> reachable (fst (resume JSON_parse p r s)).

End Reachable.

(** ** The overlay window *)

(** The window functions of the main module. JavaScript numbers are
    modelled as rationals: the coordinates, sizes and the step are
    integers well below 2^53, halving them is exact in double
    precision, and an integer compares with two thirds of an integer
    as the rationals do.

    The window itself belongs to Electron. What is taken of it: a
    window that is asked to move or to change size does so, keeping
    the minimum size it was created with, and emits ["move"] or
    ["resize"], which the listeners registered by [createWindow]
    answer before the next call of the module; a request for the
    bounds the window has does nothing. *)
Module Window.
Import QArith Qround Qminmax.
Local Open Scope Q_scope.

Record Bounds := mkBounds { b_x : Q; b_y : Q; b_width : Q; b_height : Q }.

(** What the window functions read or write of a [BrowserWindow]. The
    calls of [showMainWindow] that set always-on-top, the workspaces,
    the content protection and [showInactive] write properties that
    no function here reads; they have no field. *)
Record BrowserWindow := mkWindow {
  isDestroyed : bool;
  getBounds : Bounds;
  getOpacity : Q;
  ignoresMouse : bool
}.

(** The window at the bounds [b]. *)
Definition with_bounds (b : Bounds) (w : BrowserWindow) : BrowserWindow :=
  {| isDestroyed := isDestroyed w; getBounds := b;
     getOpacity := getOpacity w; ignoresMouse := ignoresMouse w |}.

Definition setOpacity (o : Q) (w : BrowserWindow) : BrowserWindow :=
  {| isDestroyed := isDestroyed w; getBounds := getBounds w;
     getOpacity := o; ignoresMouse := ignoresMouse w |}.

Definition setIgnoreMouseEvents (b : bool) (w : BrowserWindow) : BrowserWindow :=
  {| isDestroyed := isDestroyed w; getBounds := getBounds w;
     getOpacity := getOpacity w; ignoresMouse := b |}.

(** The window management properties of [state]; a pair is a
    [{ x, y }] or a [{ width, height }] object, [None] is [null]. *)
Record State := mkState {
  mainWindow : option BrowserWindow;
  isWindowVisible : bool;
  windowPosition : option (Q * Q);
  windowSize : option (Q * Q);
  screenWidth : Q;
  screenHeight : Q;
  step : Q;
  currentX : Q;
  currentY : Q
}.

(** The state the module starts in. *)
Definition initial : State :=
  {| mainWindow := None; isWindowVisible := false;
     windowPosition := None; windowSize := None;
     screenWidth := 0; screenHeight := 0; step := 0;
     currentX := 0; currentY := 0 |}.

Definition set_window (w : option BrowserWindow) (s : State) : State :=
  {| mainWindow := w; isWindowVisible := isWindowVisible s;
     windowPosition := windowPosition s; windowSize := windowSize s;
     screenWidth := screenWidth s; screenHeight := screenHeight s;
     step := step s; currentX := currentX s; currentY := currentY s |}.

Definition set_visible (b : bool) (s : State) : State :=
  {| mainWindow := mainWindow s; isWindowVisible := b;
     windowPosition := windowPosition s; windowSize := windowSize s;
     screenWidth := screenWidth s; screenHeight := screenHeight s;
     step := step s; currentX := currentX s; currentY := currentY s |}.

Definition set_position (p : option (Q * Q)) (s : State) : State :=
  {| mainWindow := mainWindow s; isWindowVisible := isWindowVisible s;
     windowPosition := p; windowSize := windowSize s;
     screenWidth := screenWidth s; screenHeight := screenHeight s;
     step := step s; currentX := currentX s; currentY := currentY s |}.

Definition set_size (p : option (Q * Q)) (s : State) : State :=
  {| mainWindow := mainWindow s; isWindowVisible := isWindowVisible s;
     windowPosition := windowPosition s; windowSize := p;
     screenWidth := screenWidth s; screenHeight := screenHeight s;
     step := step s; currentX := currentX s; currentY := currentY s |}.

Definition set_x (x : Q) (s : State) : State :=
  {| mainWindow := mainWindow s; isWindowVisible := isWindowVisible s;
     windowPosition := windowPosition s; windowSize := windowSize s;
     screenWidth := screenWidth s; screenHeight := screenHeight s;
     step := step s; currentX := x; currentY := currentY s |}.

Definition set_y (y : Q) (s : State) : State :=
  {| mainWindow := mainWindow s; isWindowVisible := isWindowVisible s;
     windowPosition := windowPosition s; windowSize := windowSize s;
     screenWidth := screenWidth s; screenHeight := screenHeight s;
     step := step s; currentX := currentX s; currentY := y |}.

(** A call either returns or throws; the state is the one it leaves
    behind. A member access on [null] and a method of a destroyed
    window throw a [TypeError]. *)
Inductive Result :=
| Returns (s : State)
| Throws (s : State).

Definition state_of (r : Result) : State :=
  match r with
  | Returns s => s
  | Throws s => s
  end.

(** [Math.round]: the nearest integer, a half going up. *)
Definition round (x : Q) : Z := Qfloor (x + (1 # 2)).

Definition handleWindowMove (s : State) : State :=
  match mainWindow s with
  | None => s
  | Some w =>
      let bounds := getBounds w in
      set_y (b_y bounds)
        (set_x (b_x bounds)
           (set_position (Some (b_x bounds, b_y bounds)) s))
  end.

Definition handleWindowResize (s : State) : State :=
  match mainWindow s with
  | None => s
  | Some w =>
      let bounds := getBounds w in
      set_size (Some (b_width bounds, b_height bounds)) s
  end.

Definition handleWindowClosed (s : State) : State :=
  set_size None (set_position None (set_visible false (set_window None s))).

(** [minWidth] and [minHeight] of the window settings. *)
Definition minWidth : Q := 750.
Definition minHeight : Q := 550.

Definition same_position (b : Bounds) (w : BrowserWindow) : bool :=
  Qeq_bool (b_x b) (b_x (getBounds w)) && Qeq_bool (b_y b) (b_y (getBounds w)).

Definition same_size (b : Bounds) (w : BrowserWindow) : bool :=
  Qeq_bool (b_width b) (b_width (getBounds w))
  && Qeq_bool (b_height b) (b_height (getBounds w)).

(** The window [w] of [s] goes to the bounds [b]; the ["move"]
    listener runs when the position is another one, the ["resize"]
    listener when the size is. *)
Definition place (b : Bounds) (w : BrowserWindow) (s : State) : State :=
  let s := set_window (Some (with_bounds b w)) s in
  let s := if same_position b w then s else handleWindowMove s in
  if same_size b w then s else handleWindowResize s.

(** [state.mainWindow.setPosition(x, y)] *)
Definition setPosition (x y : Z) (w : BrowserWindow) (s : State) : State :=
  place {| b_x := inject_Z x; b_y := inject_Z y;
           b_width := b_width (getBounds w);
           b_height := b_height (getBounds w) |} w s.

(** [state.mainWindow.setBounds(b)]: a size below the minimum snaps to
    the minimum. *)
Definition setBounds (b : Bounds) (w : BrowserWindow) (s : State) : State :=
  if same_position b w && same_size b w then s
  else place {| b_x := b_x b; b_y := b_y b;
                b_width := Qmax minWidth (b_width b);
                b_height := Qmax minHeight (b_height b) |} w s.

(** A call on the window of [s] that leaves its bounds alone. *)
Definition on_window (f : BrowserWindow -> BrowserWindow) (s : State) : State :=
  set_window (option_map f (mainWindow s)) s.

(** [!state.mainWindow?.isDestroyed()]: with no window the optional
    call is [undefined] and its negation is true. *)
Definition not_destroyed (s : State) : bool :=
  match mainWindow s with
  | None => true
  | Some w => negb (isDestroyed w)
  end.

Definition hideMainWindow (s : State) : Result :=
  if not_destroyed s then
    match mainWindow s with
    | None => Throws s
    | Some w =>
        let bounds := getBounds w in
        let s := set_position (Some (b_x bounds, b_y bounds)) s in
        let s := set_size (Some (b_width bounds, b_height bounds)) s in
        let w := setOpacity 0 (setIgnoreMouseEvents true w) in
        Returns (set_visible false (set_window (Some w) s))
    end
  else Returns s.

Definition showMainWindow (s : State) : Result :=
  if not_destroyed s then
    match mainWindow s with
    | None => Throws s
    | Some w =>
        let s :=
          match windowPosition s, windowSize s with
          | Some (x, y), Some (width, height) =>
              setBounds {| b_x := x; b_y := y;
                           b_width := width; b_height := height |} w s
          | _, _ => s
          end in
        let s :=
          on_window
            (fun w => setOpacity 1 (setOpacity 0 (setIgnoreMouseEvents false w))) s in
        Returns (set_visible true s)
    end
  else Returns s.

Definition toggleMainWindow (s : State) : Result :=
  if isWindowVisible s then hideMainWindow s else showMainWindow s.

Definition moveWindowHorizontal (updateFn : Q -> Q) (s : State) : Result :=
  match mainWindow s with
  | None => Returns s
  | Some w =>
      let s := set_x (updateFn (currentX s)) s in
      if isDestroyed w then Throws s
      else Returns (setPosition (round (currentX s)) (round (currentY s)) w s)
  end.

(** [state.windowSize?.width || 0] and the same for the height. *)
Definition width_or_0 (s : State) : Q :=
  match windowSize s with
  | Some (width, _) => width
  | None => 0
  end.

Definition height_or_0 (s : State) : Q :=
  match windowSize s with
  | Some (_, height) => height
  | None => 0
  end.

Definition maxUpLimit (s : State) : Q := (- height_or_0 s * 2) / 3.

Definition maxDownLimit (s : State) : Q := screenHeight s + (height_or_0 s * 2) / 3.

Definition moveWindowVertical (updateFn : Q -> Q) (s : State) : Result :=
  match mainWindow s with
  | None => Returns s
  | Some w =>
      let newY := updateFn (currentY s) in
      if Qle_bool (maxUpLimit s) newY && Qle_bool newY (maxDownLimit s) then
        let s := set_y newY s in
        if isDestroyed w then Throws s
        else Returns (setPosition (round (currentX s)) (round (currentY s)) w s)
      else Returns s
  end.

(** The four functions handed to the shortcuts. *)
Definition moveWindowLeft (s : State) : Result :=
  moveWindowHorizontal (fun x => Qmax (- width_or_0 s / 2) (x - step s)) s.

Definition moveWindowRight (s : State) : Result :=
  moveWindowHorizontal
    (fun x => Qmin (screenWidth s - width_or_0 s / 2) (x + step s)) s.

Definition moveWindowUp (s : State) : Result :=
  moveWindowVertical (fun y => y - step s) s.

Definition moveWindowDown (s : State) : Result :=
  moveWindowVertical (fun y => y + step s) s.

(** [workArea_width] is the width of
    [screen.getPrimaryDisplay().workAreaSize] at the call. *)
Definition setWindowDimensions (workArea_width width height : Q) (s : State)
    : Result :=
  if not_destroyed s then
    match mainWindow s with
    | None => Throws s
    | Some w =>
        let currentX := b_x (getBounds w) in
        let currentY := b_y (getBounds w) in
        let maxWidth := inject_Z (Qfloor (workArea_width * (1 # 2))) in
        Returns (setBounds
                   {| b_x := Qmin currentX (workArea_width - maxWidth);
                      b_y := currentY;
                      b_width := Qmin (width + 32) maxWidth;
                      b_height := inject_Z (Qceiling height) |} w s)
    end
  else Returns s.

(** The limits the horizontal moves clamp to: half of the window may
    leave the screen on either side. *)
Definition minX (s : State) : Q := - width_or_0 s / 2.
Definition maxX (s : State) : Q := screenWidth s - width_or_0 s / 2.


(** A window as [createWindow] leaves it on a 1920 by 1080 work area,
    the same window dimmed, and the same window after it was dragged
    far below the screen. *)
Module Samples.

Definition window : BrowserWindow :=
  {| isDestroyed := false;
     getBounds := {| b_x := 0; b_y := 50; b_width := 800; b_height := 600 |};
     getOpacity := 1; ignoresMouse := false |}.

Definition created : State :=
  {| mainWindow := Some window; isWindowVisible := true;
     windowPosition := Some (0, 50); windowSize := Some (800, 600);
     screenWidth := 1920; screenHeight := 1080; step := 60;
     currentX := 0; currentY := 50 |}.

Definition dimmed : State := set_window (Some (setOpacity (1 # 2) window)) created.

Definition below_window : BrowserWindow :=
  with_bounds {| b_x := 0; b_y := 2000; b_width := 800; b_height := 600 |} window.

Definition below : State :=
  handleWindowMove (set_window (Some below_window) created).

(** A window of odd width at the right clamp: the tracked position is
    the half pixel, the window is at the pixel above. *)
Definition odd_window : BrowserWindow :=
  with_bounds {| b_x := 1520; b_y := 50; b_width := 801; b_height := 600 |} window.

Definition odd : State :=
  {| mainWindow := Some odd_window; isWindowVisible := true;
     windowPosition := Some (1520, 50); windowSize := Some (801, 600);
     screenWidth := 1920; screenHeight := 1080; step := 60;
     currentX := 3039 # 2; currentY := 50 |}.

End Samples.

End Window.

(** ** The voice panel *)

(** The state of the voice panel in the renderer and what its
    listeners do to it. An absent property is [None]. *)
Module Panel.

Record VoiceState := mkState {
  mode : Mode;
  phaseMsg : option string;
  question : option string;
  answer : option string;
  error : option string;
  model : option string;
  requestId : option string
}.

(** [{ mode: 'idle' }], the state the panel starts in. *)
Definition idle_state : VoiceState :=
  {| mode := idle; phaseMsg := None; question := None; answer := None;
     error := None; model := None; requestId := None |}.

(** [x || prev] for a string or [undefined]. *)
Definition or_prev (x prev : option string) : option string :=
  match x with
  | Some v => if Str.truthy v then Some v else prev
  | None => prev
  end.

(** [prev.requestId && p.requestId && p.requestId !== prev.requestId] *)
Definition other_request (prev : option string) (p_requestId : string) : bool :=
  match prev with
  | Some r => Str.truthy r && Str.truthy p_requestId && negb (String.eqb p_requestId r)
  | None => false
  end.

Definition onStatus (message : string) (s_question s_requestId : option string)
    (prev : VoiceState) : VoiceState :=
  {| mode := processing;
     phaseMsg := Some message;
     question := or_prev s_question (question prev);
     answer := answer prev;
     error := error prev;
     model := model prev;
     requestId := or_prev s_requestId (requestId prev) |}.

Definition onResult (r_question r_answer r_model r_requestId : string) : VoiceState :=
  {| mode := idle; phaseMsg := None; question := Some r_question;
     answer := Some r_answer; error := None; model := Some r_model;
     requestId := Some r_requestId |}.

Definition onPartial (p_requestId p_answer p_model : string) (prev : VoiceState)
    : VoiceState :=
  if other_request (requestId prev) p_requestId then
    {| mode := processing; phaseMsg := Some "Generating…";
       question := question prev; answer := Some p_answer; error := None;
       model := Some p_model; requestId := Some p_requestId |}
  else
    {| mode := processing; phaseMsg := phaseMsg prev;
       question := question prev; answer := Some p_answer; error := error prev;
       model := Some p_model; requestId := Some p_requestId |}.

Definition onError (err : string) : VoiceState :=
  {| mode := idle; phaseMsg := None; question := None; answer := None;
     error := Some err; model := None; requestId := None |}.

(** The listener is registered once, by an effect without
    dependencies, so the [state.question] it reads is the one of the
    first render, which has none. *)
Definition onAborted : VoiceState :=
  {| mode := idle; phaseMsg := None; question := question idle_state;
     answer := None; error := None; model := None; requestId := None |}.

Definition onReset : VoiceState := idle_state.

(** The recorder's [onstop], up to the submission of the recording. *)
Definition onstop (s : VoiceState) : VoiceState :=
  {| mode := processing; phaseMsg := Some "Uploading audio…";
     question := question s; answer := answer s; error := error s;
     model := model s; requestId := requestId s |}.

(** The panel's side of [abortProcessing]. *)
Definition abortProcessing (s : VoiceState) : VoiceState :=
  match mode s with
  | processing => idle_state
  | _ => s
  end.

(** [str.padStart(2, '0')] *)
Definition padStart2 (str : string) : string :=
  match String.length str with
  | O => "00"
  | S O => "0" +:+ str
  | _ => str
  end.

(** The elapsed time of a recording as the panel prints it; [ms] is a
    difference of two [Date.now()] values, an integer. The remainder
    has the sign of the dividend, as [%] has. *)
Definition formatTime (ms : Z) : string :=
  let s := ms / 1000 in
  let m := s / 60 in
  let sec := Z.rem s 60 in
  if (0 <? m)%Z then Str.of_Z m +:+ ":" +:+ padStart2 (Str.of_Z sec)
  else Str.of_Z sec +:+ "s".

(** A call of one of the listeners of the voice channels. *)
Inductive Notice :=
| Status (message : string) (question requestId : option string)
| Result (question answer model requestId : string)
| Partial (requestId answer model : string)
| Error (err : string).

Definition listen (st : VoiceState) (n : Notice) : VoiceState :=
  match n with
  | Status message question requestId => onStatus message question requestId st
  | Result question answer model requestId => onResult question answer model requestId
  | Partial requestId answer model => onPartial requestId answer model st
  | Error err => onError err
  end.

(** What an effect of the main process is for the panel: an event on
    one of the four voice channels calls the listener registered for
    that channel with its payload. *)
Definition notice_of (e : Effect) : option Notice :=
  match e with
  | Send (STATUS _ message question requestId) => Some (Status message question requestId)
  | Send (RESULT question answer model requestId) =>
      Some (Result question answer model requestId)
  | Send (PARTIAL requestId _ answer model) => Some (Partial requestId answer model)
  | Send (ERROR msg) => Some (Error msg)
  | _ => None
  end.

(** The panel after the events of a trace, oldest first. *)
Definition replay (tr : list Effect) (st : VoiceState) : VoiceState :=
  fold_left listen (omap notice_of tr) st.

(** What the panel shows for a request that returned. *)
Definition shown (o : Outcome) : VoiceState :=
  match o with
  | Success question answer usedModel requestId =>
      {| mode := idle; phaseMsg := None; question := Some question;
         answer := Some answer; error := None; model := Some usedModel;
         requestId := Some requestId |}
  | Failure msg =>
      {| mode := idle; phaseMsg := None; question := None; answer := None;
         error := Some msg; model := None; requestId := None |}
  end.

End Panel.

(** Every character of the string is a decimal digit. *)
Definition is_digit (c : ascii) : bool :=
  ((48 <=? nat_of_ascii c) && (nat_of_ascii c <=? 57))%nat.

Fixpoint digits_only (s : string) : bool :=
  match s with
  | EmptyString => true
  | String c rest => is_digit c && digits_only rest
  end.

(** * Properties *)

(** ** The definitions on small inputs *)

Example strings_on_samples :
  Str.trim "  two words " = "two words"
  /\ Str.trim (Str.nl +:+ " ") = EmptyString
  /\ Str.split_nl ("a" +:+ Str.nl +:+ Str.nl +:+ "b") = ["a"; EmptyString; "b"]
  /\ Str.split_nl EmptyString = [EmptyString]
  /\ Str.join ", " ["x"; "y"; "z"] = "x, y, z"
  /\ Str.slice0 3 "abcdef" = "abc"
  /\ Str.of_Z 1712 = "1712".
Proof. repeat split; vm_compute; reflexivity. Qed.

Example candidateModels_on_samples :
  candidateModels None None
  = ["phi3:latest"; "mistral:latest"; "llama3"; "gemma3:12b-it-qat"]
  /\ candidateModels (Some "llama3") (Some "qwen")
     = ["llama3"; "phi3:latest"; "mistral:latest"; "gemma3:12b-it-qat"]
  /\ candidateModels None (Some "qwen")
     = ["qwen"; "phi3:latest"; "mistral:latest"; "llama3"; "gemma3:12b-it-qat"]
  /\ candidateModels (Some EmptyString) (Some "qwen")
     = ["qwen"; "phi3:latest"; "mistral:latest"; "llama3"; "gemma3:12b-it-qat"].
Proof. repeat split; vm_compute; reflexivity. Qed.

Example historySection_on_samples :
  historySection true [mkTurn "q1" "a1" 1; mkTurn "q2" "a2" 2]
  = "Previous exchanges (context):" +:+ Str.nl
      +:+ "Q: q1" +:+ Str.nl +:+ "A: a1" +:+ Str.nl +:+ Str.nl
      +:+ "Q: q2" +:+ Str.nl +:+ "A: a2" +:+ Str.nl +:+ Str.nl
  /\ select_turns 26 [mkTurn "q1" "a1" 1; mkTurn "q2" "a2" 2; mkTurn "q3" "a3" 3]
     = [mkTurn "q2" "a2" 2; mkTurn "q3" "a3" 3]
  /\ select_turns 25 [mkTurn "q1" "a1" 1; mkTurn "q2" "a2" 2; mkTurn "q3" "a3" 3]
     = [mkTurn "q3" "a3" 3]
  /\ historySection false [mkTurn "q1" "a1" 1] = EmptyString.
Proof. repeat split; vm_compute; reflexivity. Qed.

Example push_turn_on_samples :
  push_turn (mkTurn "q" "a" 16) (map (fun i => mkTurn "q" "a" (Z.of_nat i)) (seq 1 15))
  = map (fun i => mkTurn "q" "a" (Z.of_nat i)) (seq 2 15)
  /\ push_turn (mkTurn "q" "a" 2) [mkTurn "q" "a" 1] = [mkTurn "q" "a" 1; mkTurn "q" "a" 2].
Proof. split; vm_compute; reflexivity. Qed.

(** ** Candidate models *)

Lemma includes_In (x : string) (l : list string) :
  includes x l = true <-> In x l.
Proof.
  unfold includes. rewrite existsb_exists. split.
  - intros (y & Hy & Heq). apply String.eqb_eq in Heq. now subst.
  - intros H. exists x. split; [assumption | apply String.eqb_refl].
Qed.

Lemma filter_comm {A} (f g : A -> bool) (l : list A) :
  List.filter f (List.filter g l) = List.filter g (List.filter f l).
Proof.
  induction l as [|x l IH]; simpl; [reflexivity|].
  destruct (f x) eqn:Hf, (g x) eqn:Hg; simpl; rewrite ?Hf, ?Hg, IH; reflexivity.
Qed.

Lemma filter_absent (x : string) (l : list string) :
  ~ In x l -> List.filter (fun y => negb (String.eqb x y)) l = l.
Proof.
  induction l as [|y l IH]; simpl; intros Hx; [reflexivity|].
  destruct (String.eqb_spec x y) as [->|Hne]; simpl.
  - exfalso. apply Hx. now left.
  - f_equal. apply IH. intros H. apply Hx. now right.
Qed.

Lemma first_seen_In (x : string) (l : list string) :
  In x (first_seen l) <-> In x l.
Proof.
  induction l as [|y l IH]; simpl; [tauto|].
  rewrite filter_In, IH.
  destruct (String.eqb_spec y x) as [->|Hne]; simpl; intuition congruence.
Qed.

Lemma first_seen_filter (f : string -> bool) (l : list string) :
  List.filter f (first_seen l) = first_seen (List.filter f l).
Proof.
  induction l as [|x l IH]; simpl; [reflexivity|].
  destruct (f x) eqn:Hf; simpl.
  - now rewrite filter_comm, IH.
  - rewrite filter_comm, IH. apply filter_absent.
    rewrite first_seen_In, filter_In. intros [_ H]. congruence.
Qed.

Lemma first_seen_repeated (x : string) (l1 l2 : list string) :
  In x l1 -> first_seen (l1 ++ x :: l2) = first_seen (l1 ++ l2).
Proof.
  induction l1 as [|y l1 IH]; simpl; [tauto|].
  intros [->|Hin].
  - f_equal. rewrite !first_seen_filter. f_equal.
    rewrite !List.filter_app. simpl. now rewrite String.eqb_refl.
  - now rewrite IH.
Qed.

Lemma first_seen_NoDup (l : list string) : NoDup (first_seen l).
Proof.
  induction l as [|x l IH]; simpl; [constructor|].
  constructor.
  - rewrite list_elem_of_In, filter_In, String.eqb_refl. intros [_ H]. discriminate.
  - apply NoDup_ListNoDup, List.NoDup_filter, NoDup_ListNoDup, IH.
Qed.

Lemma first_seen_fixed (l : list string) : NoDup l -> first_seen l = l.
Proof.
  induction 1 as [|x l Hx Hl IH]; simpl; [reflexivity|].
  rewrite IH. f_equal. apply filter_absent. now rewrite <- list_elem_of_In.
Qed.

Lemma push_loop_first_seen (l acc : list string) :
  NoDup acc -> fold_left push_if_new l acc = first_seen (acc ++ l).
Proof.
  revert acc. induction l as [|x l IH]; intros acc Hacc; simpl.
  - now rewrite app_nil_r, first_seen_fixed.
  - unfold push_if_new at 2. destruct (includes x acc) eqn:Hinc.
    + apply includes_In in Hinc. now rewrite IH, first_seen_repeated.
    + rewrite IH, <- app_assoc; [reflexivity|].
      apply NoDup_app. split; [assumption|]. split; [|apply NoDup_singleton].
      intros y Hy Hyx. apply list_elem_of_singleton in Hyx. subst y.
      apply list_elem_of_In, includes_In in Hy. congruence.
Qed.

Lemma defaultModels_NoDup : NoDup defaultModels.
Proof.
  unfold defaultModels. repeat constructor; rewrite list_elem_of_In; simpl; intuition discriminate.
Qed.

Lemma leading_NoDup (override preferred : option string) :
  NoDup (leading override preferred).
Proof.
  unfold leading. destruct (given override); [apply NoDup_singleton|].
  destruct (given preferred); [apply NoDup_singleton | constructor].
Qed.

Lemma candidateModels_shape (override preferred : option string) :
  candidateModels override preferred
  = leading override preferred
      ++ List.filter (fun dm => negb (includes dm (leading override preferred)))
           defaultModels.
Proof.
  unfold candidateModels. fold (leading override preferred).
  rewrite push_loop_first_seen by apply leading_NoDup.
  assert (Hone : forall m, first_seen ([m] ++ defaultModels)
            = [m] ++ List.filter (fun dm => negb (includes dm [m])) defaultModels).
  { intros m. cbn [app first_seen]. rewrite first_seen_fixed by apply defaultModels_NoDup.
    f_equal. apply List.filter_ext. intros y. unfold includes. cbn [existsb].
    now rewrite Bool.orb_false_r, String.eqb_sym. }
  unfold leading.
  destruct (given override) as [m|]; [apply Hone|].
  destruct (given preferred) as [m|]; [apply Hone|].
  reflexivity.
Qed.

(** C10. The candidate list is the list made of the leading model (the
    per-request override when given, otherwise the preferred model when
    set) followed by the default models, with repetitions removed at
    their later occurrences; it has no repetition, it starts with the
    leading model, and the default models keep their order. *)
Theorem candidateModels_first_seen (override preferred : option string) :
  candidateModels override preferred
    = first_seen (leading override preferred ++ defaultModels)
  /\ NoDup (candidateModels override preferred)
  /\ candidateModels override preferred
    = leading override preferred
        ++ List.filter (fun dm => negb (includes dm (leading override preferred)))
             defaultModels
  /\ (forall c m, leading (Some (String c m)) preferred = [String c m])
  /\ (forall c p, leading None (Some (String c p)) = [String c p]
                /\ leading (Some EmptyString) (Some (String c p)) = [String c p])
  /\ candidateModels None None = defaultModels
  /\ candidateModels (Some EmptyString) (Some EmptyString) = defaultModels.
Proof.
  assert (Heq : candidateModels override preferred
                = first_seen (leading override preferred ++ defaultModels)).
  { unfold candidateModels. fold (leading override preferred).
    apply push_loop_first_seen, leading_NoDup. }
  split; [exact Heq|]. split; [rewrite Heq; apply first_seen_NoDup|].
  split.
  - rewrite Heq.
    assert (Hone : forall m, first_seen ([m] ++ defaultModels)
              = [m] ++ List.filter (fun dm => negb (includes dm [m])) defaultModels).
    { intros m. cbn [app first_seen]. rewrite first_seen_fixed by apply defaultModels_NoDup.
      f_equal. apply List.filter_ext. intros y. unfold includes. cbn [existsb].
      now rewrite Bool.orb_false_r, String.eqb_sym. }
    unfold leading.
    destruct (given override) as [m|]; [apply Hone|].
    destruct (given preferred) as [m|]; [apply Hone|].
    reflexivity.
  - repeat split; reflexivity.
Qed.

(** ** Strings: length and append *)

Lemma str_app_cons (c : ascii) (s1 s2 : string) :
  String c s1 +:+ s2 = String c (s1 +:+ s2).
Proof. reflexivity. Qed.

Lemma str_length_app (s1 s2 : string) :
  String.length (s1 +:+ s2) = (String.length s1 + String.length s2)%nat.
Proof.
  induction s1 as [|c s1 IH]; [reflexivity|].
  rewrite str_app_cons. simpl. now rewrite IH.
Qed.

Lemma str_app_assoc (s1 s2 s3 : string) :
  (s1 +:+ s2) +:+ s3 = s1 +:+ s2 +:+ s3.
Proof.
  induction s1 as [|c s1 IH]; [reflexivity|].
  rewrite !str_app_cons. now rewrite IH.
Qed.

Lemma str_app_empty_r (s : string) : s +:+ EmptyString = s.
Proof.
  induction s as [|c s IH]; [reflexivity|].
  rewrite str_app_cons. now rewrite IH.
Qed.

Lemma truthy_length (s : string) :
  Str.truthy s = true <-> (0 < String.length s)%nat.
Proof. destruct s; simpl; split; intros; try lia; congruence. Qed.

(** ** History store *)

Lemma slice_last_length {A} (n : nat) (l : list A) :
  length (slice_last n l) = Nat.min (length l) n.
Proof. unfold slice_last. rewrite length_drop. lia. Qed.

Lemma slice_last_short {A} (n : nat) (l : list A) :
  (length l <= n)%nat -> slice_last n l = l.
Proof.
  intros H. unfold slice_last. replace (length l - n)%nat with 0%nat by lia.
  apply drop_0.
Qed.

Lemma slice_last_suffix {A} (n : nat) (l : list A) : slice_last n l `suffix_of` l.
Proof. apply suffix_drop. Qed.

Lemma slice_last_push {A} (n : nat) (l : list A) (x : A) :
  (1 <= n)%nat -> slice_last n (slice_last n l ++ [x]) = slice_last n (l ++ [x]).
Proof.
  intros Hn. unfold slice_last.
  rewrite !length_app, length_drop. simpl.
  destruct (Nat.le_gt_cases (length l) n) as [Hle|Hgt].
  - replace (length l - n)%nat with 0%nat by lia. rewrite drop_0.
    f_equal. lia.
  - rewrite (drop_app_le l) by lia.
    rewrite drop_app_le by (rewrite length_drop; lia).
    rewrite drop_drop. f_equal. f_equal. lia.
Qed.

Lemma push_turn_slice (t : VoiceTurn) (h : list VoiceTurn) :
  push_turn t h = slice_last VOICE_HISTORY_MAX_TURNS (h ++ [t]).
Proof.
  unfold push_turn. cbv zeta.
  destruct (Nat.ltb_spec VOICE_HISTORY_MAX_TURNS (length (h ++ [t]))) as [H|H].
  - reflexivity.
  - symmetry. now apply slice_last_short.
Qed.

Lemma push_turn_bound (t : VoiceTurn) (h : list VoiceTurn) :
  (length (push_turn t h) <= VOICE_HISTORY_MAX_TURNS)%nat.
Proof. rewrite push_turn_slice, slice_last_length. lia. Qed.

Lemma push_turn_last (t : VoiceTurn) (h : list VoiceTurn) :
  last (push_turn t h) = Some t.
Proof.
  rewrite push_turn_slice. unfold slice_last.
  rewrite length_app. simpl.
  rewrite drop_app_le by (unfold VOICE_HISTORY_MAX_TURNS; lia).
  apply last_snoc.
Qed.

Lemma push_all_slice (turns h : list VoiceTurn) :
  (length h <= VOICE_HISTORY_MAX_TURNS)%nat ->
  push_all turns h = slice_last VOICE_HISTORY_MAX_TURNS (h ++ turns).
Proof.
  revert h. induction turns as [|t turns IH]; intros h Hh; simpl.
  - rewrite app_nil_r. symmetry. now apply slice_last_short.
  - unfold push_all in *. simpl. rewrite IH by apply push_turn_bound.
    rewrite push_turn_slice.
    replace (h ++ t :: turns) with ((h ++ [t]) ++ turns) by now rewrite <- app_assoc.
    generalize (h ++ [t]). intros l. clear.
    induction turns as [|u turns IH] using rev_ind.
    + rewrite !app_nil_r. unfold slice_last at 1.
      rewrite slice_last_length.
      now replace (Nat.min (length l) VOICE_HISTORY_MAX_TURNS - VOICE_HISTORY_MAX_TURNS)%nat
        with 0%nat by lia.
    + rewrite !app_assoc.
      rewrite <- (slice_last_push _ (l ++ turns)) by (unfold VOICE_HISTORY_MAX_TURNS; lia).
      rewrite <- IH.
      now rewrite slice_last_push by (unfold VOICE_HISTORY_MAX_TURNS; lia).
Qed.

(** ** The budgeted history section *)

Lemma chars_app (l1 l2 : list VoiceTurn) : chars (l1 ++ l2) = (chars l1 + chars l2)%nat.
Proof. unfold chars. now rewrite map_app, list_sum_app. Qed.

Lemma chars_rev (l : list VoiceTurn) : chars (rev l) = chars l.
Proof.
  induction l as [|t l IH]; [reflexivity|].
  simpl rev. rewrite chars_app, IH. unfold chars. simpl. lia.
Qed.

Lemma snippet_block (t : VoiceTurn) : snippet t = block t +:+ Str.nl +:+ Str.nl.
Proof. unfold snippet, block. now rewrite !str_app_assoc. Qed.

Lemma snippet_length (t : VoiceTurn) :
  String.length (snippet t) = (String.length (q t) + String.length (a t) + 9)%nat.
Proof. unfold snippet. rewrite !str_length_app. simpl. lia. Qed.

(** The loop stops at the first turn that does not fit: what it has
    selected is a prefix of the turns it walks, within the budget, and
    the turn after the prefix, when there is one, goes over the budget. *)
Lemma select_loop_prefix (limit : nat) (walk selected : list VoiceTurn) (total : nat) :
  exists taken left_out,
    walk = taken ++ left_out
    /\ select_loop limit walk selected total = selected ++ taken
    /\ (total + chars taken <= limit \/ taken = [])%nat
    /\ match left_out with
       | [] => True
       | t :: _ => (limit < total + chars taken + String.length (snippet t))%nat
       end.
Proof.
  revert selected total. induction walk as [|t walk IH]; intros selected total.
  - exists [], []. simpl. rewrite app_nil_r. auto.
  - cbn [select_loop]. cbv zeta.
    destruct (Nat.ltb_spec limit (total + String.length (snippet t))) as [Hover|Hfit].
    + exists [], (t :: walk). rewrite app_nil_r.
      split; [reflexivity|]. split; [reflexivity|]. split; [now right|].
      change (chars []) with 0%nat. lia.
    + destruct (IH (selected ++ [t]) (total + String.length (snippet t))%nat)
        as (taken & left_out & Hwalk & Hsel & Hsum & Hnext).
      exists (t :: taken), left_out. subst walk. rewrite Hsel, <- app_assoc.
      assert (Hc : chars (t :: taken) = (String.length (snippet t) + chars taken)%nat)
        by reflexivity.
      split; [reflexivity|]. split; [reflexivity|]. split.
      * left. rewrite Hc. destruct Hsum as [Hsum| ->]; [lia|].
        change (chars []) with 0%nat. lia.
      * destruct left_out; [exact I|]. rewrite Hc. lia.
Qed.

Lemma join_blocks_length (turns : list VoiceTurn) :
  turns <> [] ->
  (String.length (Str.join (Str.nl +:+ Str.nl) (map block turns)) + 2 = chars turns)%nat.
Proof.
  induction turns as [|t turns IH]; [congruence|]. intros _.
  destruct turns as [|u turns].
  - change (chars [t]) with (String.length (snippet t) + 0)%nat.
    change (Str.join (Str.nl +:+ Str.nl) (map block [t])) with (block t).
    rewrite snippet_block, !str_length_app. simpl. lia.
  - change (Str.join (Str.nl +:+ Str.nl) (map block (t :: u :: turns)))
      with (block t +:+ (Str.nl +:+ Str.nl)
              +:+ Str.join (Str.nl +:+ Str.nl) (map block (u :: turns))).
    rewrite !str_length_app.
    change (chars (t :: u :: turns))
      with (String.length (snippet t) + chars (u :: turns))%nat.
    rewrite <- IH by congruence.
    rewrite snippet_block, !str_length_app. simpl. lia.
Qed.

Lemma select_turns_spec (limit : nat) (history : list VoiceTurn) :
  exists older,
    history = older ++ select_turns limit history
    /\ (chars (select_turns limit history) <= limit)%nat
    /\ match last older with
       | None => True
       | Some t =>
           (limit < chars (select_turns limit history) + String.length (snippet t))%nat
       end.
Proof.
  unfold select_turns.
  destruct (select_loop_prefix limit (rev history) [] 0)
    as (taken & left_out & Hwalk & Hsel & Hsum & Hnext).
  rewrite Hsel. cbn [app]. exists (rev left_out).
  split; [|split].
  - rewrite <- rev_app_distr, <- Hwalk. symmetry. apply rev_involutive.
  - rewrite chars_rev. destruct Hsum as [Hsum| ->]; [lia|].
    change (chars []) with 0%nat. lia.
  - rewrite chars_rev. destruct left_out as [|t left_out]; [exact I|].
    cbn [rev]. rewrite last_snoc. lia.
Qed.

Lemma select_turns_zero (history : list VoiceTurn) : select_turns 0 history = [].
Proof.
  unfold select_turns. destruct (rev history) as [|t walk]; [reflexivity|].
  cbn [select_loop]. cbv zeta.
  destruct (Nat.ltb_spec 0 (0 + String.length (snippet t))) as [_|H]; [reflexivity|].
  rewrite snippet_length in H. lia.
Qed.

Lemma select_turns_none_fits (limit : nat) (older : list VoiceTurn) (t : VoiceTurn) :
  (limit < String.length (snippet t))%nat -> select_turns limit (older ++ [t]) = [].
Proof.
  intros H. unfold select_turns. rewrite rev_app_distr. cbn [rev app select_loop]. cbv zeta.
  destruct (Nat.ltb_spec limit (0 + String.length (snippet t))) as [_|H']; [reflexivity|lia].
Qed.

Lemma historySection_selected (limit : nat) (enabled : bool) (history : list VoiceTurn) :
  historySection_with limit enabled history
  = match enabled, select_turns limit history with
    | true, t :: more =>
        history_header +:+ Str.join (Str.nl +:+ Str.nl) (map block (t :: more))
          +:+ Str.nl +:+ Str.nl
    | _, _ => EmptyString
    end.
Proof.
  unfold historySection_with. destruct enabled; [|reflexivity]. cbn [andb].
  destruct history as [|t0 history]; [reflexivity|].
  cbn [length Nat.ltb Nat.leb]. cbv zeta.
  destruct (select_turns limit (t0 :: history)); reflexivity.
Qed.

Lemma chars_counted (turns : list VoiceTurn) :
  chars turns
  = list_sum (map (fun t => (String.length (q t) + String.length (a t) + 9)%nat) turns).
Proof.
  unfold chars. f_equal. apply map_ext. intros t. apply snippet_length.
Qed.

Lemma candidateModels_nonempty (override preferred : option string) :
  exists m rest, candidateModels override preferred = m :: rest.
Proof.
  rewrite candidateModels_shape. unfold leading.
  destruct (given override) as [m|]; [now exists m; eexists|].
  destruct (given preferred) as [m|]; [now exists m; eexists|].
  now exists "phi3:latest"; eexists.
Qed.

(** C4. The history section of the prompt is built from the longest run
    of most recent turns whose formatted pairs stay within the budget:
    the kept turns are a suffix of the history in chronological order,
    their pairs count at most the budget, a pair counting the
    characters of its question and answer and nine more, and the
    newest turn left out would have gone over it. They are rendered as
    the header, the blocks [Q: question], line feed, [A: answer] joined
    by a blank line, and a closing blank line, so a section that is
    not empty is as long as the 30 characters of the header and the
    pairs it holds. The section is never longer than the budget plus
    the header, and it is empty for a budget of 0, when the newest turn
    alone does not fit, and when the history is switched off. The
    handler uses the budget of 2500, puts the section between the
    context and the question, and sends that prompt with its
    generation requests. *)
Theorem history_section_budget (limit : nat) (enabled : bool) (history : list VoiceTurn) :
  (exists older,
      history = older ++ select_turns limit history
      /\ (chars (select_turns limit history) <= limit)%nat
      /\ match last older with
         | None => True
         | Some t =>
             (limit < chars (select_turns limit history) + String.length (snippet t))%nat
         end)
  /\ historySection_with limit enabled history
     = match enabled, select_turns limit history with
       | true, t :: more =>
           history_header +:+ Str.join (Str.nl +:+ Str.nl) (map block (t :: more))
             +:+ Str.nl +:+ Str.nl
       | _, _ => EmptyString
       end
  /\ (String.length (historySection_with limit enabled history)
        <= limit + String.length history_header)%nat
  /\ historySection_with 0 enabled history = EmptyString
  /\ (forall older t, history = older ++ [t] ->
        (limit < String.length (snippet t))%nat ->
        historySection_with limit enabled history = EmptyString)
  /\ historySection_with limit false history = EmptyString
  /\ historySection enabled history
     = historySection_with VOICE_HISTORY_CHAR_LIMIT enabled history
  /\ (forall t, snippet t = "Q: " +:+ q t +:+ Str.nl +:+ "A: " +:+ a t +:+ Str.nl +:+ Str.nl)
  /\ (forall turns,
        chars turns
        = list_sum
            (map (fun t => (String.length (q t) + String.length (a t) + 9)%nat) turns))
  /\ historySection_with limit enabled history
     = (if enabled && (0 <? length (select_turns limit history))%nat
        then "Previous exchanges (context):" +:+ Str.nl
               +:+ Str.join (Str.nl +:+ Str.nl)
                     (map (fun t => "Q: " +:+ q t +:+ Str.nl +:+ "A: " +:+ a t)
                        (select_turns limit history))
               +:+ Str.nl +:+ Str.nl
        else EmptyString)
  /\ String.length (historySection_with limit enabled history)
     = (if enabled && (0 <? length (select_turns limit history))%nat
        then 30 + chars (select_turns limit history)
        else 0)%nat
  /\ (forall s question,
        promptBase s question
        = systemPrefix (voiceContext s)
            +:+ historySection_with 2500 (voiceHistoryEnabled s) (voiceHistory s)
            +:+ "Question: " +:+ question +:+ Str.nl +:+ Str.nl +:+ "Answer:")
  /\ (forall ar started data rnd s,
        Str.truthy (pick_transcription data) = true ->
        exists m rest g,
          candidateModels (model ar) (voicePreferredModel s) = m :: rest
          /\ snd (after_transcribe ar started (SttResolves data) rnd s)
             = inr (AwaitFetch g m rest)
          /\ g_prompt g
             = systemPrefix (voiceContext s)
                 +:+ historySection_with 2500 (voiceHistoryEnabled s) (voiceHistory s)
                 +:+ "Question: " +:+ pick_transcription data +:+ Str.nl +:+ Str.nl
                 +:+ "Answer:"
          /\ last (trace (fst (after_transcribe ar started (SttResolves data) rnd s)))
             = Some (PostGenerate m (g_prompt g))).
Proof.
  assert (Hrender : historySection_with limit enabled history
     = (if enabled && (0 <? length (select_turns limit history))%nat
        then "Previous exchanges (context):" +:+ Str.nl
               +:+ Str.join (Str.nl +:+ Str.nl)
                     (map (fun t => "Q: " +:+ q t +:+ Str.nl +:+ "A: " +:+ a t)
                        (select_turns limit history))
               +:+ Str.nl +:+ Str.nl
        else EmptyString)).
  { rewrite historySection_selected. destruct enabled; [|reflexivity].
    now destruct (select_turns limit history). }
  assert (Hlength : String.length (historySection_with limit enabled history)
     = (if enabled && (0 <? length (select_turns limit history))%nat
        then 30 + chars (select_turns limit history)
        else 0)%nat).
  { rewrite historySection_selected. destruct enabled; [|reflexivity].
    destruct (select_turns limit history) as [|t more] eqn:Hsel; [reflexivity|].
    cbn [andb length Nat.ltb Nat.leb].
    rewrite !str_length_app.
    pose proof (join_blocks_length (t :: more) ltac:(congruence)) as Hlen.
    change (String.length history_header) with 30%nat.
    change (String.length Str.nl) with 1%nat. lia. }
  split; [apply select_turns_spec|]. split; [apply historySection_selected|].
  split; [|split; [|split; [|split; [|split; [|split; [|split; [|split; [|split; [|split]]]]]]]]].
  - rewrite Hlength.
    destruct (select_turns_spec limit history) as (older & _ & Hsum & _).
    change (String.length history_header) with 30%nat.
    destruct (enabled && _); lia.
  - rewrite historySection_selected, select_turns_zero. now destruct enabled.
  - intros older t -> Hbig.
    rewrite historySection_selected, select_turns_none_fits by assumption.
    now destruct enabled.
  - now rewrite historySection_selected.
  - reflexivity.
  - reflexivity.
  - apply chars_counted.
  - exact Hrender.
  - exact Hlength.
  - reflexivity.
  - intros ar started data rnd s Ht.
    destruct (candidateModels_nonempty (model ar) (voicePreferredModel s))
      as (m & rest & Hc).
    exists m, rest.
    exists (mkGen (pick_transcription data) (promptBase s (pick_transcription data))
              (Str.of_Z started +:+ "-" +:+ rnd)).
    split; [exact Hc|].
    unfold after_transcribe. rewrite Ht. cbn [negb]. cbv zeta.
    cbn [send effect emit voicePreferredModel]. rewrite Hc. cbn [try_next fst snd].
    split; [reflexivity|]. split; [reflexivity|].
    cbn [effect emit trace set_streaming]. apply last_snoc.
Qed.

(** ** The effect trace *)

Lemma emit_nil (s : Main) : emit [] s = s.
Proof. destruct s. unfold emit. simpl. now rewrite app_nil_r. Qed.

Lemma emit_emit (es1 es2 : list Effect) (s : Main) :
  emit es2 (emit es1 s) = emit (es1 ++ es2) s.
Proof. unfold emit. simpl. now rewrite app_assoc. Qed.

Lemma effect_emit (e : Effect) (es : list Effect) (s : Main) :
  effect e (emit es s) = emit (es ++ [e]) s.
Proof. apply emit_emit. Qed.

Lemma emit_effect (e : Effect) (es : list Effect) (s : Main) :
  emit es (effect e s) = emit (e :: es) s.
Proof. unfold effect. now rewrite emit_emit. Qed.

Lemma set_streaming_emit (b : bool) (es : list Effect) (s : Main) :
  set_streaming b (emit es s) = emit es (set_streaming b s).
Proof. reflexivity. Qed.

(** ** One stream *)

Section StreamLemmas.

Variable JSON_parse : string -> option StreamLine.

Lemma text_onto_app (sofar : string) (ds1 ds2 : list string) :
  text_onto sofar (ds1 ++ ds2) = text_onto (text_onto sofar ds1) ds2.
Proof. apply fold_left_app. Qed.

Lemma partials_app (g : Gen) (m sofar : string) (ds1 ds2 : list string) :
  partials g m sofar (ds1 ++ ds2)
  = partials g m sofar ds1 ++ partials g m (text_onto sofar ds1) ds2.
Proof.
  revert sofar. induction ds1 as [|d ds1 IH]; intros sofar; [reflexivity|].
  cbn [app partials]. now rewrite IH.
Qed.

Lemma on_line_deltas (g : Gen) (m sofar line : string) (s : Main) :
  on_line JSON_parse g m (sofar, s) line
  = (text_onto sofar (deltas_of_line JSON_parse line),
     emit (partials g m sofar (deltas_of_line JSON_parse line)) s).
Proof.
  unfold on_line, deltas_of_line.
  destruct (JSON_parse line) as [json|]; [|now rewrite emit_nil].
  destruct (Str.truthy (response json)); [reflexivity | now rewrite emit_nil].
Qed.

Lemma on_lines_deltas (g : Gen) (m : string) (lines : list string) (sofar : string)
    (s : Main) :
  fold_left (on_line JSON_parse g m) lines (sofar, s)
  = (text_onto sofar (flat_map (deltas_of_line JSON_parse) lines),
     emit (partials g m sofar (flat_map (deltas_of_line JSON_parse) lines)) s).
Proof.
  revert sofar s. induction lines as [|line lines IH]; intros sofar s.
  - cbn [fold_left flat_map partials]. now rewrite emit_nil.
  - cbn [fold_left flat_map]. rewrite on_line_deltas, IH.
    now rewrite emit_emit, partials_app, text_onto_app.
Qed.

Lemma on_chunk_deltas (g : Gen) (m sofar txt : string) (s : Main) :
  on_chunk JSON_parse g m (sofar, s) txt
  = (text_onto sofar (deltas_of_chunk JSON_parse txt),
     emit (partials g m sofar (deltas_of_chunk JSON_parse txt)) s).
Proof. apply on_lines_deltas. Qed.

Lemma run_returned (replies : list Reply) (s : Main) (o : Outcome) :
  run JSON_parse replies (s, inl o) = (s, inl o).
Proof. now destruct replies. Qed.

Lemma run_app (r1 r2 : list Reply) (st : Step) :
  run JSON_parse (r1 ++ r2) st = run JSON_parse r2 (run JSON_parse r1 st).
Proof.
  revert st. induction r1 as [|r r1 IH]; intros [s [o|p]]; try reflexivity.
  - cbn [app run]. now rewrite run_returned.
  - cbn [app run]. apply IH.
Qed.

(** The chunks of a stream read one after the other. *)
Lemma run_chunks (g : Gen) (m : string) (rest : list string) (chunks : list string)
    (sofar : string) (s : Main) :
  run JSON_parse (map (fun c => ReadResult (Chunk c)) chunks)
    (s, inr (AwaitRead g m rest sofar))
  = (emit (partials g m sofar (deltas JSON_parse chunks)) s,
     inr (AwaitRead g m rest (text_onto sofar (deltas JSON_parse chunks)))).
Proof.
  revert sofar s. induction chunks as [|c chunks IH]; intros sofar s.
  - cbn. now rewrite emit_nil.
  - cbn [map run resume]. rewrite on_chunk_deltas. cbn [fst snd].
    rewrite IH, emit_emit.
    unfold deltas. cbn [flat_map].
    now rewrite partials_app, text_onto_app.
Qed.

End StreamLemmas.

(** ** The fallback loop *)

Section Fallback.

Variable JSON_parse : string -> option StreamLine.

Lemma run_attempt_fails (g : Gen) (m : string) (rest : list string) (a : Attempt)
    (s : Main) :
  failing a = true ->
  run JSON_parse (replies_of a) (s, inr (AwaitFetch g m rest))
  = try_next g rest
      (emit (partials g m EmptyString (deltas JSON_parse (chunks_of a))) s).
Proof.
  destruct a as [msg|status has_body|status|chunks msg|chunks now]; intros Hfail;
    try discriminate.
  - cbn. now rewrite emit_nil.
  - cbn. now rewrite emit_nil.
  - cbn. now rewrite emit_nil.
  - cbn [replies_of chunks_of run resume negb orb].
    rewrite run_app, run_chunks. reflexivity.
Qed.

Lemma run_attempt_completes (g : Gen) (m : string) (rest chunks : list string)
    (now : Z) (s : Main) :
  run JSON_parse (replies_of (Completes chunks now)) (s, inr (AwaitFetch g m rest))
  = complete g m (text_of (deltas JSON_parse chunks)) now
      (emit (partials g m EmptyString (deltas JSON_parse chunks)) s).
Proof.
  cbn [replies_of run resume negb orb].
  rewrite run_app, run_chunks. reflexivity.
Qed.

Lemma complete_returns (g : Gen) (m answer : string) (now : Z) (s : Main) :
  exists s' o, complete g m answer now s = (s', inl o).
Proof.
  unfold complete, fail. destruct (negb (Str.truthy m)); eauto.
Qed.

Lemma run_plan_fails (g : Gen) (plan : list (string * Attempt)) (rest : list string)
    (s : Main) :
  all_failing plan = true ->
  run JSON_parse (plan_replies plan) (try_next g (map fst plan ++ rest) s)
  = try_next g rest (emit (plan_trace JSON_parse g plan) s).
Proof.
  revert s. induction plan as [|[m a] plan IH]; intros s Hall.
  - cbn. now rewrite emit_nil.
  - cbn [all_failing forallb snd] in Hall. apply andb_prop in Hall as [Ha Hall].
    cbn [map fst app try_next plan_replies flat_map snd].
    rewrite run_app, run_attempt_fails by assumption.
    fold (plan_replies plan). rewrite IH by assumption.
    rewrite emit_emit, emit_effect. reflexivity.
Qed.

Lemma run_plan_completes (g : Gen) (plan : list (string * Attempt)) (m : string)
    (chunks : list string) (now : Z) (rest : list string) (more : list Reply)
    (s : Main) :
  all_failing plan = true ->
  run JSON_parse (plan_replies (plan ++ [(m, Completes chunks now)]) ++ more)
    (try_next g (map fst plan ++ m :: rest) s)
  = complete g m (text_of (deltas JSON_parse chunks)) now
      (emit (plan_trace JSON_parse g (plan ++ [(m, Completes chunks now)])) s).
Proof.
  intros Hall. unfold plan_replies, plan_trace. rewrite !flat_map_app.
  cbn [flat_map snd]. rewrite !app_nil_r, <- app_assoc, run_app.
  fold (plan_replies plan). rewrite run_plan_fails by assumption.
  cbn [try_next]. rewrite run_app, run_attempt_completes.
  fold (plan_trace JSON_parse g plan).
  rewrite emit_effect, emit_emit.
  destruct (complete_returns g m (text_of (deltas JSON_parse chunks)) now
              (emit (plan_trace JSON_parse g plan
                       ++ PostGenerate m (g_prompt g)
                            :: partials g m EmptyString (deltas JSON_parse chunks)) s))
    as (s1 & o & Hc).
  unfold attempt_trace. cbn [fst snd chunks_of].
  rewrite Hc. apply run_returned.
Qed.

End Fallback.

Example sample_parse_response :
  Sample.parse (Sample.response_line "a") = Some (mkLine "a" false)
  /\ Sample.parse Sample.done_line = Some (mkLine EmptyString true)
  /\ Sample.parse "{oops" = None
  /\ lines_of Sample.stream_ab
     = [Sample.response_line "a"; Sample.response_line "b"; Sample.done_line].
Proof. repeat split; vm_compute; reflexivity. Qed.

(** ** Leaving the handler *)

Lemma fail_spec (msg : string) (s : Main) :
  fail msg s
  = (set_streaming false (emit [Send (ERROR (message_of msg))] s),
     inl (Failure (message_of msg))).
Proof. reflexivity. Qed.

(** A throw that is answered by the top-level catch ends the run. *)
Ltac caught := rewrite fail_spec, run_returned.

Lemma message_of_truthy (msg : string) : Str.truthy (message_of msg) = true.
Proof. unfold message_of. destruct (Str.truthy msg) eqn:H; [exact H | reflexivity]. Qed.

Lemma message_of_fixed (msg : string) : Str.truthy msg = true -> message_of msg = msg.
Proof. unfold message_of. now intros ->. Qed.

Lemma final_answer_truthy (answer : string) : Str.truthy (final_answer answer) = true.
Proof. unfold final_answer. destruct (Str.truthy answer) eqn:H; [exact H | reflexivity]. Qed.

Lemma complete_spec (g : Gen) (m answer : string) (now : Z) (s : Main) :
  Str.truthy m = true ->
  complete g m answer now s
  = (completed g m answer now s,
     inl (Success (g_question g) (final_answer answer) m (g_requestId g))).
Proof.
  intros Hm. unfold complete, completed. rewrite Hm. cbn [negb].
  destruct s as [ctx active pref hist [|] tr]; reflexivity.
Qed.

Lemma run_plan_all_fail (JSON_parse : string -> option StreamLine) (g : Gen)
    (plan : list (string * Attempt)) (more : list Reply) (s : Main) :
  all_failing plan = true ->
  run JSON_parse (plan_replies plan ++ more) (try_next g (map fst plan) s)
  = (set_streaming false
       (emit (plan_trace JSON_parse g plan ++ [Send (ERROR all_failed)]) s),
     inl (Failure all_failed)).
Proof.
  intros Hall.
  rewrite run_app. rewrite <- (app_nil_r (map fst plan)).
  rewrite run_plan_fails by assumption. cbn [try_next].
  rewrite fail_spec, run_returned.
  change (message_of all_failed) with all_failed.
  unfold set_streaming, emit.
  cbn [voiceContext voicePreferredModel voiceHistory voiceHistoryEnabled trace].
  now rewrite <- app_assoc.
Qed.

(** ** Model fallback *)

Section FallbackTheorem.

Variable JSON_parse : string -> option StreamLine.

Lemma deltas_stream_ab :
  JSON_parse (Sample.response_line "a") = Some (mkLine "a" false) ->
  JSON_parse (Sample.response_line "b") = Some (mkLine "b" false) ->
  JSON_parse Sample.done_line = Some (mkLine EmptyString true) ->
  deltas JSON_parse [Sample.stream_ab] = ["a"; "b"].
Proof.
  intros Ha Hb Hd. unfold deltas, deltas_of_chunk. cbn [flat_map].
  replace (lines_of Sample.stream_ab)
    with [Sample.response_line "a"; Sample.response_line "b"; Sample.done_line]
    by (vm_compute; reflexivity).
  cbn [flat_map]. unfold deltas_of_line. rewrite Ha, Hb, Hd. reflexivity.
Qed.

(** C2. The generation loop tries the candidates in order. An attempt
    that fails (the request is rejected, the status is not a success,
    the body is missing, or reading the stream fails) hands over to the
    next candidate, whose text starts empty; the loop stops at the
    first attempt whose stream ends, and the answer is the text of that
    attempt alone (or the placeholder when it is empty). When every
    attempt fails the request fails with "LLM generation failed for
    all models". With two refused candidates and a third streaming
    "a", "b" and the end marker, the answer is "ab", the model is the
    third candidate, and the only partial events are the two of the
    third candidate. *)
Theorem model_fallback (g : Gen) (s : Main) :
  (forall m rest a,
      failing a = true ->
      run JSON_parse (replies_of a) (s, inr (AwaitFetch g m rest))
      = try_next g rest
          (emit (partials g m EmptyString (deltas JSON_parse (chunks_of a))) s))
  /\ (forall m rest status,
        try_next g (m :: rest) s
        = (effect (PostGenerate m (g_prompt g)) s, inr (AwaitFetch g m rest))
        /\ resume JSON_parse (AwaitFetch g m rest) (Fetched (Responded true status true)) s
           = (s, inr (AwaitRead g m rest EmptyString)))
  /\ (forall plan m chunks now rest more,
        all_failing plan = true ->
        Str.truthy m = true ->
        run JSON_parse (plan_replies (plan ++ [(m, Completes chunks now)]) ++ more)
          (try_next g (map fst plan ++ m :: rest) s)
        = (completed g m (text_of (deltas JSON_parse chunks)) now
             (emit (plan_trace JSON_parse g (plan ++ [(m, Completes chunks now)])) s),
           inl (Success (g_question g)
                  (final_answer (text_of (deltas JSON_parse chunks)))
                  m (g_requestId g))))
  /\ (forall plan more,
        all_failing plan = true ->
        run JSON_parse (plan_replies plan ++ more) (try_next g (map fst plan) s)
        = (set_streaming false
             (emit (plan_trace JSON_parse g plan ++ [Send (ERROR all_failed)]) s),
           inl (Failure all_failed)))
  /\ (forall m1 m2 m3 rest status1 status2 body1 body2 now more,
        JSON_parse (Sample.response_line "a") = Some (mkLine "a" false) ->
        JSON_parse (Sample.response_line "b") = Some (mkLine "b" false) ->
        JSON_parse Sample.done_line = Some (mkLine EmptyString true) ->
        Str.truthy m3 = true ->
        let st :=
          run JSON_parse
            (plan_replies [(m1, Refused status1 body1); (m2, Refused status2 body2);
                           (m3, Completes [Sample.stream_ab] now)] ++ more)
            (try_next g (m1 :: m2 :: m3 :: rest) s) in
        snd st = inl (Success (g_question g) "ab" m3 (g_requestId g))
        /\ trace (fst st)
           = trace s
             ++ [PostGenerate m1 (g_prompt g);
                 PostGenerate m2 (g_prompt g);
                 PostGenerate m3 (g_prompt g);
                 Send (PARTIAL (g_requestId g) "a" "a" m3);
                 Send (PARTIAL (g_requestId g) "b" "ab" m3);
                 Send (RESULT (g_question g) "ab" m3 (g_requestId g))]).
Proof.
  split; [intros; now apply run_attempt_fails|].
  split; [intros; split; reflexivity|].
  split; [|split].
  - intros plan m chunks now rest more Hall Hm.
    rewrite run_plan_completes by assumption. now apply complete_spec.
  - intros plan more Hall.
    rewrite run_app. rewrite <- (app_nil_r (map fst plan)).
    rewrite run_plan_fails by assumption. cbn [try_next].
    rewrite fail_spec, run_returned.
    change (message_of all_failed) with all_failed.
    unfold set_streaming, emit.
    cbn [voiceContext voicePreferredModel voiceHistory voiceHistoryEnabled trace].
    now rewrite <- app_assoc.
  - intros m1 m2 m3 rest status1 status2 body1 body2 now more Ha Hb Hd Hm3 st.
    subst st.
    pose proof (run_plan_completes JSON_parse g
                  [(m1, Refused status1 body1); (m2, Refused status2 body2)]
                  m3 [Sample.stream_ab] now rest more s eq_refl) as Hrun.
    cbn [app map fst] in Hrun. rewrite Hrun.
    rewrite complete_spec by assumption.
    unfold plan_trace, attempt_trace. cbn [flat_map app fst snd chunks_of].
    rewrite deltas_stream_ab by assumption.
    split; [reflexivity|].
    cbn [fst completed trace emit]. rewrite <- app_assoc. reflexivity.
Qed.

End FallbackTheorem.

(** ** What one request does to the module state *)

Lemma same_store_refl (s : Main) : same_store s s.
Proof. repeat split. Qed.

Lemma same_store_emit (es : list Effect) (s s0 : Main) :
  same_store s s0 -> same_store s (emit es s0).
Proof. intros H. exact H. Qed.

Lemma same_store_streaming (b : bool) (s s0 : Main) :
  same_store s s0 -> same_store s (set_streaming b s0).
Proof. intros H. exact H. Qed.

Lemma settled_fail (msg : string) (s s0 : Main) :
  same_store s s0 -> settled s (fail msg s0).
Proof.
  intros H. unfold settled, fail. cbn [fst snd].
  split; [exact H|]. split; [reflexivity|]. split; [|apply message_of_truthy].
  cbn [trace set_streaming send effect emit]. apply last_snoc.
Qed.

Lemma settled_try_next (g : Gen) (ms : list string) (s s0 : Main) :
  same_store s s0 -> settled s (try_next g ms s0).
Proof.
  intros H. destruct ms as [|m rest]; cbn [try_next].
  - now apply settled_fail.
  - exact H.
Qed.

Lemma settled_complete (g : Gen) (m answer : string) (now : Z) (s s0 : Main) :
  same_store s s0 -> settled s (complete g m answer now s0).
Proof.
  intros H. destruct (Str.truthy m) eqn:Hm.
  - rewrite complete_spec by assumption.
    destruct H as (Hc & Hp & He & Hh).
    unfold settled, completed. cbn [fst snd voiceContext voicePreferredModel
      voiceHistoryEnabled voiceStreamingActive voiceHistory trace].
    repeat (split; [first [assumption | reflexivity | apply final_answer_truthy
                          | apply last_snoc]|]).
    exists now. now rewrite He, Hh.
  - unfold complete. rewrite Hm. cbn [negb]. now apply settled_fail.
Qed.

Create HintDb voice.
#[local] Hint Resolve same_store_refl settled_fail settled_try_next settled_complete : voice.

Lemma settled_after_transcribe (ar : VoiceArgs) (started : Z) (r : SttReply)
    (rnd : string) (s : Main) :
  settled s (after_transcribe ar started r rnd s).
Proof.
  unfold after_transcribe. destruct r as [data|].
  - destruct (negb (Str.truthy (pick_transcription data))).
    + auto with voice.
    + apply settled_try_next. repeat split.
  - auto with voice.
Qed.

Lemma settled_invoke (args : option VoiceArgs) (e : Entry) (s : Main) :
  voiceStreamingActive s = false -> settled s (invoke args e s).
Proof.
  intros Hidle. unfold invoke. rewrite Hidle.
  destruct args as [ar|]; [|auto with voice].
  destruct (buffer ar) as [bytes|]; [|auto with voice].
  destruct (fs_error e) as [msg|]; [auto with voice|].
  cbv zeta. destruct (prep e); try (apply settled_fail; repeat split).
  repeat split.
Qed.

Section Settled.

Variable JSON_parse : string -> option StreamLine.

Lemma settled_resume (p : Pending) (r : Reply) (s : Main) :
  settled s (resume JSON_parse p r s).
Proof.
  destruct p as [ar started|g m rest|g m rest answer];
    destruct r as [r rnd|r|r]; try apply same_store_refl.
  - apply settled_after_transcribe.
  - destruct r as [msg|ok status has_body]; cbn [resume].
    + auto with voice.
    + destruct (negb ok || negb has_body).
      * auto with voice.
      * apply same_store_refl.
  - destruct r as [txt|now|msg]; cbn [resume].
    + rewrite on_chunk_deltas. cbv zeta. cbn [fst snd]. repeat split.
    + auto with voice.
    + auto with voice.
Qed.

Lemma settled_trans (s s1 : Main) (st : Step) :
  same_store s s1 -> settled s1 st -> settled s st.
Proof.
  intros (Hc & Hp & He & Hh). unfold settled, same_store.
  rewrite Hc, Hp, He, Hh. trivial.
Qed.

Lemma settled_run (replies : list Reply) (s : Main) (st : Step) :
  settled s st -> settled s (run JSON_parse replies st).
Proof.
  revert st. induction replies as [|r more IH]; intros [s1 [o|p]] Hst;
    try exact Hst.
  cbn [run]. apply IH. apply (settled_trans s s1); [exact Hst|].
  apply settled_resume.
Qed.

Lemma settled_handle (args : option VoiceArgs) (e : Entry) (replies : list Reply)
    (s : Main) :
  voiceStreamingActive s = false -> settled s (handle JSON_parse args e replies s).
Proof. intros H. apply settled_run, settled_invoke, H. Qed.

End Settled.

(** ** History is written on success only *)

(** C7, refuted as stated. With the history switched off, a request
    that ends with the answer "ab" appends nothing. *)
Lemma history_append_counterexample :
  ~ (forall (args : option VoiceArgs) (e : Entry) (replies : list Reply) (s s' : Main)
       (question answer usedModel requestId : string),
        handle Sample.parse args e replies s
        = (s', inl (Success question answer usedModel requestId)) ->
        exists t, voiceHistory s' = push_turn t (voiceHistory s)).
Proof.
  intros H.
  destruct (H Scenario.args (Scenario.entry 1000)
              (Scenario.heard "hi" :: replies_of (Completes [Sample.stream_ab] 2000))
              (set_enabled false initial) _ _ _ _ _ eq_refl) as [t Ht].
  vm_compute in Ht. discriminate.
Qed.

Section HistoryAppend.

Variable JSON_parse : string -> option StreamLine.

Lemma handle_busy (args : option VoiceArgs) (e : Entry) (replies : list Reply)
    (s : Main) :
  voiceStreamingActive s = true ->
  handle JSON_parse args e replies s = (s, inl (Failure busy)).
Proof.
  intros H. unfold handle, invoke. rewrite H. apply run_returned.
Qed.

(** C7, as the handler has it. A request that ends with an answer
    pushes the turn [{q, a, ts}] on the history exactly when the
    history toggle is on, and the answer it ends with is never empty:
    a stream that produced no text ends with the placeholder. A
    request that fails, is rejected, or is still waiting leaves the
    history as it was. *)
Theorem history_append_on_success (args : option VoiceArgs) (e : Entry)
    (replies : list Reply) (s : Main) :
  match handle JSON_parse args e replies s with
  | (s', inl (Success question answer _ _)) =>
      Str.truthy answer = true
      /\ exists now,
           voiceHistory s'
           = if voiceHistoryEnabled s
             then push_turn (mkTurn question answer now) (voiceHistory s)
             else voiceHistory s
  | (s', _) => voiceHistory s' = voiceHistory s
  end
  /\ (forall g m now s0,
        Str.truthy m = true ->
        snd (complete g m EmptyString now s0)
        = inl (Success (g_question g) placeholder m (g_requestId g)))
  /\ (forall g plan m chunks now rest more s0,
        all_failing plan = true ->
        Str.truthy m = true ->
        text_of (deltas JSON_parse chunks) = EmptyString ->
        snd (run JSON_parse (plan_replies (plan ++ [(m, Completes chunks now)]) ++ more)
               (try_next g (map fst plan ++ m :: rest) s0))
        = inl (Success (g_question g) placeholder m (g_requestId g))).
Proof.
  split; [|split].
  - destruct (voiceStreamingActive s) eqn:Hflag.
    + now rewrite handle_busy.
    + pose proof (settled_handle JSON_parse args e replies s Hflag) as H.
      destruct (handle JSON_parse args e replies s) as [s' [[msg|question answer m rid]|p]];
        unfold settled in H; cbn [fst snd] in H.
      * apply H.
      * destruct H as (_ & _ & _ & _ & Ha & _ & Hh). now split.
      * apply H.
  - intros g m now s0 Hm. now rewrite complete_spec.
  - intros g plan m chunks now rest more s0 Hall Hm Hempty.
    rewrite run_plan_completes, complete_spec by assumption.
    now rewrite Hempty.
Qed.

End HistoryAppend.

(** ** Failures end in the top-level catch *)

(** C9, refuted as stated. An empty buffer is not one of the failures:
    a request whose buffer has no bytes is written, transcribed and
    answered like any other, returns its answer, and ends with the
    result event, not with an error event. *)
Lemma empty_buffer_failure_counterexample :
  ~ (forall (args : option VoiceArgs) (e : Entry) (replies : list Reply) (s s' : Main)
       (o : Outcome),
        voiceStreamingActive s = false ->
        buffer_of args = Some [] ->
        handle Sample.parse args e replies s = (s', inl o) ->
        exists msg, o = Failure msg /\ last (trace s') = Some (Send (ERROR msg))).
Proof.
  intros H.
  destruct (H (Some (mkArgs (Some []) None None)) (Scenario.entry 1000)
              (Scenario.heard "hi" :: replies_of (Completes [Sample.stream_ab] 2000))
              initial _ _ eq_refl eq_refl eq_refl) as (msg & Ho & _).
  vm_compute in Ho. discriminate.
Qed.

Lemma candidateModels_length (override preferred : option string) :
  (length (candidateModels override preferred) <= 5)%nat.
Proof.
  rewrite candidateModels_shape, length_app.
  pose proof (List.filter_length_le
                (fun dm => negb (includes dm (leading override preferred))) defaultModels).
  assert (length (leading override preferred) <= 1)%nat.
  { unfold leading. destruct (given override); [simpl; lia|].
    destruct (given preferred); simpl; lia. }
  change (length defaultModels) with 4%nat in *. lia.
Qed.

Section Failures.

Variable JSON_parse : string -> option StreamLine.

(** Whatever the boundary does for each candidate, the loop is left. *)
Lemma generation_returns (g : Gen) (candidates : list string)
    (attempts : list Attempt) (more : list Reply) (s : Main) :
  (length candidates <= length attempts)%nat ->
  exists s' o,
    run JSON_parse (flat_map replies_of attempts ++ more) (try_next g candidates s)
    = (s', inl o).
Proof.
  revert attempts s. induction candidates as [|m rest IH]; intros attempts s Hlen.
  - cbn [try_next]. rewrite fail_spec, run_returned. eauto.
  - destruct attempts as [|a attempts]; [simpl in Hlen; lia|].
    cbn [length] in Hlen. cbn [try_next flat_map].
    rewrite <- app_assoc, run_app.
    destruct (failing a) eqn:Hfail.
    + rewrite run_attempt_fails by assumption. apply IH. lia.
    + destruct a; try discriminate.
      rewrite run_attempt_completes.
      match goal with
      | |- context [complete ?g ?m ?t ?n ?s0] =>
          destruct (complete_returns g m t n s0) as (s1 & o & ->)
      end.
      rewrite run_returned. eauto.
Qed.

(** The accepted handler up to the transcription request. *)
Lemma invoke_accepted (ar : VoiceArgs) (bytes : list Byte.byte) (e : Entry) (s : Main) :
  voiceStreamingActive s = false ->
  buffer ar = Some bytes -> fs_error e = None -> prep e = PrepOk ->
  invoke (Some ar) e s
  = (emit [WriteFile (startTs e) bytes;
           Send (STATUS "stt" "Transcribing…" None None);
           PostTranscribe (startTs e) (language_or_en ar)] s,
     inr (AwaitTranscribe ar (startTs e))).
Proof.
  intros Hidle Hb Hfs Hprep. unfold invoke. rewrite Hidle, Hb, Hfs, Hprep.
  cbv zeta. unfold send, effect. now rewrite !emit_emit.
Qed.

Lemma after_transcribe_question (ar : VoiceArgs) (started : Z)
    (data : option SttData) (rnd : string) (s : Main) :
  Str.truthy (pick_transcription data) = true ->
  after_transcribe ar started (SttResolves data) rnd s
  = try_next (gen_of started (pick_transcription data) rnd s)
      (candidateModels (model ar) (voicePreferredModel s))
      (set_streaming true
         (emit [Send (STATUS "llm" "Generating answer…"
                        (Some (pick_transcription data)) None);
                Send (STATUS "llm" "Generating answer…"
                        (Some (pick_transcription data))
                        (Some (Str.of_Z started +:+ "-" +:+ rnd)))] s)).
Proof.
  intros Ht. unfold after_transcribe. rewrite Ht. cbn [negb]. cbv zeta.
  unfold send, effect. rewrite !emit_emit. reflexivity.
Qed.

(** C9, as the handler has it. Every failure of an accepted request
    ends in the top-level catch: the in-flight flag is cleared, the
    last thing sent is the error event with the message, the message
    is not empty, and the handler returns [{success: false, error}]
    with that message. The failures are a missing buffer, a failed
    write of the recording, a failed preparation of the transcription
    request, a failed or empty transcription, and the failure of every
    candidate model; a buffer that is there is no failure, however
    many bytes it has. The handler returns whenever the transcription
    call and the attempts of all candidates are answered. *)
Theorem failures_are_caught (args : option VoiceArgs) (e : Entry) (s : Main) :
  voiceStreamingActive s = false ->
  (forall replies s' msg,
      handle JSON_parse args e replies s = (s', inl (Failure msg)) ->
      voiceStreamingActive s' = false
      /\ last (trace s') = Some (Send (ERROR msg))
      /\ Str.truthy msg = true
      /\ voiceHistory s' = voiceHistory s)
  /\ (forall replies,
        match args with Some ar => buffer ar | None => None end = None ->
        snd (handle JSON_parse args e replies s)
        = inl (Failure "No audio buffer provided"))
  /\ (forall replies ar bytes msg,
        args = Some ar -> buffer ar = Some bytes -> fs_error e = Some msg ->
        snd (handle JSON_parse args e replies s) = inl (Failure (message_of msg)))
  /\ (forall replies ar bytes,
        args = Some ar -> buffer ar = Some bytes -> fs_error e = None ->
        prep e <> PrepOk ->
        exists msg, snd (handle JSON_parse args e replies s) = inl (Failure msg))
  /\ (forall replies ar bytes rnd,
        args = Some ar -> buffer ar = Some bytes -> fs_error e = None ->
        prep e = PrepOk ->
        snd (handle JSON_parse args e (Transcribed SttRejects rnd :: replies) s)
        = inl (Failure "Transcription failed"))
  /\ (forall replies ar bytes rnd data,
        args = Some ar -> buffer ar = Some bytes -> fs_error e = None ->
        prep e = PrepOk ->
        pick_transcription data = EmptyString ->
        snd (handle JSON_parse args e (Transcribed (SttResolves data) rnd :: replies) s)
        = inl (Failure "Empty transcription result"))
  /\ (forall replies ar bytes rnd data plan,
        args = Some ar -> buffer ar = Some bytes -> fs_error e = None ->
        prep e = PrepOk ->
        Str.truthy (pick_transcription data) = true ->
        map fst plan = candidateModels (model ar) (voicePreferredModel s) ->
        all_failing plan = true ->
        snd (handle JSON_parse args e
               (Transcribed (SttResolves data) rnd :: plan_replies plan ++ replies) s)
        = inl (Failure all_failed))
  /\ (forall r rnd attempts more,
        (5 <= length attempts)%nat ->
        exists s' o,
          handle JSON_parse args e
            (Transcribed r rnd :: flat_map replies_of attempts ++ more) s
          = (s', inl o))
  /\ (forall ar bytes,
        args = Some ar -> buffer ar = Some bytes -> fs_error e = None ->
        prep e = PrepOk ->
        invoke args e s
        = (emit [WriteFile (startTs e) bytes;
                 Send (STATUS "stt" "Transcribing…" None None);
                 PostTranscribe (startTs e) (language_or_en ar)] s,
           inr (AwaitTranscribe ar (startTs e)))).
Proof.
  intros Hidle.
  split.
  { intros replies s' msg Hrun.
    pose proof (settled_handle JSON_parse args e replies s Hidle) as H.
    rewrite Hrun in H. unfold settled in H. cbn [fst snd] in H.
    destruct H as ((_ & _ & _ & Hh) & Hf & Hl & Hm). auto. }
  split.
  { intros replies Hnone. unfold handle, invoke. rewrite Hidle.
    destruct args as [ar|]; [cbv beta iota in Hnone; rewrite Hnone|];
      caught; reflexivity. }
  split.
  { intros replies ar bytes msg -> Hb Hfs. unfold handle, invoke.
    rewrite Hidle, Hb, Hfs. caught. reflexivity. }
  split.
  { intros replies ar bytes -> Hb Hfs Hprep. unfold handle, invoke.
    rewrite Hidle, Hb, Hfs. cbv zeta.
    destruct (prep e); try congruence;
      caught; eauto. }
  split.
  { intros replies ar bytes rnd -> Hb Hfs Hprep. unfold handle.
    rewrite (invoke_accepted ar bytes) by assumption.
    cbn [run resume after_transcribe].
    caught. reflexivity. }
  split.
  { intros replies ar bytes rnd data -> Hb Hfs Hprep Hempty. unfold handle.
    rewrite (invoke_accepted ar bytes) by assumption.
    cbn [run resume after_transcribe]. rewrite Hempty. cbn [Str.truthy negb].
    caught. reflexivity. }
  split.
  { intros replies ar bytes rnd data plan -> Hb Hfs Hprep Htext Hplan Hall.
    unfold handle. rewrite (invoke_accepted ar bytes) by assumption.
    cbn [run resume]. rewrite after_transcribe_question by assumption.
    cbn [voicePreferredModel emit]. rewrite <- Hplan.
    rewrite run_plan_all_fail by assumption. reflexivity. }
  split; [|intros ar bytes -> Hb Hfs Hprep; now apply (invoke_accepted ar bytes)].
  intros r rnd attempts more Hlen.
  pose proof (settled_invoke args e s Hidle) as Hinv.
  unfold handle.
  destruct (invoke args e s) as [s1 [o|p]] eqn:Hi.
  { rewrite run_returned. eauto. }
  assert (Hp : exists ar started, p = AwaitTranscribe ar started).
  { revert Hi. unfold invoke. rewrite Hidle.
    destruct args as [ar|]; [|rewrite fail_spec; discriminate].
    destruct (buffer ar); [|rewrite fail_spec; discriminate].
    destruct (fs_error e); [rewrite fail_spec; discriminate|]. cbv zeta.
    destruct (prep e); rewrite ?fail_spec; try discriminate.
    intros [= _ <-]. eauto. }
  destruct Hp as (ar & started & ->).
  cbn [run resume]. unfold after_transcribe.
  destruct r as [data|]; [|caught; eauto].
  destruct (negb (Str.truthy (pick_transcription data)));
    [caught; eauto|].
  cbv zeta. apply generation_returns.
  pose proof (candidateModels_length (model ar)
                (voicePreferredModel
                   (send (STATUS "llm" "Generating answer…"
                            (Some (pick_transcription data)) None) s1))).
  lia.
Qed.

End Failures.

(** ** Requests without audio *)

Lemma network_app (t1 t2 : list Effect) : network (t1 ++ t2) = network t1 ++ network t2.
Proof. apply List.filter_app. Qed.

(** C6, refuted as stated. An empty buffer is a buffer: the handler
    writes the empty recording and posts it to the transcription
    service. *)
Lemma empty_buffer_counterexample :
  ~ (forall (args : option VoiceArgs) (e : Entry) (replies : list Reply) (s : Main),
        buffer_of args = None \/ buffer_of args = Some [] ->
        exists s' msg,
          handle Sample.parse args e replies s = (s', inl (Failure msg))
          /\ network (trace s') = network (trace s)).
Proof.
  intros H.
  destruct (H (Some (mkArgs (Some []) None None)) (mkEntry 1000 None PrepOk)
              [Transcribed SttRejects "k3x9qa"] initial (or_intror eq_refl))
    as (s' & msg & Hrun & Hnet).
  vm_compute in Hrun. injection Hrun as <- <-.
  vm_compute in Hnet. discriminate.
Qed.

Section MissingBuffer.

Variable JSON_parse : string -> option StreamLine.

(** C6, as the handler has it. A request without a buffer returns
    [{success: false, error}] at once: the error is "No audio buffer
    provided" after the error event when the request is accepted, and
    the rejection of the in-flight guard otherwise; the trace gains no
    HTTP request. A buffer that is present is written and posted to
    the transcription service whatever its length. *)
Theorem missing_buffer_rejected (args : option VoiceArgs) (e : Entry)
    (replies : list Reply) (s : Main) :
  buffer_of args = None ->
  handle JSON_parse args e replies s
  = (if voiceStreamingActive s then (s, inl (Failure busy))
     else (set_streaming false (send (ERROR "No audio buffer provided") s),
           inl (Failure "No audio buffer provided")))
  /\ network (trace (fst (handle JSON_parse args e replies s))) = network (trace s)
  /\ (forall ar bytes,
        voiceStreamingActive s = false -> buffer ar = Some bytes ->
        fs_error e = None -> prep e = PrepOk ->
        invoke (Some ar) e s
        = (emit [WriteFile (startTs e) bytes;
                 Send (STATUS "stt" "Transcribing…" None None);
                 PostTranscribe (startTs e) (language_or_en ar)] s,
           inr (AwaitTranscribe ar (startTs e)))).
Proof.
  intros Hnone.
  assert (Hrun : handle JSON_parse args e replies s
                 = (if voiceStreamingActive s then (s, inl (Failure busy))
                    else (set_streaming false (send (ERROR "No audio buffer provided") s),
                          inl (Failure "No audio buffer provided")))).
  { destruct (voiceStreamingActive s) eqn:Hflag; [now apply handle_busy|].
    unfold handle, invoke. rewrite Hflag.
    destruct args as [ar|]; [cbn [buffer_of] in Hnone; rewrite Hnone|];
      rewrite fail_spec, run_returned; reflexivity. }
  split; [exact Hrun|]. split.
  - rewrite Hrun. destruct (voiceStreamingActive s); [reflexivity|].
    cbn [fst trace set_streaming send effect emit].
    rewrite network_app. cbn. apply app_nil_r.
  - intros ar bytes Hidle Hb Hfs Hprep. now apply invoke_accepted.
Qed.

End MissingBuffer.

(** ** Partial events *)

(** C5, refuted as stated. A model that breaks off after a delta is
    followed by the next candidate, whose text starts again from its
    own first delta under the same request id. *)
Lemma monotone_partials_counterexample :
  ~ (forall (args : option VoiceArgs) (e : Entry) (replies : list Reply) (rid : string),
        growing (answers rid (trace (fst (handle Sample.parse args e replies initial))))
        = true).
Proof.
  intros H.
  specialize (H (Some (mkArgs (Some [x00]) None None)) (mkEntry 1000 None PrepOk)
                (Transcribed (SttResolves (Some (mkStt "hi" EmptyString EmptyString)))
                   "k3x9qa"
                 :: replies_of (Broken [Sample.response_line "hello"] "socket hang up")
                 ++ replies_of (Completes [Sample.response_line "x"] 2000))
                "1000-k3x9qa").
  vm_compute in H. discriminate.
Qed.

Lemma prefix_app (x d : string) : String.prefix x (x +:+ d) = true.
Proof.
  induction x as [|c x IH]; [now destruct d|].
  rewrite str_app_cons. cbn [String.prefix].
  destruct (ascii_dec c c); [exact IH | congruence].
Qed.

Lemma growing_running (sofar : string) (ds : list string) :
  growing (sofar :: running sofar ds) = true.
Proof.
  revert sofar. induction ds as [|d ds IH]; intros sofar; [reflexivity|].
  cbn [running]. change (String.prefix sofar (sofar +:+ d)
                         && growing ((sofar +:+ d) :: running (sofar +:+ d) ds) = true).
  now rewrite prefix_app, IH.
Qed.

Lemma growing_tail (x : string) (texts : list string) :
  growing (x :: texts) = true -> growing texts = true.
Proof.
  destruct texts as [|y texts]; [reflexivity|].
  cbn [growing]. intros H. now apply andb_prop in H.
Qed.

Lemma answers_partials (g : Gen) (m sofar : string) (ds : list string) :
  answers (g_requestId g) (partials g m sofar ds) = running sofar ds
  /\ omap (partial_delta (g_requestId g)) (partials g m sofar ds) = ds.
Proof.
  revert sofar. induction ds as [|d ds IH]; intros sofar; [split; reflexivity|].
  unfold answers. cbn [partials omap list_omap partial_answer partial_delta running].
  rewrite String.eqb_refl. destruct (IH (sofar +:+ d)) as [Ha Hd].
  unfold answers in Ha. cbn [omap] in Ha, Hd. now rewrite Ha, Hd.
Qed.

Lemma answers_app (rid : string) (t1 t2 : list Effect) :
  answers rid (t1 ++ t2) = answers rid t1 ++ answers rid t2.
Proof. apply omap_app. Qed.

Section PartialEvents.

Variable JSON_parse : string -> option StreamLine.

(** C5, as the handler has it. Reading the chunks of one stream sends
    one partial event per delta, in the order of the chunks and of the
    lines inside a chunk; each event carries the request id, its
    delta, and the text so far extended by the delta, so within one
    model attempt the cumulative text grows from event to event. The
    partial events of a request are those of its attempts in candidate
    order, every attempt starting again from the empty text. *)
Theorem partial_events_ordered (g : Gen) (m : string) (rest : list string)
    (chunks : list string) (sofar : string) (s : Main) :
  run JSON_parse (map (fun c => ReadResult (Chunk c)) chunks)
    (s, inr (AwaitRead g m rest sofar))
  = (emit (partials g m sofar (deltas JSON_parse chunks)) s,
     inr (AwaitRead g m rest (text_onto sofar (deltas JSON_parse chunks))))
  /\ omap (partial_delta (g_requestId g)) (partials g m sofar (deltas JSON_parse chunks))
     = deltas JSON_parse chunks
  /\ answers (g_requestId g) (partials g m sofar (deltas JSON_parse chunks))
     = running sofar (deltas JSON_parse chunks)
  /\ growing (sofar :: running sofar (deltas JSON_parse chunks)) = true
  /\ (forall plan,
        answers (g_requestId g) (plan_trace JSON_parse g plan)
        = flat_map (fun ma => running EmptyString (deltas JSON_parse (chunks_of (snd ma))))
            plan)
  /\ (forall a,
        growing (answers (g_requestId g) (attempt_trace JSON_parse g (m, a))) = true).
Proof.
  split; [apply run_chunks|].
  split; [apply answers_partials|].
  split; [apply answers_partials|].
  split; [apply growing_running|].
  assert (Hatt : forall ma,
             answers (g_requestId g) (attempt_trace JSON_parse g ma)
             = running EmptyString (deltas JSON_parse (chunks_of (snd ma)))).
  { intros ma. unfold attempt_trace.
    change (answers ?r (?e :: ?t)) with (answers r ([e] ++ t)).
    rewrite answers_app. cbn [answers omap list_omap partial_answer app].
    apply answers_partials. }
  split.
  - induction plan as [|ma plan IH]; [reflexivity|].
    unfold plan_trace in *. cbn [flat_map]. now rewrite answers_app, IH, Hatt.
  - intros a. rewrite Hatt. cbn [snd].
    apply (growing_tail EmptyString), growing_running.
Qed.

End PartialEvents.

(** ** The in-flight guard *)

(** C1, refuted as stated. A request that is waiting for its
    transcription has not set the flag, so a second request is accepted
    and both are in the pipeline. *)
Lemma single_flight_counterexample :
  ~ (forall (args1 args2 : option VoiceArgs) (e1 e2 : Entry) (s1 : Main) (p1 : Pending),
        invoke args1 e1 initial = (s1, inr p1) ->
        invoke args2 e2 s1 = (s1, inl (Failure busy))).
Proof.
  intros H.
  specialize (H (Some (mkArgs (Some [x00]) None None))
                (Some (mkArgs (Some [x01]) None None))
                (mkEntry 1000 None PrepOk) (mkEntry 1001 None PrepOk)
                _ _ eq_refl).
  vm_compute in H. discriminate.
Qed.

Lemma guarded_try_next (g : Gen) (ms : list string) (s : Main) :
  voiceStreamingActive s = true -> guarded (try_next g ms s).
Proof.
  intros H. destruct ms as [|m rest]; cbn [try_next]; [exact I|].
  intros _. exact H.
Qed.

Section Guard.

Variable JSON_parse : string -> option StreamLine.

Lemma guarded_resume (p : Pending) (r : Reply) (s : Main) :
  guarded (s, inr p) -> guarded (resume JSON_parse p r s).
Proof.
  intros Hg.
  destruct p as [ar started|g m rest|g m rest answer];
    destruct r as [r rnd|r|r]; try exact Hg.
  - cbn [resume]. unfold after_transcribe. destruct r as [data|]; [|exact I].
    destruct (negb (Str.truthy (pick_transcription data))); [exact I|].
    cbv zeta. now apply guarded_try_next.
  - specialize (Hg eq_refl). cbn [fst] in Hg.
    destruct r as [msg|ok status has_body]; cbn [resume].
    + now apply guarded_try_next.
    + destruct (negb ok || negb has_body); [now apply guarded_try_next|].
      intros _. exact Hg.
  - specialize (Hg eq_refl). cbn [fst] in Hg.
    destruct r as [txt|now|msg]; cbn [resume].
    + rewrite on_chunk_deltas. intros _. exact Hg.
    + unfold complete, fail. destruct (negb (Str.truthy m)); exact I.
    + now apply guarded_try_next.
Qed.

Lemma guarded_run (replies : list Reply) (st : Step) :
  guarded st -> guarded (run JSON_parse replies st).
Proof.
  revert st. induction replies as [|r more IH]; intros [s [o|p]] Hg; try exact Hg.
  cbn [run]. now apply IH, guarded_resume.
Qed.

Lemma guarded_invoke (args : option VoiceArgs) (e : Entry) (s : Main) :
  guarded (invoke args e s).
Proof.
  unfold invoke. destruct (voiceStreamingActive s); [exact I|].
  destruct args as [ar|]; [|exact I].
  destruct (buffer ar); [|exact I].
  destruct (fs_error e); [exact I|]. cbv zeta.
  destruct (prep e); try exact I. intros [=].
Qed.

(** C1, as the handler has it. The guard is the streaming flag: a
    request sets it when it enters the generation loop and it is set
    for as long as that request, run on its own, is in the loop.
    Every invocation made in a state where the flag is set returns
    "Another voice request in progress" at once, leaves the module
    state as it was, and so leaves the request in the loop to go on
    exactly as it would have; with several calls in flight, the
    rejected call is added and nothing else changes. A request that is
    accepted and waits for its transcription leaves the flag unset. *)
Theorem single_flight_while_streaming (args : option VoiceArgs) (e : Entry)
    (replies : list Reply) (s0 s : Main) (p : Pending) :
  handle JSON_parse args e replies s0 = (s, inr p) ->
  in_generation p = true ->
  (voiceStreamingActive s = true
   /\ forall args' e',
        invoke args' e' s = (s, inl (Failure busy))
        /\ forall more,
             run JSON_parse more (fst (invoke args' e' s), inr p)
             = run JSON_parse more (s, inr p))
  /\ (forall sys args' e',
        voiceStreamingActive (shared sys) = true ->
        sys_step JSON_parse sys (Submit args' e')
        = mkSys (shared sys) (calls sys ++ [inl (Failure busy)]))
  /\ (forall ar bytes e1 s1,
        voiceStreamingActive s1 = false -> buffer ar = Some bytes ->
        fs_error e1 = None -> prep e1 = PrepOk ->
        snd (invoke (Some ar) e1 s1) = inr (AwaitTranscribe ar (startTs e1))
        /\ voiceStreamingActive (fst (invoke (Some ar) e1 s1)) = false).
Proof.
  intros Hrun Hgen.
  split;
    [|split;
      [intros sys args' e' Hflag; cbn [sys_step]; unfold invoke; now rewrite Hflag
      |intros ar bytes e1 s1 Hidle Hb Hfs Hprep;
       rewrite (invoke_accepted ar bytes) by assumption;
       split; [reflexivity | exact Hidle]]].
  assert (Hflag : voiceStreamingActive s = true).
  { pose proof (guarded_run replies _ (guarded_invoke args e s0)) as Hg.
    unfold handle in Hrun. rewrite Hrun in Hg. now apply Hg. }
  split; [exact Hflag|]. intros args' e'.
  assert (Hrej : invoke args' e' s = (s, inl (Failure busy)))
    by (unfold invoke; now rewrite Hflag).
  split; [exact Hrej|]. intros more. now rewrite Hrej.
Qed.

End Guard.

(** ** Requests one after the other *)

Section Serve.

Variable JSON_parse : string -> option StreamLine.

(** What one request does to the history and its toggle. *)
Lemma handle_history (args : option VoiceArgs) (e : Entry) (replies : list Reply)
    (s : Main) :
  let st := handle JSON_parse args e replies s in
  voiceHistoryEnabled (fst st) = voiceHistoryEnabled s
  /\ match exchange (snd st) with
     | Some (question, answer) =>
         exists now,
           voiceHistory (fst st)
           = if voiceHistoryEnabled s
             then push_turn (mkTurn question answer now) (voiceHistory s)
             else voiceHistory s
     | None => voiceHistory (fst st) = voiceHistory s
     end.
Proof.
  cbv zeta. destruct (voiceStreamingActive s) eqn:Hflag.
  - rewrite handle_busy by assumption. split; reflexivity.
  - pose proof (settled_handle JSON_parse args e replies s Hflag) as H.
    destruct (handle JSON_parse args e replies s)
      as [s' [[msg|question answer m rid]|p]];
      unfold settled in H; cbn [fst snd exchange] in *.
    + destruct H as ((_ & _ & He & Hh) & _). now split.
    + destruct H as (_ & _ & He & _ & _ & _ & Hh). now split.
    + destruct H as (_ & _ & He & Hh). now split.
Qed.

Lemma serve_history (requests : list Request) (s : Main) :
  voiceHistoryEnabled s = true ->
  exists turns,
    map turn_exchange turns = omap exchange (snd (serve JSON_parse requests s))
    /\ voiceHistory (fst (serve JSON_parse requests s)) = push_all turns (voiceHistory s).
Proof.
  revert s. induction requests as [|r more IH]; intros s Hen.
  - exists []. split; reflexivity.
  - cbn [serve]. cbv zeta. cbn [fst snd].
    destruct (handle_history (r_args r) (r_entry r) (r_replies r) s) as [He Hh].
    set (st := handle JSON_parse (r_args r) (r_entry r) (r_replies r) s) in *.
    destruct (IH (fst st)) as (turns & Hmap & Hhist); [now rewrite He|].
    cbn [omap list_omap]. fold (omap exchange (snd (serve JSON_parse more (fst st)))).
    destruct (exchange (snd st)) as [[question answer]|].
    + destruct Hh as [now Hh]. rewrite Hen in Hh.
      exists (mkTurn question answer now :: turns). split.
      * cbn [map turn_exchange q a]. now rewrite Hmap.
      * rewrite Hhist, Hh. reflexivity.
    + exists turns. split; [exact Hmap|]. now rewrite Hhist, Hh.
Qed.

(** C3. The history holds at most 15 turns after every step of the
    handler and every command. With the history switched on, the
    requests served one after the other leave in it the last 15 of
    the turns of the requests that succeeded, appended to what was
    there, oldest first; from the empty history its length is the
    smaller of 15 and the number of successful requests. *)
Theorem history_bounded_fifo (requests : list Request) (s : Main) :
  (forall t h, (length (push_turn t h) <= VOICE_HISTORY_MAX_TURNS)%nat
               /\ push_turn t h = slice_last VOICE_HISTORY_MAX_TURNS (h ++ [t]))
  /\ (forall p r c args e,
        (length (voiceHistory s) <= VOICE_HISTORY_MAX_TURNS)%nat ->
        (length (voiceHistory (fst (resume JSON_parse p r s)))
           <= VOICE_HISTORY_MAX_TURNS)%nat
        /\ (length (voiceHistory (fst (invoke args e s))) <= VOICE_HISTORY_MAX_TURNS)%nat
        /\ (length (voiceHistory (exec c s)) <= VOICE_HISTORY_MAX_TURNS)%nat)
  /\ (voiceHistoryEnabled s = true ->
      (length (voiceHistory s) <= VOICE_HISTORY_MAX_TURNS)%nat ->
      exists turns,
        map turn_exchange turns = omap exchange (snd (serve JSON_parse requests s))
        /\ voiceHistory (fst (serve JSON_parse requests s))
           = slice_last VOICE_HISTORY_MAX_TURNS (voiceHistory s ++ turns)
        /\ voiceHistory (fst (serve JSON_parse requests s)) `suffix_of` voiceHistory s ++ turns
        /\ (voiceHistory s = [] ->
            length (voiceHistory (fst (serve JSON_parse requests s)))
            = Nat.min (length (omap exchange (snd (serve JSON_parse requests s))))
                VOICE_HISTORY_MAX_TURNS)).
Proof.
  split; [intros t h; split; [apply push_turn_bound | apply push_turn_slice]|].
  split.
  - intros p r c args e Hbound. split; [|split].
    + pose proof (settled_resume JSON_parse p r s) as H.
      destruct (resume JSON_parse p r s) as [s' [[msg|question answer m rid]|p']];
        unfold settled in H; cbn [fst snd] in *.
      * destruct H as ((_ & _ & _ & ->) & _). exact Hbound.
      * destruct H as (_ & _ & _ & _ & _ & _ & now & ->).
        destruct (voiceHistoryEnabled s); [apply push_turn_bound | exact Hbound].
      * destruct H as (_ & _ & _ & ->). exact Hbound.
    + destruct (voiceStreamingActive s) eqn:Hflag.
      * unfold invoke. rewrite Hflag. exact Hbound.
      * pose proof (settled_invoke args e s Hflag) as H.
        destruct (invoke args e s) as [s' [[msg|question answer m rid]|p']];
          unfold settled in H; cbn [fst snd] in *.
        -- destruct H as ((_ & _ & _ & ->) & _). exact Hbound.
        -- destruct H as (_ & _ & _ & _ & _ & _ & now & ->).
           destruct (voiceHistoryEnabled s); [apply push_turn_bound | exact Hbound].
        -- destruct H as (_ & _ & _ & ->). exact Hbound.
    + destruct c as [ctx|m| |enabled|]; cbn [exec]; try exact Hbound.
      * destruct (0 <? String.length (Str.trim m))%nat; exact Hbound.
      * cbn. lia.
      * cbn. lia.
  - intros Hen Hbound.
    destruct (serve_history requests s Hen) as (turns & Hmap & Hhist).
    exists turns. rewrite Hhist, push_all_slice by assumption.
    split; [exact Hmap|]. split; [reflexivity|].
    split; [apply slice_last_suffix|].
    intros ->. rewrite slice_last_length. cbn [app].
    now rewrite <- Hmap, length_map.
Qed.

End Serve.

Example scenario_streaming :
  snd Scenario.streaming = inr Scenario.pending
  /\ voiceStreamingActive (fst Scenario.streaming) = true
  /\ trace (fst Scenario.streaming)
     = [WriteFile 1000 [x00];
        Send (STATUS "stt" "Transcribing…" None None);
        PostTranscribe 1000 "en";
        Send (STATUS "llm" "Generating answer…" (Some "hi") None);
        Send (STATUS "llm" "Generating answer…" (Some "hi") (Some Scenario.rid));
        PostGenerate "phi3:latest" (g_prompt Scenario.gen);
        Send (PARTIAL Scenario.rid "a" "a" "phi3:latest")].
Proof. repeat split; vm_compute; reflexivity. Qed.

Example scenario_seventeen_requests :
  map ts (voiceHistory (fst (serve Sample.parse (Scenario.requests 17) initial)))
  = [31; 41; 51; 61; 71; 81; 91; 101; 111; 121; 131; 141; 151; 161; 171]
  /\ length (omap exchange (snd (serve Sample.parse (Scenario.requests 17) initial)))
     = 17%nat.
Proof. split; vm_compute; reflexivity. Qed.

Example scenario_line_chunks :
  deltas Sample.parse [Sample.stream_ab] = ["a"; "b"]
  /\ deltas Sample.parse
       [Sample.response_line "a" +:+ Str.nl; Sample.response_line "b" +:+ Str.nl;
        Sample.done_line +:+ Str.nl] = ["a"; "b"]
  /\ deltas Sample.parse ["{oops"; Sample.response_line "b"] = ["b"].
Proof. repeat split; vm_compute; reflexivity. Qed.

(** Two recordings submitted one after the other before the first is
    transcribed are both accepted, both enter the generation loop, and
    their partial events alternate; when the first returns it clears
    the flag under the second, and a third recording is accepted. *)
Example scenario_two_requests_stream_together :
  let both :=
    sys_run Sample.parse
      [Submit Scenario.args (Scenario.entry 1000);
       Submit Scenario.args (Scenario.entry 1001);
       Deliver 0 (Scenario.heard "one");
       Deliver 1 (Scenario.heard "two");
       Deliver 0 (Fetched (Responded true 200 true));
       Deliver 1 (Fetched (Responded true 200 true));
       Deliver 0 (ReadResult (Chunk (Sample.response_line "a")));
       Deliver 1 (ReadResult (Chunk (Sample.response_line "x")));
       Deliver 0 (ReadResult (Chunk (Sample.response_line "b")))]
      (mkSys initial []) in
  streaming_calls both = 2%nat
  /\ omap (fun e => match e with
                    | Send (PARTIAL rid _ answer _) => Some (rid, answer)
                    | _ => None
                    end) (trace (shared both))
     = [("1000-k3x9qa", "a"); ("1001-k3x9qa", "x"); ("1000-k3x9qa", "ab")]
  /\ (let after :=
        sys_run Sample.parse
          [Deliver 0 (ReadResult (Done 2000));
           Submit Scenario.args (Scenario.entry 2001)] both in
      voiceStreamingActive (shared after) = false
      /\ calls after !! 0%nat = Some (inl (Success "one" "ab" "phi3:latest" "1000-k3x9qa"))
      /\ streaming_calls after = 1%nat
      /\ calls after !! 2%nat
         = Some (inr (AwaitTranscribe (mkArgs (Some [x00]) None None) 2001))).
Proof. repeat split; vm_compute; reflexivity. Qed.

(** ** Abort *)

(** C8. The abort of the voice panel does not reach the request in
    flight: the main state it leaves is the one it found, the flag
    stays set, and the request that had sent the delta "a" goes on to
    send the partial event for "b" and the result, and to push its turn
    on the history. No event of the main module announces an abort,
    and no state of the main module stops the stream: resumed in any
    state, the request sends the same two events and returns its
    answer. *)
Theorem abort_leaves_stream_running :
  (forall mode s, snd (abortProcessing mode s) = s)
  /\ snd Scenario.streaming = inr Scenario.pending
  /\ in_generation Scenario.pending = true
  /\ fst (abortProcessing processing (fst Scenario.streaming)) = idle
  /\ voiceStreamingActive (snd (abortProcessing processing (fst Scenario.streaming)))
     = true
  /\ (let finished :=
        run Sample.parse Scenario.remainder
          (snd (abortProcessing processing (fst Scenario.streaming)),
           inr Scenario.pending) in
      snd finished = inl (Success "hi" "ab" "phi3:latest" Scenario.rid)
      /\ trace (fst finished)
         = trace (fst Scenario.streaming)
           ++ [Send (PARTIAL Scenario.rid "b" "ab" "phi3:latest");
               Send (RESULT "hi" "ab" "phi3:latest" Scenario.rid)]
      /\ voiceHistory (fst finished) = [mkTurn "hi" "ab" 2000])
  /\ (forall s,
        let finished := run Sample.parse Scenario.remainder (s, inr Scenario.pending) in
        snd finished = inl (Success "hi" "ab" "phi3:latest" Scenario.rid)
        /\ trace (fst finished)
           = trace s
             ++ [Send (PARTIAL Scenario.rid "b" "ab" "phi3:latest");
                 Send (RESULT "hi" "ab" "phi3:latest" Scenario.rid)]).
Proof.
  split; [intros [| |] s; reflexivity|].
  repeat (split; [vm_compute; reflexivity|]).
  split; [repeat split; vm_compute; reflexivity|].
  intros [ctx active pref hist enabled tr]. cbv zeta.
  unfold Scenario.remainder, Scenario.pending. cbn [run resume].
  rewrite on_chunk_deltas. cbn [fst snd].
  replace (deltas_of_chunk Sample.parse
             (Sample.response_line "b" +:+ Str.nl +:+ Sample.done_line +:+ Str.nl))
    with ["b"] by (vm_compute; reflexivity).
  rewrite complete_spec by reflexivity.
  cbn [fst snd completed trace emit partials text_onto fold_left].
  split; [reflexivity|]. rewrite <- app_assoc. reflexivity.
Qed.

(** ** Instances *)

Lemma single_flight_while_streaming_witness :
  voiceStreamingActive (fst Scenario.streaming) = true
  /\ forall args' e',
       invoke args' e' (fst Scenario.streaming)
       = (fst Scenario.streaming, inl (Failure busy))
       /\ forall more,
            run Sample.parse more
              (fst (invoke args' e' (fst Scenario.streaming)), inr Scenario.pending)
            = run Sample.parse more (fst Scenario.streaming, inr Scenario.pending).
Proof.
  refine (proj1
            (single_flight_while_streaming Sample.parse Scenario.args (Scenario.entry 1000)
               [Scenario.heard "hi"; Fetched (Responded true 200 true);
                ReadResult (Chunk (Sample.response_line "a" +:+ Str.nl))]
               initial (fst Scenario.streaming) Scenario.pending _ _)).
  - vm_compute. reflexivity.
  - reflexivity.
Defined.

Lemma model_fallback_witness :
  let st :=
    run Sample.parse
      (plan_replies [("m1", Refused 500 true); ("m2", Refused 404 false);
                     ("m3", Completes [Sample.stream_ab] 2000)] ++ [])
      (try_next Scenario.gen ["m1"; "m2"; "m3"] initial) in
  snd st = inl (Success "hi" "ab" "m3" Scenario.rid)
  /\ trace (fst st)
     = trace initial
       ++ [PostGenerate "m1" (g_prompt Scenario.gen);
           PostGenerate "m2" (g_prompt Scenario.gen);
           PostGenerate "m3" (g_prompt Scenario.gen);
           Send (PARTIAL Scenario.rid "a" "a" "m3");
           Send (PARTIAL Scenario.rid "b" "ab" "m3");
           Send (RESULT "hi" "ab" "m3" Scenario.rid)].
Proof.
  exact (proj2 (proj2 (proj2 (proj2 (model_fallback Sample.parse Scenario.gen initial))))
           "m1" "m2" "m3" [] 500 404 true false 2000 []
           eq_refl eq_refl eq_refl eq_refl).
Defined.

Lemma history_bounded_fifo_witness :
  length (voiceHistory (fst (serve Sample.parse (Scenario.requests 17) initial)))
  = Nat.min (length (omap exchange (snd (serve Sample.parse (Scenario.requests 17) initial))))
      VOICE_HISTORY_MAX_TURNS.
Proof.
  destruct (proj2 (proj2 (history_bounded_fifo Sample.parse (Scenario.requests 17) initial))
              eq_refl (Nat.le_0_l _))
    as (turns & _ & _ & _ & Hlen).
  exact (Hlen eq_refl).
Defined.

Lemma history_section_budget_witness :
  historySection_with 40 true
    [mkTurn "first" "one" 1; mkTurn "why?" "because" 2; mkTurn "hi" "ab" 3]
  = "Previous exchanges (context):" +:+ Str.nl
      +:+ "Q: why?" +:+ Str.nl +:+ "A: because" +:+ Str.nl +:+ Str.nl
      +:+ "Q: hi" +:+ Str.nl +:+ "A: ab" +:+ Str.nl +:+ Str.nl
  /\ historySection_with 20 true
       [mkTurn "first" "one" 1; mkTurn "a long question" "a long answer" 2]
     = EmptyString.
Proof.
  split.
  - rewrite (proj1 (proj2 (history_section_budget 40 true
               [mkTurn "first" "one" 1; mkTurn "why?" "because" 2; mkTurn "hi" "ab" 3]))).
    vm_compute. reflexivity.
  - refine (proj1 (proj2 (proj2 (proj2 (proj2
              (history_section_budget 20 true
                 [mkTurn "first" "one" 1; mkTurn "a long question" "a long answer" 2])))))
              [mkTurn "first" "one" 1] (mkTurn "a long question" "a long answer" 2)
              eq_refl _).
    vm_compute. lia.
Defined.

Lemma missing_buffer_rejected_witness :
  handle Sample.parse None (Scenario.entry 1000) [Scenario.heard "hi"] initial
  = (set_streaming false (send (ERROR "No audio buffer provided") initial),
     inl (Failure "No audio buffer provided"))
  /\ network (trace (fst (handle Sample.parse None (Scenario.entry 1000)
                            [Scenario.heard "hi"] initial)))
     = network (trace initial).
Proof.
  destruct (missing_buffer_rejected Sample.parse None (Scenario.entry 1000)
              [Scenario.heard "hi"] initial eq_refl) as (Hrun & Hnet & _).
  split; [exact Hrun | exact Hnet].
Defined.

Lemma history_append_on_success_witness :
  snd (run Sample.parse
         (plan_replies ([("m1", Unreachable "refused")]
                          ++ [("m2", Completes [Sample.done_line] 2000)]) ++ [])
         (try_next Scenario.gen (map fst [("m1", Unreachable "refused")] ++ ["m2"])
            initial))
  = inl (Success "hi" placeholder "m2" Scenario.rid).
Proof.
  exact (proj2 (proj2 (history_append_on_success Sample.parse None
                         (Scenario.entry 1000) [] initial))
           Scenario.gen [("m1", Unreachable "refused")] "m2" [Sample.done_line] 2000
           [] [] initial eq_refl eq_refl eq_refl).
Defined.

Lemma failures_are_caught_witness :
  snd (handle Sample.parse Scenario.args (Scenario.entry 1000)
         [Transcribed SttRejects "k3x9qa"] initial)
  = inl (Failure "Transcription failed")
  /\ voiceStreamingActive
       (fst (handle Sample.parse Scenario.args (Scenario.entry 1000)
               [Transcribed SttRejects "k3x9qa"] initial)) = false.
Proof.
  pose proof (failures_are_caught Sample.parse Scenario.args (Scenario.entry 1000)
                initial eq_refl) as (Hcaught & _ & _ & _ & Hstt & _).
  specialize (Hstt [] (mkArgs (Some [x00]) None None) [x00] "k3x9qa"
                eq_refl eq_refl eq_refl eq_refl).
  split; [exact Hstt|].
  destruct (handle Sample.parse Scenario.args (Scenario.entry 1000)
              [Transcribed SttRejects "k3x9qa"] initial) as [s' o] eqn:Hrun.
  cbn [snd] in Hstt. subst o.
  exact (proj1 (Hcaught _ _ _ Hrun)).
Defined.

(** * Further properties of the code *)

(** ** Trimming and slicing *)

Lemma slice0_length (n : nat) (s : string) :
  String.length (Str.slice0 n s) = Nat.min n (String.length s).
Proof.
  revert s. induction n as [|n IH]; intros [|c s]; cbn [Str.slice0 String.length];
    try reflexivity.
  now rewrite IH.
Qed.

Lemma slice0_split (n : nat) (s : string) :
  exists rest, s = Str.slice0 n s +:+ rest.
Proof.
  revert s. induction n as [|n IH]; intros [|c s]; cbn [Str.slice0].
  - now exists EmptyString.
  - now exists (String c s).
  - now exists EmptyString.
  - destruct (IH s) as [rest Hrest]. exists rest.
    rewrite str_app_cons. now rewrite <- Hrest.
Qed.

Lemma slice0_short (n : nat) (s : string) :
  (String.length s <= n)%nat -> Str.slice0 n s = s.
Proof.
  revert s. induction n as [|n IH]; intros [|c s] H; cbn [Str.slice0 String.length] in *;
    try reflexivity; try lia.
  rewrite IH by lia. reflexivity.
Qed.

Lemma trim_start_length (s : string) :
  (String.length (Str.trim_start s) <= String.length s)%nat.
Proof.
  induction s as [|c s IH]; cbn [Str.trim_start String.length]; [lia|].
  destruct (Str.is_space c); cbn [String.length]; lia.
Qed.

Lemma trim_end_length (s : string) :
  (String.length (Str.trim_end s) <= String.length s)%nat.
Proof.
  induction s as [|c s IH]; cbn [Str.trim_end String.length]; [lia|].
  destruct (Str.trim_end s); [destruct (Str.is_space c)|]; cbn [String.length] in *; lia.
Qed.

Lemma trim_length (s : string) : (String.length (Str.trim s) <= String.length s)%nat.
Proof.
  unfold Str.trim. pose proof (trim_end_length (Str.trim_start s)).
  pose proof (trim_start_length s). lia.
Qed.

Lemma trim_start_tight (s : string) : tight_start (Str.trim_start s).
Proof.
  induction s as [|c s IH]; cbn [Str.trim_start]; [exact I|].
  destruct (Str.is_space c) eqn:Hc; [exact IH | exact Hc].
Qed.

Lemma trim_start_fixed (s : string) : tight_start s -> Str.trim_start s = s.
Proof. destruct s as [|c s]; cbn; [reflexivity|]. now intros ->. Qed.

Lemma trim_end_tight (s : string) : tight_start s -> tight_start (Str.trim_end s).
Proof.
  destruct s as [|c s]; cbn [Str.trim_end tight_start]; [trivial|]. intros Hc.
  destruct (Str.trim_end s); [rewrite Hc|]; exact Hc.
Qed.

Lemma trim_end_idem (s : string) : Str.trim_end (Str.trim_end s) = Str.trim_end s.
Proof.
  induction s as [|c s IH]; [reflexivity|]. cbn [Str.trim_end].
  destruct (Str.trim_end s) as [|k kept] eqn:Hk.
  - destruct (Str.is_space c) eqn:Hc; [reflexivity|]. cbn. now rewrite Hc.
  - cbn [Str.trim_end] in IH |- *. now rewrite IH.
Qed.

Lemma trim_idem (s : string) :
  Str.trim (Str.trim s) = Str.trim s
  /\ Str.trim_start (Str.trim s) = Str.trim s
  /\ Str.trim_end (Str.trim s) = Str.trim s.
Proof.
  assert (Hs : Str.trim_start (Str.trim s) = Str.trim s)
    by apply trim_start_fixed, trim_end_tight, trim_start_tight.
  assert (He : Str.trim_end (Str.trim s) = Str.trim s) by apply trim_end_idem.
  unfold Str.trim at 1. now rewrite Hs, He.
Qed.

Example trim_on_samples :
  Str.trim_end "a  " = "a" /\ Str.trim_end "a b" = "a b" /\ Str.trim_end "   " = EmptyString.
Proof. repeat split; vm_compute; reflexivity. Qed.

(** ** The settings handlers *)

(** X1. [SET_CONTEXT] stores the first 4000 characters of the text it
    is given: what it stores is a prefix of the text, is never longer
    than 4000 characters, is the text itself when that is short enough,
    and storing it again changes nothing. Nothing else of the voice
    state is touched. *)
Theorem set_context_keeps_prefix (ctx : string) (s : Main) :
  (String.length (voiceContext (exec (SET_CONTEXT ctx) s)) <= 4000)%nat
  /\ String.length (voiceContext (exec (SET_CONTEXT ctx) s))
     = Nat.min 4000 (String.length ctx)
  /\ (exists rest, ctx = voiceContext (exec (SET_CONTEXT ctx) s) +:+ rest)
  /\ ((String.length ctx <= 4000)%nat -> voiceContext (exec (SET_CONTEXT ctx) s) = ctx)
  /\ exec (SET_CONTEXT (voiceContext (exec (SET_CONTEXT ctx) s))) (exec (SET_CONTEXT ctx) s)
     = exec (SET_CONTEXT ctx) s
  /\ same_store (set_context (voiceContext (exec (SET_CONTEXT ctx) s)) s)
       (exec (SET_CONTEXT ctx) s)
  /\ voiceStreamingActive (exec (SET_CONTEXT ctx) s) = voiceStreamingActive s
  /\ trace (exec (SET_CONTEXT ctx) s) = trace s.
Proof.
  cbn [exec voiceContext set_context voiceStreamingActive trace].
  split; [rewrite slice0_length; lia|].
  split; [apply slice0_length|].
  split; [apply slice0_split|].
  split; [apply slice0_short|].
  split.
  - rewrite (slice0_short 4000 (Str.slice0 4000 ctx)); [reflexivity|].
    rewrite slice0_length. lia.
  - repeat split.
Qed.

Lemma set_context_keeps_prefix_witness :
  voiceContext (exec (SET_CONTEXT "Be brief.") initial) = "Be brief.".
Proof.
  apply (proj1 (proj2 (proj2 (proj2 (set_context_keeps_prefix "Be brief." initial))))).
  vm_compute. lia.
Defined.

Lemma truthy_trim_length (m : string) :
  (0 <? String.length (Str.trim m))%nat = Str.truthy (Str.trim m).
Proof. now destruct (Str.trim m). Qed.

(** X2. [SET_MODEL] trims the name it is given. A name that is blank
    after trimming is refused with "Invalid model" and leaves the state
    as it was. Any other name is stored trimmed, the reply carries the
    stored name, trimming the stored name again changes nothing, and
    the next request without an override of its own tries that model
    first, followed by the default models it does not repeat. *)
Theorem set_model_trims (m : string) (s : Main) :
  (Str.trim m = EmptyString ->
   SET_MODEL_reply m = ModelInvalid /\ exec (SET_MODEL m) s = s)
  /\ (Str.trim m <> EmptyString ->
      SET_MODEL_reply m = ModelSet (Str.trim m)
      /\ exec (SET_MODEL m) s = set_preferred (Some (Str.trim m)) s
      /\ preferred_ok (exec (SET_MODEL m) s)
      /\ exec (SET_MODEL (Str.trim m)) (exec (SET_MODEL m) s) = exec (SET_MODEL m) s
      /\ candidateModels None (voicePreferredModel (exec (SET_MODEL m) s))
         = Str.trim m
             :: List.filter (fun dm => negb (includes dm [Str.trim m])) defaultModels
      /\ (forall override,
            given override = None ->
            hd_error (candidateModels override (voicePreferredModel (exec (SET_MODEL m) s)))
            = Some (Str.trim m))).
Proof.
  unfold SET_MODEL_reply. cbn [exec]. rewrite truthy_trim_length.
  split.
  - intros ->. split; reflexivity.
  - intros Hne.
    assert (Ht : Str.truthy (Str.trim m) = true)
      by (destruct (Str.trim m) eqn:E; [congruence | reflexivity]).
    rewrite Ht. destruct (trim_idem m) as (Hidem & _).
    split; [reflexivity|]. split; [reflexivity|].
    split; [cbn; now split|].
    split; [cbn [exec]; rewrite Hidem, truthy_trim_length, Ht; reflexivity|].
    cbn [voicePreferredModel set_preferred].
    assert (Hlead : forall override, given override = None ->
               leading override (Some (Str.trim m)) = [Str.trim m]).
    { intros override Ho. unfold leading. rewrite Ho. unfold given. now rewrite Ht. }
    split.
    + now rewrite candidateModels_shape, Hlead.
    + intros override Ho. now rewrite candidateModels_shape, Hlead.
Qed.

Lemma set_model_trims_witness :
  SET_MODEL_reply "  llama3 " = ModelSet "llama3"
  /\ candidateModels None (voicePreferredModel (exec (SET_MODEL "  llama3 ") initial))
     = ["llama3"; "phi3:latest"; "mistral:latest"; "gemma3:12b-it-qat"]
  /\ SET_MODEL_reply "   " = ModelInvalid.
Proof.
  destruct (set_model_trims "  llama3 " initial) as [_ Hset].
  destruct Hset as (Hreply & _ & _ & _ & Hcands & _); [vm_compute; discriminate|].
  destruct (set_model_trims "   " initial) as [Hblank _].
  destruct Hblank as [Hinvalid _]; [vm_compute; reflexivity|].
  split; [exact Hreply|]. split; [exact Hcands | exact Hinvalid].
Defined.

(** ** Invariants of the module state *)

Section Invariants.

Variable JSON_parse : string -> option StreamLine.

Lemma store_ok_same (s s' : Main) : same_store s s' -> store_ok s -> store_ok s'.
Proof.
  intros (Hc & Hp & _ & Hh) (H1 & H2 & H3). unfold store_ok, preferred_ok.
  now rewrite Hc, Hp, Hh.
Qed.

Lemma store_ok_settled (s : Main) (st : Step) :
  settled s st -> store_ok s -> store_ok (fst st).
Proof.
  destruct st as [s' [[msg|question answer m rid]|p]]; unfold settled; cbn [fst snd].
  - intros (Hsame & _). now apply store_ok_same.
  - intros (Hc & Hp & _ & _ & _ & _ & now & Hh) (H1 & H2 & H3).
    unfold store_ok, preferred_ok. rewrite Hc, Hp, Hh.
    split; [exact H1|]. split; [|exact H3].
    destruct (voiceHistoryEnabled s); [apply push_turn_bound | exact H2].
  - apply store_ok_same.
Qed.

Lemma store_ok_exec (c : Command) (s : Main) : store_ok s -> store_ok (exec c s).
Proof.
  intros (H1 & H2 & H3). destruct c as [ctx|m| |enabled|]; cbn [exec].
  - split; [|split; assumption]. cbn [voiceContext set_context]. rewrite slice0_length. lia.
  - rewrite truthy_trim_length. destruct (Str.truthy (Str.trim m)) eqn:Ht.
    + split; [exact H1|]. split; [exact H2|]. cbn. split; [exact Ht | apply trim_idem].
    + now split.
  - split; [exact H1|]. split; [cbn; lia | exact H3].
  - now split.
  - split; [exact H1|]. split; [cbn; lia | exact H3].
Qed.

Lemma store_ok_reachable (s : Main) : reachable JSON_parse s -> store_ok s.
Proof.
  induction 1 as [|c s _ IH|args e s _ IH|p r s _ IH].
  - repeat split; cbn; lia.
  - now apply store_ok_exec.
  - destruct (voiceStreamingActive s) eqn:Hflag.
    + unfold invoke. now rewrite Hflag.
    + apply (store_ok_settled s); [now apply settled_invoke | exact IH].
  - apply (store_ok_settled s); [apply settled_resume | exact IH].
Qed.

Lemma systemPrefix_length (ctx : string) :
  (String.length (systemPrefix ctx) <= String.length ctx + 59)%nat.
Proof.
  unfold systemPrefix. destruct (Str.truthy ctx); [|simpl; lia].
  rewrite !str_length_app. pose proof (trim_length ctx).
  change (String.length Str.nl) with 1%nat.
  change (String.length "Interview Context (use this perspective when answering):")
    with 56%nat.
  lia.
Qed.

Lemma historySection_length (enabled : bool) (history : list VoiceTurn) :
  (String.length (historySection enabled history) <= 2530)%nat.
Proof.
  unfold historySection. rewrite historySection_selected.
  destruct (select_turns_spec VOICE_HISTORY_CHAR_LIMIT history) as (older & _ & Hsum & _).
  destruct enabled; [|simpl; lia].
  destruct (select_turns VOICE_HISTORY_CHAR_LIMIT history) as [|t more] eqn:Hsel;
    [simpl; lia|].
  rewrite !str_length_app.
  pose proof (join_blocks_length (t :: more)) as Hlen.
  change (String.length (Str.nl +:+ Str.nl)) with 2%nat in *.
  change (String.length Str.nl) with 1%nat.
  change (String.length history_header) with 30%nat.
  unfold VOICE_HISTORY_CHAR_LIMIT in Hsum.
  specialize (Hlen ltac:(congruence)). lia.
Qed.

Lemma reachable_run (replies : list Reply) (st : Step) :
  reachable JSON_parse (fst st) -> reachable JSON_parse (fst (run JSON_parse replies st)).
Proof.
  revert st. induction replies as [|r more IH]; intros [s [o|p]] Hs; try exact Hs.
  cbn [run]. apply IH. now apply reach_resume.
Qed.

Lemma reachable_handle (args : option VoiceArgs) (e : Entry) (replies : list Reply)
    (s : Main) :
  reachable JSON_parse s -> reachable JSON_parse (fst (handle JSON_parse args e replies s)).
Proof. intros Hs. apply reachable_run. now apply reach_invoke. Qed.

(** X3. In every state the main module reaches, whatever commands were
    executed, recordings submitted and handlers resumed, the voice
    context has at most 4000 characters, the history at most 15 turns,
    and the preferred model is absent or a non-empty trimmed name. The
    prompt built in such a state is longer than the question by at most
    6608 characters (4059 of context, 2530 of history, 19 of framing),
    however long the stored answers are. *)
Theorem reachable_store_bounded (s : Main) (question : string) :
  reachable JSON_parse s ->
  (String.length (voiceContext s) <= 4000)%nat
  /\ (length (voiceHistory s) <= 15)%nat
  /\ preferred_ok s
  /\ (String.length (promptBase s question)
        <= String.length question + (4059 + 2530 + 19))%nat.
Proof.
  intros Hreach. destruct (store_ok_reachable s Hreach) as (Hctx & Hhist & Hpref).
  split; [exact Hctx|]. split; [exact Hhist|]. split; [exact Hpref|].
  unfold promptBase. rewrite !str_length_app.
  pose proof (systemPrefix_length (voiceContext s)).
  pose proof (historySection_length (voiceHistoryEnabled s) (voiceHistory s)).
  change (String.length Str.nl) with 1%nat.
  change (String.length "Question: ") with 10%nat.
  change (String.length "Answer:") with 7%nat.
  lia.
Qed.

End Invariants.

Lemma reachable_store_bounded_witness :
  (String.length
     (promptBase (exec (SET_CONTEXT "Be brief.") (fst Scenario.streaming)) "why?")
   <= String.length "why?" + (4059 + 2530 + 19))%nat.
Proof.
  apply (reachable_store_bounded Sample.parse).
  apply reach_exec. apply reachable_handle, reach_initial.
Defined.

(** ** A request in the generation loop and the rest of the module *)

Section Isolation.

Variable JSON_parse : string -> option StreamLine.

Lemma fail_appends (msg : string) (pre : list Effect) :
  forall s, snd (fail msg (set_streaming false (emit pre s)))
            = inl (Failure (message_of msg))
            /\ trace (fst (fail msg (set_streaming false (emit pre s))))
               = trace s ++ pre ++ [Send (ERROR (message_of msg))].
Proof. intros s. split; [reflexivity|]. cbn. now rewrite <- app_assoc. Qed.

Lemma try_next_appends (g : Gen) (ms : list string) (pre : list Effect) :
  appends (fun s => try_next g ms (emit pre s)).
Proof.
  destruct ms as [|m rest]; cbn [try_next].
  - exists (pre ++ [Send (ERROR all_failed)]), (inl (Failure all_failed)).
    intros s. split; [reflexivity|]. cbn. now rewrite <- app_assoc.
  - exists (pre ++ [PostGenerate m (g_prompt g)]), (inr (AwaitFetch g m rest)).
    intros s. split; [reflexivity|]. cbn. now rewrite <- app_assoc.
Qed.

Lemma resume_appends (p : Pending) (r : Reply) :
  in_generation p = true ->
  appends (fun s => resume JSON_parse p r s)
  /\ forall s p', snd (resume JSON_parse p r s) = inr p' -> in_generation p' = true.
Proof.
  intros Hgen.
  assert (Hnext : forall g ms,
             appends (fun s => try_next g ms s)
             /\ forall s p', snd (try_next g ms s) = inr p' -> in_generation p' = true).
  { intros g ms. split.
    - destruct (try_next_appends g ms []) as (added & x & H).
      exists added, x. intros s. specialize (H s). now rewrite emit_nil in H.
    - intros s p'. destruct ms; cbn; [discriminate | now intros [= <-]]. }
  assert (Hstay : appends (fun s => (s, inr p : Outcome + Pending))
                  /\ forall (s : Main) p', snd (s, inr p : Outcome + Pending) = inr p' ->
                                  in_generation p' = true).
  { split; [exists [], (inr p); intros s; now rewrite app_nil_r|].
    intros s p' [= <-]. exact Hgen. }
  destruct p as [ar started|g m rest|g m rest answer]; [discriminate| |];
    destruct r as [r rnd|r|r]; try exact Hstay.
  - destruct r as [msg|ok status has_body]; cbn [resume]; [apply Hnext|].
    destruct (negb ok || negb has_body); [apply Hnext|].
    split; [|intros s p' [= <-]; reflexivity].
    exists [], (inr (AwaitRead g m rest EmptyString)). intros s. now rewrite app_nil_r.
  - destruct r as [txt|now|msg]; cbn [resume]; [| |apply Hnext].
    + split; [|intros s p'; rewrite on_chunk_deltas; intros [= <-]; reflexivity].
      exists (partials g m answer (deltas_of_chunk JSON_parse txt)),
        (inr (AwaitRead g m rest (text_onto answer (deltas_of_chunk JSON_parse txt)))).
      intros s. rewrite on_chunk_deltas. split; reflexivity.
    + split.
      * unfold complete. destruct (negb (Str.truthy m)).
        -- exists [Send (ERROR all_failed)], (inl (Failure all_failed)).
           intros s. split; reflexivity.
        -- exists [Send (RESULT (g_question g) (final_answer answer) m (g_requestId g))],
             (inl (Success (g_question g) (final_answer answer) m (g_requestId g))).
           intros s. destruct s as [ctx active pref hist [|] tr]; split; reflexivity.
      * intros s p'. destruct (complete_returns g m answer now s) as (s' & o & ->).
        discriminate.
Qed.

Lemma run_appends (replies : list Reply) (p : Pending) :
  in_generation p = true ->
  appends (fun s => run JSON_parse replies (s, inr p)).
Proof.
  revert p. induction replies as [|r more IH]; intros p Hgen.
  - exists [], (inr p). intros s. split; [reflexivity | now rewrite app_nil_r].
  - destruct (resume_appends p r Hgen) as ((added & x & Hstep) & Hloop).
    destruct x as [o|p'].
    + exists added, (inl o). intros s. cbn [run].
      destruct (Hstep s) as [Hx Htr].
      destruct (resume JSON_parse p r s) as [s' x']. cbn [fst snd] in *. subst x'.
      rewrite run_returned. now split.
    + assert (Hgen' : in_generation p' = true).
      { apply (Hloop initial). apply (Hstep initial). }
      destruct (IH p' Hgen') as (added' & x' & Hrest).
      exists (added ++ added'), x'. intros s. cbn [run].
      destruct (Hstep s) as [Hx Htr].
      destruct (resume JSON_parse p r s) as [s' y]. cbn [fst snd] in *. subst y.
      destruct (Hrest s') as [Hx' Htr']. split; [exact Hx'|].
      now rewrite Htr', Htr, <- app_assoc.
Qed.

(** X4. Once a request is in the generation loop, what it goes on to do
    is its own affair: for the same replies it returns the same result
    and sends the same events after whatever is in the trace, in any
    state of the module. No other request, settings change or reset can
    change the answer it returns or keep its events from being sent. *)
Theorem generation_is_isolated (replies : list Reply) (p : Pending) (s1 s2 : Main) :
  in_generation p = true ->
  snd (run JSON_parse replies (s1, inr p)) = snd (run JSON_parse replies (s2, inr p))
  /\ drop (length (trace s1)) (trace (fst (run JSON_parse replies (s1, inr p))))
     = drop (length (trace s2)) (trace (fst (run JSON_parse replies (s2, inr p))))
  /\ trace s1 `prefix_of` trace (fst (run JSON_parse replies (s1, inr p))).
Proof.
  intros Hgen. destruct (run_appends replies p Hgen) as (added & x & H).
  destruct (H s1) as [Hx1 Ht1]. destruct (H s2) as [Hx2 Ht2].
  split; [now rewrite Hx1, Hx2|].
  split; [now rewrite Ht1, Ht2, !drop_app_length|].
  rewrite Ht1. now apply prefix_app_r.
Qed.

(** X5. The full reset does not cancel a voice request. It empties the
    history and clears the in-flight flag, so a recording submitted
    next is accepted while the earlier request is still streaming; and
    the earlier request, when its stream ends, returns its answer and
    pushes its turn on the history that had just been emptied. *)
Theorem reset_does_not_cancel (g : Gen) (m : string) (rest chunks : list string)
    (answer : string) (now : Z) (s : Main) :
  Str.truthy m = true ->
  voiceHistory (exec RESET_ALL s) = []
  /\ voiceStreamingActive (exec RESET_ALL s) = false
  /\ trace (exec RESET_ALL s)
     = trace s ++ [Send RESET_VIEW; Send PROCESSING_RESET; Send VOICE_RESET]
  /\ (forall ar bytes e,
        buffer ar = Some bytes -> fs_error e = None -> prep e = PrepOk ->
        snd (invoke (Some ar) e (exec RESET_ALL s)) = inr (AwaitTranscribe ar (startTs e)))
  /\ (let st :=
        run JSON_parse
          (map (fun c => ReadResult (Chunk c)) chunks ++ [ReadResult (Done now)])
          (exec RESET_ALL s, inr (AwaitRead g m rest answer)) in
      snd st
      = inl (Success (g_question g)
               (final_answer (text_onto answer (deltas JSON_parse chunks)))
               m (g_requestId g))
      /\ voiceHistory (fst st)
         = if voiceHistoryEnabled s
           then [mkTurn (g_question g)
                   (final_answer (text_onto answer (deltas JSON_parse chunks))) now]
           else []).
Proof.
  intros Hm.
  split; [reflexivity|]. split; [reflexivity|]. split; [reflexivity|].
  split.
  - intros ar bytes e Hb Hfs Hprep.
    now rewrite (invoke_accepted ar bytes) by (try assumption; reflexivity).
  - cbv zeta. rewrite run_app, run_chunks. cbn [run resume].
    rewrite complete_spec by assumption. cbn [fst snd completed voiceHistory].
    split; [reflexivity|].
    cbn [voiceHistoryEnabled voiceHistory emit exec set_streaming set_history].
    destruct (voiceHistoryEnabled s); reflexivity.
Qed.

End Isolation.

Lemma generation_is_isolated_witness :
  snd (run Sample.parse Scenario.remainder (initial, inr Scenario.pending))
  = snd (run Sample.parse Scenario.remainder (exec RESET_ALL initial, inr Scenario.pending)).
Proof.
  exact (proj1 (generation_is_isolated Sample.parse Scenario.remainder Scenario.pending
                  initial (exec RESET_ALL initial) eq_refl)).
Defined.

Lemma reset_does_not_cancel_witness :
  voiceHistory
    (fst (run Sample.parse
            (map (fun c => ReadResult (Chunk c)) [Sample.response_line "b"]
               ++ [ReadResult (Done 2000)])
            (exec RESET_ALL (fst Scenario.streaming),
             inr (AwaitRead Scenario.gen "phi3:latest" [] "a"))))
  = [mkTurn "hi" "ab" 2000].
Proof.
  exact (proj2 (proj2 (proj2 (proj2 (proj2
           (reset_does_not_cancel Sample.parse Scenario.gen "phi3:latest" []
              [Sample.response_line "b"] "a" 2000 (fst Scenario.streaming) eq_refl)))))).
Defined.

(** ** The candidates and the requests sent to the generation service *)

Lemma includes_false_not_In (x : string) (l : list string) :
  includes x l = false <-> ~ In x l.
Proof.
  rewrite <- includes_In. destruct (includes x l); split; intros; congruence.
Qed.

Lemma leading_truthy (override preferred : option string) (m : string) :
  In m (leading override preferred) -> Str.truthy m = true.
Proof.
  unfold leading, given.
  destruct override as [o|]; [destruct (Str.truthy o) eqn:Ho|];
    try (intros [<-|[]]; assumption);
    (destruct preferred as [p|]; [destruct (Str.truthy p) eqn:Hp|]);
    try (intros [<-|[]]; assumption); intros [].
Qed.

Lemma candidateModels_In (override preferred : option string) (m : string) :
  In m (candidateModels override preferred)
  <-> In m (leading override preferred) \/ In m defaultModels.
Proof.
  rewrite candidateModels_shape, in_app_iff, filter_In.
  destruct (includes m (leading override preferred)) eqn:Hinc.
  - apply includes_In in Hinc. cbn [negb]. intuition congruence.
  - cbn [negb]. tauto.
Qed.

Lemma candidateModels_truthy (override preferred : option string) (m : string) :
  In m (candidateModels override preferred) -> Str.truthy m = true.
Proof.
  intros Hm. apply candidateModels_In in Hm as [Hm|Hm].
  - now apply (leading_truthy override preferred).
  - cbn in Hm. intuition (subst; reflexivity).
Qed.

(** X6. Whatever override and preferred model there are, the candidate
    list contains each of the four default models exactly once, has
    four or five entries without repetition, and holds no empty name;
    so a stream that ends is never turned into "all models failed" by
    an empty model name. *)
Theorem candidates_cover_defaults (override preferred : option string) :
  (forall d, In d defaultModels -> In d (candidateModels override preferred))
  /\ (4 <= length (candidateModels override preferred) <= 5)%nat
  /\ NoDup (candidateModels override preferred)
  /\ Forall (fun m => Str.truthy m = true) (candidateModels override preferred)
  /\ (forall g m answer now s,
        In m (candidateModels override preferred) ->
        snd (complete g m answer now s)
        = inl (Success (g_question g) (final_answer answer) m (g_requestId g))).
Proof.
  pose proof (candidateModels_truthy override preferred) as Htruthy.
  assert (Hcover : forall d, In d defaultModels -> In d (candidateModels override preferred))
    by (intros d Hd; apply candidateModels_In; now right).
  assert (Hnodup : NoDup (candidateModels override preferred)).
  { rewrite candidateModels_shape. apply NoDup_app. split; [apply leading_NoDup|].
    split.
    - intros x Hx Hin. apply list_elem_of_In, filter_In in Hin as [_ Hin].
      apply Bool.negb_true_iff, includes_false_not_In in Hin.
      now apply Hin, list_elem_of_In.
    - apply NoDup_ListNoDup, List.NoDup_filter, NoDup_ListNoDup, defaultModels_NoDup. }
  split; [exact Hcover|].
  split.
  { split; [|apply candidateModels_length].
    change 4%nat with (length defaultModels).
    apply List.NoDup_incl_length; [apply NoDup_ListNoDup, defaultModels_NoDup|].
    exact Hcover. }
  split; [exact Hnodup|].
  split; [apply Forall_forall; intros m Hm; apply Htruthy; now apply list_elem_of_In|].
  intros g m answer now s Hm. now rewrite complete_spec by auto.
Qed.

Lemma candidates_cover_defaults_witness :
  snd (complete Scenario.gen "llama3" EmptyString 2000 initial)
  = inl (Success "hi" placeholder "llama3" Scenario.rid).
Proof.
  apply (proj2 (proj2 (proj2 (proj2 (candidates_cover_defaults (Some "qwen") None))))).
  vm_compute. tauto.
Defined.

Lemma network_partials (g : Gen) (m sofar : string) (ds : list string) :
  network (partials g m sofar ds) = [].
Proof.
  revert sofar. induction ds as [|d ds IH]; intros sofar; [reflexivity|].
  cbn [partials]. unfold network in *. cbn [List.filter is_network]. apply IH.
Qed.

Lemma network_plan_trace (JSON_parse : string -> option StreamLine) (g : Gen)
    (plan : list (string * Attempt)) :
  network (plan_trace JSON_parse g plan)
  = map (fun m => PostGenerate m (g_prompt g)) (map fst plan).
Proof.
  induction plan as [|[m a] plan IH]; [reflexivity|].
  unfold plan_trace in *. cbn [flat_map map fst]. rewrite network_app, IH.
  unfold attempt_trace. cbn [fst snd].
  change (network (?e :: ?t)) with (network ([e] ++ t)).
  rewrite network_app, network_partials. reflexivity.
Qed.

Section WholeRequest.

Variable JSON_parse : string -> option StreamLine.

(** X7. An accepted request whose transcription gave a question, whose
    first candidates fail and whose next candidate streams to the end
    returns that candidate's text. In between it has written the
    recording, sent one transcription request, and sent one generation
    request to each candidate up to the one that answered, in candidate
    order and all with the same prompt; the candidates after it are
    never contacted. Its events are the two status events, the partial
    events of the attempts, and the result, which comes last. *)
Theorem request_contacts_candidates_in_order (ar : VoiceArgs) (bytes : list Byte.byte)
    (e : Entry) (data : option SttData) (rnd : string) (plan : list (string * Attempt))
    (m : string) (chunks : list string) (now : Z) (rest : list string)
    (more : list Reply) (s : Main) :
  voiceStreamingActive s = false ->
  buffer ar = Some bytes -> fs_error e = None -> prep e = PrepOk ->
  Str.truthy (pick_transcription data) = true ->
  candidateModels (model ar) (voicePreferredModel s) = map fst plan ++ m :: rest ->
  all_failing plan = true ->
  let g := gen_of (startTs e) (pick_transcription data) rnd s in
  let st :=
    handle JSON_parse (Some ar) e
      (Transcribed (SttResolves data) rnd
         :: plan_replies (plan ++ [(m, Completes chunks now)]) ++ more) s in
  snd st
  = inl (Success (g_question g) (final_answer (text_of (deltas JSON_parse chunks))) m
           (g_requestId g))
  /\ trace (fst st)
     = trace s
       ++ [WriteFile (startTs e) bytes;
           Send (STATUS "stt" "Transcribing…" None None);
           PostTranscribe (startTs e) (language_or_en ar);
           Send (STATUS "llm" "Generating answer…" (Some (g_question g)) None);
           Send (STATUS "llm" "Generating answer…" (Some (g_question g))
                   (Some (g_requestId g)))]
       ++ plan_trace JSON_parse g (plan ++ [(m, Completes chunks now)])
       ++ [Send (RESULT (g_question g) (final_answer (text_of (deltas JSON_parse chunks)))
                   m (g_requestId g))]
  /\ network (trace (fst st))
     = network (trace s)
       ++ PostTranscribe (startTs e) (language_or_en ar)
       :: map (fun c => PostGenerate c (g_prompt g)) (map fst plan ++ [m])
  /\ voiceStreamingActive (fst st) = false.
Proof.
  intros Hidle Hb Hfs Hprep Htext Hcands Hall g st.
  assert (Hm : Str.truthy m = true).
  { apply (candidateModels_truthy (model ar) (voicePreferredModel s)).
    rewrite Hcands. apply in_or_app. right. now left. }
  assert (Hst : st
                = (completed g m (text_of (deltas JSON_parse chunks)) now
                     (emit (plan_trace JSON_parse g (plan ++ [(m, Completes chunks now)]))
                        (set_streaming true
                           (emit [WriteFile (startTs e) bytes;
                                  Send (STATUS "stt" "Transcribing…" None None);
                                  PostTranscribe (startTs e) (language_or_en ar);
                                  Send (STATUS "llm" "Generating answer…"
                                          (Some (g_question g)) None);
                                  Send (STATUS "llm" "Generating answer…"
                                          (Some (g_question g))
                                          (Some (g_requestId g)))] s))),
                   inl (Success (g_question g)
                          (final_answer (text_of (deltas JSON_parse chunks))) m
                          (g_requestId g)))).
  { subst st. unfold handle. rewrite (invoke_accepted ar bytes) by assumption.
    cbn [run resume]. rewrite after_transcribe_question by assumption.
    cbn [voicePreferredModel emit]. rewrite Hcands.
    rewrite emit_emit. cbn [app].
    rewrite run_plan_completes by assumption.
    rewrite complete_spec by assumption. reflexivity. }
  rewrite Hst. cbn [fst snd].
  split; [reflexivity|]. split; [|split; [|reflexivity]].
  - cbn [completed trace emit set_streaming]. now rewrite <- !app_assoc.
  - cbn [completed trace emit set_streaming].
    rewrite !network_app, network_plan_trace, map_app. cbn [map fst].
    cbn. now rewrite app_nil_r, <- app_assoc.
Qed.

End WholeRequest.

Lemma request_contacts_candidates_in_order_witness :
  network
    (trace (fst (handle Sample.parse Scenario.args (Scenario.entry 1000)
                   (Scenario.heard "hi"
                      :: plan_replies ([("phi3:latest", Refused 500 true)]
                                         ++ [("mistral:latest",
                                              Completes [Sample.stream_ab] 2000)])
                      ++ []) initial)))
  = network (trace initial)
    ++ PostTranscribe 1000 "en"
    :: map (fun c => PostGenerate c (g_prompt Scenario.gen))
         (map fst [("phi3:latest", Refused 500 true)] ++ ["mistral:latest"]).
Proof.
  exact (proj1 (proj2 (proj2
           (request_contacts_candidates_in_order Sample.parse
              (mkArgs (Some [x00]) None None) [x00] (Scenario.entry 1000)
              (Some (mkStt "hi" EmptyString EmptyString)) "k3x9qa"
              [("phi3:latest", Refused 500 true)] "mistral:latest" [Sample.stream_ab] 2000
              ["llama3"; "gemma3:12b-it-qat"] [] initial
              eq_refl eq_refl eq_refl eq_refl eq_refl eq_refl eq_refl)))).
Defined.

(** ** Chunks and lines *)

Lemma split_nl_nonempty (s : string) : Str.split_nl s <> [].
Proof.
  induction s as [|c s IH]; cbn [Str.split_nl]; [discriminate|].
  destruct (Ascii.eqb c "010"); [discriminate|].
  destruct (Str.split_nl s); discriminate.
Qed.

Lemma split_nl_app (a b : string) :
  Str.split_nl (a +:+ Str.nl +:+ b) = Str.split_nl a ++ Str.split_nl b.
Proof.
  induction a as [|c a IH].
  - reflexivity.
  - rewrite str_app_cons. cbn [Str.split_nl]. rewrite IH.
    destruct (Ascii.eqb c "010"); [reflexivity|].
    pose proof (split_nl_nonempty a) as Hne.
    destruct (Str.split_nl a) as [|piece pieces]; [congruence | reflexivity].
Qed.

Lemma lines_of_app (a b : string) :
  lines_of (a +:+ Str.nl +:+ b) = lines_of a ++ lines_of b.
Proof. unfold lines_of. now rewrite split_nl_app, List.filter_app. Qed.

Section Chunking.

Variable JSON_parse : string -> option StreamLine.

Lemma deltas_of_chunk_app (a b : string) :
  deltas_of_chunk JSON_parse (a +:+ Str.nl +:+ b)
  = deltas_of_chunk JSON_parse a ++ deltas_of_chunk JSON_parse b.
Proof. unfold deltas_of_chunk. now rewrite lines_of_app, flat_map_app. Qed.

(** X8. Where the stream is cut into chunks does not matter as long as
    the cuts fall on line ends: a chunk made of two pieces joined by a
    line feed produces the same deltas, the same partial events and the
    same text as the two pieces read one after the other, and a line
    feed at the end of a chunk adds nothing. *)
Theorem chunks_cut_at_line_ends (g : Gen) (m : string) (rest : list string)
    (a b : string) (more : list string) (sofar : string) (s : Main) :
  deltas JSON_parse ((a +:+ Str.nl +:+ b) :: more) = deltas JSON_parse (a :: b :: more)
  /\ run JSON_parse [ReadResult (Chunk (a +:+ Str.nl +:+ b))]
       (s, inr (AwaitRead g m rest sofar))
     = run JSON_parse [ReadResult (Chunk a); ReadResult (Chunk b)]
         (s, inr (AwaitRead g m rest sofar))
  /\ deltas JSON_parse [a +:+ Str.nl] = deltas JSON_parse [a]
  /\ resume JSON_parse (AwaitRead g m rest sofar) (ReadResult (Chunk (a +:+ Str.nl))) s
     = resume JSON_parse (AwaitRead g m rest sofar) (ReadResult (Chunk a)) s.
Proof.
  assert (Hnl : deltas_of_chunk JSON_parse (a +:+ Str.nl)
                = deltas_of_chunk JSON_parse a).
  { rewrite <- (str_app_empty_r (a +:+ Str.nl)), str_app_assoc, deltas_of_chunk_app.
    apply app_nil_r. }
  split; [unfold deltas; cbn [flat_map]; now rewrite deltas_of_chunk_app, app_assoc|].
  split.
  - change [ReadResult (Chunk (a +:+ Str.nl +:+ b))]
      with (map (fun c => ReadResult (Chunk c)) [a +:+ Str.nl +:+ b]).
    change [ReadResult (Chunk a); ReadResult (Chunk b)]
      with (map (fun c => ReadResult (Chunk c)) [a; b]).
    rewrite !run_chunks. unfold deltas. cbn [flat_map].
    now rewrite deltas_of_chunk_app, !app_nil_r.
  - split; [unfold deltas; cbn [flat_map]; now rewrite Hnl|].
    cbn [resume]. now rewrite !on_chunk_deltas, Hnl.
Qed.

End Chunking.

(** ** The newest turn and the next prompt *)

Lemma select_turns_newest (limit : nat) (h : list VoiceTurn) (t : VoiceTurn) :
  (String.length (snippet t) <= limit)%nat ->
  exists kept, select_turns limit (h ++ [t]) = kept ++ [t].
Proof.
  intros Hfit. unfold select_turns. rewrite rev_app_distr. cbn [rev app select_loop].
  cbv zeta.
  destruct (Nat.ltb_spec limit (0 + String.length (snippet t))) as [Hover|_]; [lia|].
  destruct (select_loop_prefix limit (rev h) [t] (0 + String.length (snippet t)))
    as (taken & left_out & _ & -> & _).
  exists (rev taken). rewrite rev_app_distr. reflexivity.
Qed.

Lemma join_snoc (sep : string) (parts : list string) (x : string) :
  exists before, Str.join sep (parts ++ [x]) = before +:+ x.
Proof.
  induction parts as [|p parts IH]; [now exists EmptyString|].
  destruct IH as [before Hb]. cbn [app].
  destruct (parts ++ [x]) as [|y ys] eqn:Hy; [now destruct parts|].
  exists (p +:+ sep +:+ before).
  change (Str.join sep (p :: y :: ys)) with (p +:+ sep +:+ Str.join sep (y :: ys)).
  now rewrite Hb, !str_app_assoc.
Qed.

Lemma push_turn_snoc (t : VoiceTurn) (h : list VoiceTurn) :
  exists kept, push_turn t h = kept ++ [t].
Proof.
  rewrite push_turn_slice. unfold slice_last. rewrite length_app. cbn [length].
  rewrite drop_app_le by (unfold VOICE_HISTORY_MAX_TURNS; lia). eauto.
Qed.

(** X9. The exchange of a request that succeeded with the history on
    is in the prompt of the next request, word for word and last in
    the history section, right before the new question, provided its
    formatted pair fits the budget of 2500 characters on its own. *)
Theorem newest_turn_in_next_prompt (g : Gen) (m answer : string) (now : Z) (s : Main)
    (question : string) :
  Str.truthy m = true ->
  voiceHistoryEnabled s = true ->
  (String.length (snippet (mkTurn (g_question g) (final_answer answer) now))
     <= VOICE_HISTORY_CHAR_LIMIT)%nat ->
  exists before,
    promptBase (fst (complete g m answer now s)) question
    = before +:+ "Q: " +:+ g_question g +:+ Str.nl +:+ "A: " +:+ final_answer answer
        +:+ Str.nl +:+ Str.nl
        +:+ "Question: " +:+ question +:+ Str.nl +:+ Str.nl +:+ "Answer:".
Proof.
  intros Hm Hen Hfit. rewrite complete_spec by assumption. cbn [fst].
  unfold promptBase.
  cbn [completed voiceContext voiceHistoryEnabled voiceHistory]. rewrite Hen.
  destruct (push_turn_snoc (mkTurn (g_question g) (final_answer answer) now)
              (voiceHistory s)) as [kept ->].
  unfold historySection. rewrite historySection_selected.
  destruct (select_turns_newest VOICE_HISTORY_CHAR_LIMIT kept _ Hfit) as [sel ->].
  destruct (sel ++ [mkTurn (g_question g) (final_answer answer) now]) as [|t0 more] eqn:Hsel;
    [now destruct sel|].
  rewrite <- Hsel, map_app. cbn [map].
  destruct (join_snoc (Str.nl +:+ Str.nl) (map block sel)
              (block (mkTurn (g_question g) (final_answer answer) now)))
    as [before ->].
  exists (systemPrefix (voiceContext s) +:+ history_header +:+ before).
  unfold block. cbn [q a]. now rewrite !str_app_assoc.
Qed.

Lemma newest_turn_in_next_prompt_witness :
  exists before,
    promptBase (fst (complete Scenario.gen "phi3:latest" "ab" 2000 initial)) "and then?"
    = before +:+ "Q: " +:+ "hi" +:+ Str.nl +:+ "A: " +:+ final_answer "ab"
        +:+ Str.nl +:+ Str.nl
        +:+ "Question: " +:+ "and then?" +:+ Str.nl +:+ Str.nl +:+ "Answer:".
Proof.
  apply (newest_turn_in_next_prompt Scenario.gen "phi3:latest" "ab" 2000 initial
           "and then?" eq_refl eq_refl).
  vm_compute. lia.
Defined.

(** ** Request ids *)

Lemma uint_dashless (d : Decimal.uint) : dashless (NilEmpty.string_of_uint d) = true.
Proof. induction d; cbn [NilEmpty.string_of_uint dashless]; try reflexivity; exact IHd. Qed.

Lemma of_Z_dashless (z : Z) : 0 <= z -> dashless (Str.of_Z z) = true.
Proof.
  intros Hz. unfold Str.of_Z. destruct z as [|p|p]; [reflexivity| |lia].
  cbn [Z.to_int NilZero.string_of_int]. unfold NilZero.string_of_uint.
  destruct (Pos.to_uint p) eqn:Hp; try reflexivity;
    rewrite <- Hp; apply uint_dashless.
Qed.

Lemma of_Z_inj (a b : Z) : Str.of_Z a = Str.of_Z b -> a = b.
Proof.
  unfold Str.of_Z. intros Heq. apply DecimalZ.to_int_inj.
  assert (Hok : forall z, Z.to_int z <> Decimal.Pos Decimal.Nil
                          /\ Z.to_int z <> Decimal.Neg Decimal.Nil).
  { intros [|p|p]; cbn [Z.to_int]; split; try discriminate;
      intros [= H]; now apply DecimalPos.Unsigned.to_uint_nonnil in H. }
  destruct (Hok a) as [Ha1 Ha2]. destruct (Hok b) as [Hb1 Hb2].
  pose proof (NilZero.isi _ Ha1 Ha2) as Ia. pose proof (NilZero.isi _ Hb1 Hb2) as Ib.
  rewrite Heq in Ia. congruence.
Qed.

Lemma dash_split (a b r1 r2 : string) :
  dashless a = true -> dashless b = true ->
  a +:+ "-" +:+ r1 = b +:+ "-" +:+ r2 -> a = b /\ r1 = r2.
Proof.
  revert b. induction a as [|c a IH]; intros [|d b] Ha Hb Heq.
  - now injection Heq.
  - rewrite str_app_cons in Heq. injection Heq as <- _.
    cbn in Hb. discriminate.
  - rewrite str_app_cons in Heq. injection Heq as -> _.
    cbn in Ha. discriminate.
  - rewrite !str_app_cons in Heq. injection Heq as -> Heq.
    cbn [dashless] in Ha, Hb.
    apply andb_prop in Ha as [_ Ha]. apply andb_prop in Hb as [_ Hb].
    destruct (IH b Ha Hb Heq) as [-> ->]. now split.
Qed.

(** X10. The request id is the start time in decimal, a hyphen, and
    the random suffix. Two requests started at times that are not
    negative have the same id only if they started in the same
    millisecond and drew the same suffix. *)
Theorem request_ids_differ (t1 t2 : Z) (q1 q2 r1 r2 : string) (s1 s2 : Main) :
  0 <= t1 -> 0 <= t2 ->
  g_requestId (gen_of t1 q1 r1 s1) = Str.of_Z t1 +:+ "-" +:+ r1
  /\ (g_requestId (gen_of t1 q1 r1 s1) = g_requestId (gen_of t2 q2 r2 s2) <->
      t1 = t2 /\ r1 = r2).
Proof.
  intros H1 H2. split; [reflexivity|]. cbn [g_requestId gen_of]. split.
  - intros Heq.
    destruct (dash_split _ _ _ _ (of_Z_dashless t1 H1) (of_Z_dashless t2 H2) Heq)
      as [Ht Hr].
    split; [now apply of_Z_inj | exact Hr].
  - now intros [-> ->].
Qed.

Lemma request_ids_differ_witness :
  g_requestId (gen_of 1000 "hi" "k3x9qa" initial) = "1000-k3x9qa"
  /\ g_requestId (gen_of 1000 "hi" "k3x9qa" initial)
     <> g_requestId (gen_of 1001 "hi" "k3x9qa" initial).
Proof.
  destruct (request_ids_differ 1000 1001 "hi" "hi" "k3x9qa" "k3x9qa" initial initial)
    as [Hid Hiff]; [lia | lia |].
  split; [exact Hid|]. intros Heq. apply Hiff in Heq as [Ht _]. discriminate.
Defined.

(** ** The overlay window *)

Section WindowFacts.

Import QArith Qround Qminmax Lqa.
Import Window.
Local Open Scope Q_scope.

Lemma round_le (x : Q) : inject_Z (round x) <= x + (1 # 2).
Proof. apply Qfloor_le. Qed.

Lemma round_gt (x : Q) : x - (1 # 2) < inject_Z (round x).
Proof.
  pose proof (Qlt_floor (x + (1 # 2))) as H. fold (round x) in H.
  rewrite inject_Z_plus in H. change (inject_Z 1) with 1 in H. lra.
Qed.


(** What a programmatic move leaves behind: the window is where it was
    asked to go, and the position the module tracks is the one it had
    or, when the window moved, the one of the window. *)
Lemma setPosition_spec (x y : Z) (w : BrowserWindow) (s : State) :
  let s' := setPosition x y w s in
  mainWindow s'
  = Some (with_bounds {| b_x := inject_Z x; b_y := inject_Z y;
                         b_width := b_width (getBounds w);
                         b_height := b_height (getBounds w) |} w)
  /\ windowSize s' = windowSize s /\ screenWidth s' = screenWidth s
  /\ screenHeight s' = screenHeight s /\ step s' = step s
  /\ isWindowVisible s' = isWindowVisible s
  /\ (currentX s' = currentX s \/ currentX s' = inject_Z x)
  /\ (currentY s' = currentY s \/ currentY s' = inject_Z y).
Proof.
  unfold setPosition, place, same_size. cbn [b_width b_height].
  rewrite !Qeq_bool_refl. cbn [andb].
  destruct (same_position _ w); cbn; repeat split; auto.
Qed.

Lemma moveWindowHorizontal_live (f : Q -> Q) (s : State) (w : BrowserWindow) :
  mainWindow s = Some w -> isDestroyed w = false ->
  moveWindowHorizontal f s
  = Returns (setPosition (round (f (currentX s))) (round (currentY s)) w
               (set_x (f (currentX s)) s)).
Proof. intros W D. unfold moveWindowHorizontal. now rewrite W, D. Qed.

(** X11. On a live window a horizontal move puts the window at the
    clamped position rounded to a pixel, whatever the position was
    before: after a move to the left the window and the position the
    module tracks are less than half a pixel left of the lower limit
    at most, after a move to the right at most half a pixel right of
    the upper one. The tracked position is the clamped value or, once
    the move listener has run, the pixel the window is at. *)
Theorem horizontal_moves_clamp (s : State) (w : BrowserWindow) :
  mainWindow s = Some w -> isDestroyed w = false ->
  exists l r wl wr,
    moveWindowLeft s = Returns l /\ moveWindowRight s = Returns r
    /\ mainWindow l = Some wl /\ mainWindow r = Some wr
    /\ b_x (getBounds wl) = inject_Z (round (Qmax (minX s) (currentX s - step s)))
    /\ b_x (getBounds wr) = inject_Z (round (Qmin (maxX s) (currentX s + step s)))
    /\ (currentX l = Qmax (minX s) (currentX s - step s)
        \/ currentX l = b_x (getBounds wl))
    /\ (currentX r = Qmin (maxX s) (currentX s + step s)
        \/ currentX r = b_x (getBounds wr))
    /\ minX l = minX s /\ maxX r = maxX s
    /\ minX s - (1 # 2) < b_x (getBounds wl) /\ minX s - (1 # 2) < currentX l
    /\ b_x (getBounds wr) <= maxX s + (1 # 2) /\ currentX r <= maxX s + (1 # 2).
Proof.
  intros W D. unfold moveWindowLeft, moveWindowRight.
  rewrite !(moveWindowHorizontal_live _ s w W D).
  fold (minX s). fold (maxX s).
  set (fl := Qmax (minX s) (currentX s - step s)).
  set (fr := Qmin (maxX s) (currentX s + step s)).
  destruct (setPosition_spec (round fl) (round (currentY s)) w (set_x fl s))
    as (Lw & Lsize & Lsw & _ & _ & _ & Lx & _).
  destruct (setPosition_spec (round fr) (round (currentY s)) w (set_x fr s))
    as (Rw & Rsize & Rsw & _ & _ & _ & Rx & _).
  cbn [currentX currentY set_x windowSize screenWidth] in *.
  pose proof (Q.le_max_l (minX s) (currentX s - step s)) as Hl. fold fl in Hl.
  pose proof (Q.le_min_l (maxX s) (currentX s + step s)) as Hr. fold fr in Hr.
  pose proof (round_gt fl) as Gl. pose proof (round_le fr) as Gr.
  eexists. eexists. eexists. eexists.
  split; [reflexivity|]. split; [reflexivity|].
  split; [exact Lw|]. split; [exact Rw|].
  cbn [getBounds with_bounds b_x].
  split; [reflexivity|]. split; [reflexivity|].
  split; [exact Lx|]. split; [exact Rx|].
  split; [unfold minX, width_or_0; now rewrite Lsize|].
  split; [unfold maxX, width_or_0; now rewrite Rsize, Rsw|].
  split; [lra|]. split; [destruct Lx as [-> | ->]; lra|].
  split; [lra|]. destruct Rx as [-> | ->]; lra.
Qed.

Lemma horizontal_moves_clamp_witness :
  exists l r wl wr,
    moveWindowLeft Samples.odd = Returns l /\ moveWindowRight Samples.odd = Returns r
    /\ mainWindow l = Some wl /\ mainWindow r = Some wr
    /\ b_x (getBounds wl)
       = inject_Z (round (Qmax (minX Samples.odd)
                            (currentX Samples.odd - step Samples.odd)))
    /\ b_x (getBounds wr)
       = inject_Z (round (Qmin (maxX Samples.odd)
                            (currentX Samples.odd + step Samples.odd)))
    /\ (currentX l = Qmax (minX Samples.odd) (currentX Samples.odd - step Samples.odd)
        \/ currentX l = b_x (getBounds wl))
    /\ (currentX r = Qmin (maxX Samples.odd) (currentX Samples.odd + step Samples.odd)
        \/ currentX r = b_x (getBounds wr))
    /\ minX l = minX Samples.odd /\ maxX r = maxX Samples.odd
    /\ minX Samples.odd - (1 # 2) < b_x (getBounds wl)
    /\ minX Samples.odd - (1 # 2) < currentX l
    /\ b_x (getBounds wr) <= maxX Samples.odd + (1 # 2)
    /\ currentX r <= maxX Samples.odd + (1 # 2).
Proof.
  apply (horizontal_moves_clamp Samples.odd Samples.odd_window); reflexivity.
Defined.

Lemma moveWindowVertical_live (f : Q -> Q) (s : State) (w : BrowserWindow) :
  mainWindow s = Some w -> isDestroyed w = false ->
  moveWindowVertical f s
  = if Qle_bool (maxUpLimit s) (f (currentY s))
       && Qle_bool (f (currentY s)) (maxDownLimit s)
    then Returns (setPosition (round (currentX s)) (round (f (currentY s))) w
                    (set_y (f (currentY s)) s))
    else Returns s.
Proof.
  intros W D. unfold moveWindowVertical. rewrite W, D.
  now destruct (Qle_bool _ _ && Qle_bool _ _).
Qed.

Lemma moveWindowVertical_guarded (f : Q -> Q) (s : State) (w : BrowserWindow) :
  mainWindow s = Some w -> isDestroyed w = false ->
  (f (currentY s) < maxUpLimit s \/ maxDownLimit s < f (currentY s) ->
   moveWindowVertical f s = Returns s)
  /\ (moveWindowVertical f s = Returns s
      \/ exists s' w',
           moveWindowVertical f s = Returns s' /\ mainWindow s' = Some w'
           /\ maxUpLimit s' = maxUpLimit s /\ maxDownLimit s' = maxDownLimit s
           /\ maxUpLimit s - (1 # 2) < b_y (getBounds w')
           /\ b_y (getBounds w') <= maxDownLimit s + (1 # 2)
           /\ maxUpLimit s - (1 # 2) < currentY s'
           /\ currentY s' <= maxDownLimit s + (1 # 2)).
Proof.
  intros W D. rewrite (moveWindowVertical_live f s w W D).
  destruct (Qle_bool _ _ && Qle_bool _ _) eqn:E.
  - apply andb_prop in E as [E1 E2]. apply Qle_bool_iff in E1, E2.
    split; [intros [H | H]; lra|]. right.
    set (newY := f (currentY s)) in *.
    destruct (setPosition_spec (round (currentX s)) (round newY) w (set_y newY s))
      as (Sw & Ssize & _ & Ssh & _ & _ & _ & Sy).
    cbn [currentX currentY set_y windowSize screenHeight] in *.
    pose proof (round_gt newY) as G1. pose proof (round_le newY) as G2.
    eexists. eexists. split; [reflexivity|]. split; [exact Sw|].
    split; [unfold maxUpLimit, height_or_0; now rewrite Ssize|].
    split; [unfold maxDownLimit, height_or_0; now rewrite Ssize, Ssh|].
    cbn [getBounds with_bounds b_y].
    split; [lra|]. split; [lra|].
    destruct Sy as [-> | ->]; split; lra.
  - split; [reflexivity | now left].
Qed.

(** X12. On a live window a vertical move either changes nothing or
    leaves the window and the position the module tracks within half
    a pixel of the vertical limits, which stay what they were. A
    position more than a step outside the limits is out of reach of
    the vertical moves: both return without changing anything. *)
Theorem vertical_moves_guarded (s : State) (w : BrowserWindow) :
  mainWindow s = Some w -> isDestroyed w = false -> 0 <= step s ->
  (maxDownLimit s + step s < currentY s \/ currentY s < maxUpLimit s - step s ->
   moveWindowUp s = Returns s /\ moveWindowDown s = Returns s)
  /\ forall move, In move [moveWindowUp; moveWindowDown] ->
     move s = Returns s
     \/ exists s' w',
          move s = Returns s' /\ mainWindow s' = Some w'
          /\ maxUpLimit s' = maxUpLimit s /\ maxDownLimit s' = maxDownLimit s
          /\ maxUpLimit s - (1 # 2) < b_y (getBounds w')
          /\ b_y (getBounds w') <= maxDownLimit s + (1 # 2)
          /\ maxUpLimit s - (1 # 2) < currentY s'
          /\ currentY s' <= maxDownLimit s + (1 # 2).
Proof.
  intros W D Hstep. split.
  - intros H. unfold moveWindowUp, moveWindowDown.
    split; apply (moveWindowVertical_guarded _ s w W D); destruct H as [H | H]; lra.
  - intros move Hin. cbn in Hin. destruct Hin as [<- | [<- | []]].
    + apply (moveWindowVertical_guarded _ s w W D).
    + apply (moveWindowVertical_guarded _ s w W D).
Qed.

Lemma vertical_moves_guarded_witness :
  moveWindowUp Samples.below = Returns Samples.below
  /\ moveWindowDown Samples.below = Returns Samples.below.
Proof.
  apply (vertical_moves_guarded Samples.below Samples.below_window).
  - reflexivity.
  - reflexivity.
  - unfold Qle; simpl; lia.
  - left. unfold Qlt; simpl; lia.
Defined.




(** X14. Hiding a live window and showing it again puts it back where
    it was, with the size it had, taking mouse events and marked
    visible; in between it is transparent and ignores the mouse. The
    opacity after the round trip is 1 whatever it was before. *)
Theorem hide_then_show (s : State) (w : BrowserWindow) :
  mainWindow s = Some w -> isDestroyed w = false ->
  exists h w',
    hideMainWindow s = Returns h
    /\ isWindowVisible h = false
    /\ mainWindow h = Some (setOpacity 0 (setIgnoreMouseEvents true w))
    /\ showMainWindow h = Returns (set_visible true (set_window (Some w') h))
    /\ getBounds w' = getBounds w
    /\ getOpacity w' = 1
    /\ ignoresMouse w' = false
    /\ isDestroyed w' = false.
Proof.
  intros W D. unfold hideMainWindow, not_destroyed. rewrite W, D. cbn [negb].
  eexists. eexists. split; [reflexivity|]. split; [reflexivity|].
  split; [reflexivity|].
  unfold showMainWindow, not_destroyed.
  cbn [mainWindow set_visible set_window set_size set_position windowPosition
       windowSize isDestroyed setOpacity setIgnoreMouseEvents].
  rewrite D. cbn [negb]. unfold setBounds, same_position, same_size.
  cbn [b_x b_y b_width b_height getBounds setOpacity setIgnoreMouseEvents].
  rewrite !Qeq_bool_refl. cbn [andb].
  split; [reflexivity|]. cbn. now destruct (getBounds w).
Qed.

Lemma hide_then_show_witness :
  exists h w',
    hideMainWindow Samples.dimmed = Returns h
    /\ isWindowVisible h = false
    /\ mainWindow h
       = Some (setOpacity 0 (setIgnoreMouseEvents true (setOpacity (1 # 2) Samples.window)))
    /\ showMainWindow h = Returns (set_visible true (set_window (Some w') h))
    /\ getBounds w' = getBounds (setOpacity (1 # 2) Samples.window)
    /\ getOpacity w' = 1
    /\ ignoresMouse w' = false
    /\ isDestroyed w' = false.
Proof.
  apply (hide_then_show Samples.dimmed (setOpacity (1 # 2) Samples.window)); reflexivity.
Defined.

(** X15. Once the window is closed the visibility functions and
    [setWindowDimensions] throw instead of returning, because the
    guard [!state.mainWindow?.isDestroyed()] is true for [null]; the
    move functions and the move and resize listeners return and change
    nothing. *)
Theorem closed_window_calls (s : State) (workArea_width width height : Q) :
  let c := handleWindowClosed s in
  mainWindow c = None
  /\ toggleMainWindow c = Throws c
  /\ hideMainWindow c = Throws c
  /\ showMainWindow c = Throws c
  /\ setWindowDimensions workArea_width width height c = Throws c
  /\ moveWindowLeft c = Returns c /\ moveWindowRight c = Returns c
  /\ moveWindowUp c = Returns c /\ moveWindowDown c = Returns c
  /\ handleWindowMove c = c /\ handleWindowResize c = c.
Proof.
  cbn. unfold toggleMainWindow. cbn. repeat split.
Qed.

End WindowFacts.

(** ** The voice panel *)

Section PanelFacts.

Variable JSON_parse : string -> option StreamLine.

Lemma replay_app (t1 t2 : list Effect) (st : Panel.VoiceState) :
  Panel.replay (t1 ++ t2) st = Panel.replay t2 (Panel.replay t1 st).
Proof. unfold Panel.replay. now rewrite omap_app, fold_left_app. Qed.

Lemma replay_last (tr : list Effect) (e : Effect) (st : Panel.VoiceState) :
  last tr = Some e ->
  Panel.replay tr st = Panel.replay [e] (Panel.replay (removelast tr) st).
Proof.
  intros H. rewrite <- replay_app. f_equal.
  destruct tr as [|x tr] using rev_ind; [discriminate|].
  rewrite last_snoc in H. injection H as ->.
  now rewrite removelast_last.
Qed.

(** X16. When a request that was not turned away at the guard
    returns, the panel that has received the events of the main
    process shows what the handler returned, whatever it showed
    before: idle with the question, the answer, the model and the
    request id of a success, or idle with the error message and
    nothing else. No event of the request comes after its result or
    error event. *)
Theorem panel_shows_the_outcome (args : option VoiceArgs) (e : Entry)
    (replies : list Reply) (s s' : Main) (o : Outcome) (st : Panel.VoiceState) :
  voiceStreamingActive s = false ->
  handle JSON_parse args e replies s = (s', inl o) ->
  Panel.replay (trace s') st = Panel.shown o.
Proof.
  intros Hfree Hrun.
  pose proof (settled_handle JSON_parse args e replies s Hfree) as Hs.
  rewrite Hrun in Hs. unfold settled in Hs. cbn [fst snd] in Hs.
  destruct o as [msg|question answer usedModel requestId].
  - destruct Hs as (_ & _ & Hlast & _).
    now rewrite (replay_last _ _ st Hlast).
  - destruct Hs as (_ & _ & _ & _ & _ & Hlast & _).
    now rewrite (replay_last _ _ st Hlast).
Qed.

Lemma replay_partials (g : Gen) (m sofar : string) (ds : list string)
    (st : Panel.VoiceState) :
  ds <> [] ->
  let st' := Panel.replay (partials g m sofar ds) st in
  Panel.mode st' = processing
  /\ Panel.answer st' = Some (text_onto sofar ds)
  /\ Panel.model st' = Some m
  /\ Panel.requestId st' = Some (g_requestId g)
  /\ Panel.question st' = Panel.question st.
Proof.
  revert sofar st. induction ds as [|d more IH]; intros sofar st Hne; [easy|].
  set (st1 := Panel.onPartial (g_requestId g) (sofar +:+ d) m st).
  assert (H1 : Panel.mode st1 = processing
               /\ Panel.answer st1 = Some (sofar +:+ d)
               /\ Panel.model st1 = Some m
               /\ Panel.requestId st1 = Some (g_requestId g)
               /\ Panel.question st1 = Panel.question st).
  { unfold st1, Panel.onPartial. now destruct (Panel.other_request _ _). }
  change (Panel.replay (partials g m sofar (d :: more)) st)
    with (Panel.replay (partials g m (sofar +:+ d) more) st1).
  change (text_onto sofar (d :: more)) with (text_onto (sofar +:+ d) more).
  destruct more as [|d' more'].
  - exact H1.
  - destruct (IH (sofar +:+ d) st1) as (E1 & E2 & E3 & E4 & E5); [easy|].
    destruct H1 as (_ & _ & _ & _ & Hq).
    cbv zeta. now rewrite E1, E2, E3, E4, E5, Hq.
Qed.

(** X17. An abort in the panel does not last while the stream goes
    on. The panel that was processing is idle after [abortProcessing],
    with nothing to show; the events of the next chunk that carries
    text put it back into processing, showing the whole answer so far
    under the id of the request, and the question is gone. *)
Theorem abort_is_undone_by_the_stream (g : Gen) (m : string) (rest : list string)
    (sofar txt : string) (s : Main) (st : Panel.VoiceState) :
  Panel.mode st = processing ->
  deltas_of_chunk JSON_parse txt <> [] ->
  let s' := fst (resume JSON_parse (AwaitRead g m rest sofar) (ReadResult (Chunk txt)) s) in
  let st' := Panel.replay (drop (length (trace s)) (trace s')) (Panel.abortProcessing st) in
  Panel.abortProcessing st = Panel.idle_state
  /\ Panel.mode st' = processing
  /\ Panel.answer st' = Some (text_onto sofar (deltas_of_chunk JSON_parse txt))
  /\ Panel.model st' = Some m
  /\ Panel.requestId st' = Some (g_requestId g)
  /\ Panel.question st' = None.
Proof.
  intros Hmode Hne. cbn [resume]. rewrite on_chunk_deltas. cbn [fst snd emit trace].
  rewrite drop_app_length.
  assert (Ha : Panel.abortProcessing st = Panel.idle_state).
  { unfold Panel.abortProcessing. now rewrite Hmode. }
  rewrite Ha. split; [reflexivity|].
  apply (replay_partials g m sofar _ Panel.idle_state Hne).
Qed.


End PanelFacts.

Lemma panel_shows_the_outcome_witness :
  Panel.replay
    (trace (fst (handle Sample.parse Scenario.args (Scenario.entry 1000)
                   (r_replies (Scenario.request 1000)) initial)))
    (Panel.onstop Panel.idle_state)
  = Panel.shown (Success "hi" "ab" "phi3:latest" Scenario.rid).
Proof.
  apply (panel_shows_the_outcome Sample.parse Scenario.args (Scenario.entry 1000)
           (r_replies (Scenario.request 1000)) initial).
  - reflexivity.
  - vm_compute. reflexivity.
Defined.

Lemma abort_is_undone_by_the_stream_witness :
  Panel.abortProcessing (Panel.onstop Panel.idle_state) = Panel.idle_state
  /\ Panel.mode
       (Panel.replay
          (drop (length (trace (fst Scenario.streaming)))
             (trace (fst (resume Sample.parse Scenario.pending
                            (ReadResult (Chunk (Sample.response_line "b" +:+ Str.nl)))
                            (fst Scenario.streaming)))))
          (Panel.abortProcessing (Panel.onstop Panel.idle_state)))
     = processing.
Proof.
  destruct (abort_is_undone_by_the_stream Sample.parse Scenario.gen "phi3:latest"
              ["mistral:latest"; "llama3"; "gemma3:12b-it-qat"] "a"
              (Sample.response_line "b" +:+ Str.nl) (fst Scenario.streaming)
              (Panel.onstop Panel.idle_state))
    as (H1 & H2 & _).
  - reflexivity.
  - vm_compute. discriminate.
  - split; [exact H1 | exact H2].
Defined.

(** ** The elapsed time *)

Lemma uint_digits (d : Decimal.uint) : digits_only (NilEmpty.string_of_uint d) = true.
Proof. induction d; cbn [NilEmpty.string_of_uint digits_only]; try reflexivity; exact IHd. Qed.

Lemma of_Z_digits (z : Z) : 0 <= z -> digits_only (Str.of_Z z) = true.
Proof.
  intros Hz. unfold Str.of_Z. destruct z as [|p|p]; [reflexivity| |lia].
  cbn [Z.to_int NilZero.string_of_int]. unfold NilZero.string_of_uint.
  destruct (Pos.to_uint p) eqn:Hp; try reflexivity;
    rewrite <- Hp; apply uint_digits.
Qed.

Lemma digits_split (c d : ascii) (a b r1 r2 : string) :
  is_digit c = false -> is_digit d = false ->
  digits_only a = true -> digits_only b = true ->
  a +:+ String c r1 = b +:+ String d r2 -> a = b /\ c = d /\ r1 = r2.
Proof.
  intros Hc Hd. revert b. induction a as [|x a IH]; intros [|y b] Ha Hb Heq.
  - now injection Heq.
  - rewrite str_app_cons in Heq. injection Heq as -> _.
    cbn in Hb. rewrite Hc in Hb. discriminate.
  - rewrite str_app_cons in Heq. injection Heq as -> _.
    cbn in Ha. rewrite Hd in Ha. discriminate.
  - rewrite !str_app_cons in Heq. injection Heq as -> Heq.
    cbn [digits_only] in Ha, Hb.
    apply andb_prop in Ha as [_ Ha]. apply andb_prop in Hb as [_ Hb].
    destruct (IH b Ha Hb Heq) as (-> & -> & ->). now repeat split.
Qed.

Lemma padStart2_seconds (a b : Z) :
  0 <= a < 60 -> 0 <= b < 60 ->
  Panel.padStart2 (Str.of_Z a) = Panel.padStart2 (Str.of_Z b) -> a = b.
Proof.
  intros Ha Hb Heq.
  assert (Hall : forallb (fun x => forallb (fun y =>
                   implb (String.eqb (Panel.padStart2 (Str.of_Z (Z.of_nat x)))
                                     (Panel.padStart2 (Str.of_Z (Z.of_nat y))))
                         (x =? y)%nat) (seq 0 60)) (seq 0 60) = true)
    by (vm_compute; reflexivity).
  rewrite forallb_forall in Hall.
  specialize (Hall (Z.to_nat a)). rewrite forallb_forall in Hall.
  specialize (Hall ltac:(apply in_seq; lia) (Z.to_nat b) ltac:(apply in_seq; lia)).
  rewrite !Z2Nat.id in Hall by lia. rewrite Heq, String.eqb_refl in Hall.
  cbn [implb] in Hall. apply Nat.eqb_eq in Hall. lia.
Qed.

(** X18. Two elapsed times that are not negative are printed alike
    exactly when they lie in the same second: below a minute as the
    seconds followed by [s], from a minute on as the minutes, a colon
    and the seconds on two digits. *)
Theorem formatTime_same_second (a b : Z) :
  0 <= a -> 0 <= b ->
  (Panel.formatTime a = Panel.formatTime b <-> a / 1000 = b / 1000).
Proof.
  intros Ha Hb. unfold Panel.formatTime. split; [|now intros ->].
  assert (Hsa : 0 <= a / 1000) by (apply Z.div_pos; lia).
  assert (Hsb : 0 <= b / 1000) by (apply Z.div_pos; lia).
  generalize dependent (a / 1000). generalize dependent (b / 1000).
  clear a b Ha Hb. intros sb Hsb sa Hsa.
  rewrite !Z.rem_mod_nonneg by lia.
  pose proof (Z.div_mod sa 60 ltac:(lia)) as Da.
  pose proof (Z.div_mod sb 60 ltac:(lia)) as Db.
  pose proof (Z.mod_pos_bound sa 60 ltac:(lia)) as Ra.
  pose proof (Z.mod_pos_bound sb 60 ltac:(lia)) as Rb.
  assert (Hma : 0 <= sa / 60) by (apply Z.div_pos; lia).
  assert (Hmb : 0 <= sb / 60) by (apply Z.div_pos; lia).
  destruct (0 <? sa / 60)%Z eqn:Ea; destruct (0 <? sb / 60)%Z eqn:Eb; intros Heq.
  - apply (digits_split ":"%char ":"%char) in Heq as (Hm & _ & Hsec);
      [|reflexivity|reflexivity|now apply of_Z_digits|now apply of_Z_digits].
    apply of_Z_inj in Hm. apply padStart2_seconds in Hsec; lia.
  - apply (digits_split ":"%char "s"%char) in Heq as (_ & Hc & _);
      [discriminate|reflexivity|reflexivity|now apply of_Z_digits|apply of_Z_digits; lia].
  - apply (digits_split "s"%char ":"%char) in Heq as (_ & Hc & _);
      [discriminate|reflexivity|reflexivity|apply of_Z_digits; lia|now apply of_Z_digits].
  - apply Z.ltb_ge in Ea, Eb.
    apply (digits_split "s"%char "s"%char _ _ EmptyString EmptyString) in Heq as (Hsec & _);
      [|reflexivity|reflexivity|apply of_Z_digits; lia|apply of_Z_digits; lia].
    apply of_Z_inj in Hsec. lia.
Qed.

Lemma formatTime_same_second_witness :
  Panel.formatTime 61000 = "1:01"
  /\ Panel.formatTime 61000 = Panel.formatTime 61999
  /\ Panel.formatTime 61000 <> Panel.formatTime 62000.
Proof.
  split; [reflexivity|]. split.
  - apply (formatTime_same_second 61000 61999); [lia | lia | reflexivity].
  - intros H. apply (formatTime_same_second 61000 62000) in H; [discriminate | lia | lia].
Defined.
